(** * Table-aware Markdown cleaning of [src/index.ts]

    A shallow embedding of the cleaning pipeline of the document organizer
    server ([cleanMarkerOutput], [improvedCleanMarkerOutput],
    [cleanTableLine], [formatTableRegion], [cleanRegularLine] and
    [applyGlobalCleanups]) together with the properties stated about it.

    Modelling conventions.
    - A JavaScript string is a list of code units; a code unit is an
      [ascii], so the model covers the code units 0..255.  The class [\s]
      restricted to that range is 9..13, 32 and 160.
    - A JavaScript [number] is a rational [Q].  Every number the pipeline
      computes is a length, a small integer constant, or a quotient of two
      lengths, and the concrete evaluations below only use quotients that a
      double represents exactly.
    - Regular expressions are kept as syntax trees written after the
      literals of the source and run by one backtracking matcher that
      follows the ECMAScript rules (leftmost match, greedy quantifiers,
      empty iterations of a quantifier rejected). *)

From Stdlib Require String.
Import String.StringSyntax.
From Stdlib Require Import List Sorted Ascii Bool Arith ZArith QArith Qround Qminmax Lia.
Import ListNotations.

Delimit Scope string_scope with string.
Local Open Scope nat_scope.

(* ================================================================== *)
(** ** JavaScript strings *)

Module Js.

Abbreviation jsstring := (list ascii).

Definition str (s : String.string) : jsstring := String.list_ascii_of_string s.
Arguments str s%_string.

Definition code (c : ascii) : nat := nat_of_ascii c.

Definition chr_eqb (a b : ascii) : bool := Ascii.eqb a b.

(** [\s] on the code units below 256. *)
Definition isSpace (c : ascii) : bool :=
  let n := code c in
  ((9 <=? n) && (n <=? 13)) || (n =? 32) || (n =? 160).

(** Line terminators below 256: LF and CR. *)
Definition isLineTerminator (c : ascii) : bool :=
  let n := code c in (n =? 10) || (n =? 13).

Definition isUpper (c : ascii) : bool :=
  let n := code c in (65 <=? n) && (n <=? 90).

Definition isLower (c : ascii) : bool :=
  let n := code c in (97 <=? n) && (n <=? 122).

Definition isAlpha (c : ascii) : bool := isUpper c || isLower c.

Definition isDigit (c : ascii) : bool :=
  let n := code c in (48 <=? n) && (n <=? 57).

Definition pipe : ascii := "|"%char.
Definition dash : ascii := "-"%char.
Definition space : ascii := " "%char.
Definition newline : ascii := "010"%char.
Definition lt_sign : ascii := "<"%char.
Definition gt_sign : ascii := ">"%char.

(** [s.trimStart()], [s.trimEnd()], [s.trim()]. *)
Fixpoint trimStart (s : jsstring) : jsstring :=
  match s with
  | c :: s' => if isSpace c then trimStart s' else s
  | [] => []
  end.

Fixpoint trimEnd (s : jsstring) : jsstring :=
  match s with
  | [] => []
  | c :: s' =>
      match trimEnd s' with
      | [] => if isSpace c then [] else [c]
      | t => c :: t
      end
  end.

Definition trim (s : jsstring) : jsstring := trimEnd (trimStart s).

(** [s.split(sep)] for a separator of one code unit: always at least one
    piece. *)
Fixpoint split (sep : ascii) (s : jsstring) : list jsstring :=
  match s with
  | [] => [[]]
  | c :: s' =>
      if chr_eqb c sep then [] :: split sep s'
      else match split sep s' with
           | p :: ps => (c :: p) :: ps
           | [] => [[c]]
           end
  end.

(** [arr.join(sep)]. *)
Fixpoint join (sep : jsstring) (parts : list jsstring) : jsstring :=
  match parts with
  | [] => []
  | [p] => p
  | p :: ps => p ++ sep ++ join sep ps
  end.

(** [c.repeat(n)] for a string of one code unit. *)
Definition repeat1 (c : ascii) (n : nat) : jsstring := List.repeat c n.

(** [s.padEnd(n)]: filled with spaces up to length [n], never shortened. *)
Definition padEnd (s : jsstring) (n : nat) : jsstring :=
  s ++ repeat1 space (n - length s).

(** [s.substring(0, n)]. *)
Definition substring0 (s : jsstring) (n : nat) : jsstring := firstn n s.

(** Truthiness of a string: non-empty. *)
Definition truthy (s : jsstring) : bool :=
  match s with [] => false | _ :: _ => true end.

End Js.

Import Js.

(* ================================================================== *)
(** ** Regular expressions *)

Module Re.

Inductive regex : Type :=
| Emp                              (* the empty pattern *)
| Chr (c : ascii)                  (* a literal code unit *)
| Cls (p : ascii -> bool)          (* a class, an escape such as \s, or a negated class *)
| Seq (r1 r2 : regex)              (* r1 r2 *)
| Opt (r : regex)                  (* r?  greedy *)
| Star (r : regex)                 (* r*  greedy *)
| Plus (r : regex)                 (* r+  greedy *)
| Grp (n : nat) (r : regex)        (* capture group number n *)
| Bol (multiline : bool)           (* ^ *)
| Eol (multiline : bool)           (* $ *)
| Behind (p : ascii -> bool)       (* (?<=c) for a class c of one code unit *)
| Ahead (r : regex).               (* (?=r) *)

(** A position of the matcher in the subject string: the code units before
    it (nearest first), the code units after it, and the captures. *)
Record mstate : Type := MState {
  before : jsstring;
  after : jsstring;
  groups : list (nat * jsstring)
}.

Definition start_state (s : jsstring) : mstate := MState [] s [].

Definition orElse {A} (x : option A) (y : option A) : option A :=
  match x with Some _ => x | None => y end.

(** Greedy iteration of [step]: one more iteration that consumes input,
    then the rest of the loop, and otherwise the continuation.  The fuel is
    one more than the input left, and each iteration consumes input. *)
Fixpoint star_loop (step : mstate -> (mstate -> option mstate) -> option mstate)
    (fuel : nat) (st : mstate) (k : mstate -> option mstate) : option mstate :=
  match fuel with
  | 0 => k st
  | S fuel' =>
      orElse
        (step st (fun st' =>
           if length (after st') <? length (after st)
           then star_loop step fuel' st' k
           else None))
        (k st)
  end.

Fixpoint rmatch (r : regex) (st : mstate) (k : mstate -> option mstate)
    : option mstate :=
  match r with
  | Emp => k st
  | Chr c =>
      match after st with
      | x :: s' =>
          if chr_eqb x c then k (MState (x :: before st) s' (groups st)) else None
      | [] => None
      end
  | Cls p =>
      match after st with
      | x :: s' =>
          if p x then k (MState (x :: before st) s' (groups st)) else None
      | [] => None
      end
  | Seq r1 r2 => rmatch r1 st (fun st' => rmatch r2 st' k)
  | Opt r1 => orElse (rmatch r1 st k) (k st)
  | Star r1 => star_loop (rmatch r1) (S (length (after st))) st k
  | Plus r1 =>
      rmatch r1 st (fun st' => star_loop (rmatch r1) (S (length (after st'))) st' k)
  | Grp n r1 =>
      rmatch r1 st (fun st' =>
        let text := firstn (length (after st) - length (after st')) (after st) in
        k (MState (before st') (after st') ((n, text) :: groups st')))
  | Bol multiline =>
      match before st with
      | [] => k st
      | x :: _ => if multiline && isLineTerminator x then k st else None
      end
  | Eol multiline =>
      match after st with
      | [] => k st
      | x :: _ => if multiline && isLineTerminator x then k st else None
      end
  | Behind p =>
      match before st with
      | x :: _ => if p x then k st else None
      | [] => None
      end
  | Ahead r1 =>
      match rmatch r1 st Some with
      | Some _ => k st
      | None => None
      end
  end.

(** A match that starts at the position [st]. *)
Definition match_here (r : regex) (st : mstate) : option mstate :=
  rmatch r (MState (before st) (after st) []) Some.

(** The text of capture group [n] ([$n] in a replacement), empty when the
    group took no part in the match. *)
Fixpoint group_text (n : nat) (gs : list (nat * jsstring)) : jsstring :=
  match gs with
  | [] => []
  | (m, t) :: gs' => if n =? m then t else group_text n gs'
  end.

Inductive titem : Type :=
| Lit (s : jsstring)
| Ref (n : nat).

Definition template := list titem.

Definition expand (tpl : template) (gs : list (nat * jsstring)) : jsstring :=
  flat_map (fun it => match it with Lit s => s | Ref n => group_text n gs end) tpl.

(** One code unit forward. *)
Definition advance (st : mstate) : option (ascii * mstate) :=
  match after st with
  | [] => None
  | c :: s' => Some (c, MState (c :: before st) s' [])
  end.

(** [s.replace(/r/g, tpl)]: the matches are found from left to right on the
    original string; an empty match moves one code unit forward. *)
Fixpoint replace_from (r : regex) (tpl : template) (fuel : nat) (st : mstate)
    : jsstring :=
  match fuel with
  | 0 => after st
  | S fuel' =>
      match match_here r st with
      | Some st' =>
          if length (after st') <? length (after st)
          then expand tpl (groups st') ++ replace_from r tpl fuel' (MState (before st') (after st') [])
          else expand tpl (groups st') ++
               match advance st with
               | Some (c, st1) => c :: replace_from r tpl fuel' st1
               | None => []
               end
      | None =>
          match advance st with
          | Some (c, st1) => c :: replace_from r tpl fuel' st1
          | None => []
          end
      end
  end.

Definition replace_all (r : regex) (tpl : template) (s : jsstring) : jsstring :=
  replace_from r tpl (S (length s)) (start_state s).

(** The first match of [r] in the string, searched from left to right. *)
Fixpoint search_from (r : regex) (fuel : nat) (st : mstate) : option mstate :=
  match fuel with
  | 0 => None
  | S fuel' =>
      match match_here r st with
      | Some st' => Some st'
      | None =>
          match advance st with
          | Some (_, st1) => search_from r fuel' st1
          | None => None
          end
      end
  end.

(** [regex.test(s)], the truth value of [s.match(regex)] without flag g. *)
Definition test (r : regex) (s : jsstring) : bool :=
  match search_from r (S (length s)) (start_state s) with
  | Some _ => true
  | None => false
  end.

(** [s.match(/r/g)]: every match from left to right, [None] for null. *)
Fixpoint matches_from (r : regex) (fuel : nat) (st : mstate) : list jsstring :=
  match fuel with
  | 0 => []
  | S fuel' =>
      match match_here r st with
      | Some st' =>
          let text := firstn (length (after st) - length (after st')) (after st) in
          if length (after st') <? length (after st)
          then text :: matches_from r fuel' (MState (before st') (after st') [])
          else text ::
               match advance st with
               | Some (_, st1) => matches_from r fuel' st1
               | None => []
               end
      | None =>
          match advance st with
          | Some (_, st1) => matches_from r fuel' st1
          | None => []
          end
      end
  end.

Definition match_all (r : regex) (s : jsstring) : option (list jsstring) :=
  match matches_from r (S (length s)) (start_state s) with
  | [] => None
  | ms => Some ms
  end.

(** A literal word, code unit by code unit. *)
Fixpoint word (s : jsstring) : regex :=
  match s with
  | [] => Emp
  | c :: s' => Seq (Chr c) (word s')
  end.

(** [r1 r2 ... rn]. *)
Fixpoint seqs (rs : list regex) : regex :=
  match rs with
  | [] => Emp
  | r :: rs' => Seq r (seqs rs')
  end.

End Re.

Import Re.

(* ================================================================== *)
(** ** The regular expressions of the source *)

Module Patterns.

Definition ws : regex := Cls isSpace.

(** [[A-Za-z\s]] *)
Definition alphaSpace (c : ascii) : bool := isAlpha c || isSpace c.

(** [[^<>]] *)
Definition notAngle (c : ascii) : bool :=
  negb (chr_eqb c lt_sign || chr_eqb c gt_sign).

(** [[^\s<>]] *)
Definition urlChar (c : ascii) : bool :=
  negb (isSpace c || chr_eqb c lt_sign || chr_eqb c gt_sign).

(** [[\s\-\|]] *)
Definition sepChar (c : ascii) : bool :=
  isSpace c || chr_eqb c dash || chr_eqb c pipe.

(** "/\|/g" *)
Definition re_pipe : regex := Chr pipe.

(** "/([A-Za-z\s]+),\s*<br>\s*([A-Za-z\s]+)/g" *)
Definition re_location_br : regex :=
  seqs [Grp 1 (Plus (Cls alphaSpace)); Chr ","; Star ws; word (str "<br>");
        Star ws; Grp 2 (Plus (Cls alphaSpace))].

(** "/<br\s*\/?>/g" *)
Definition re_br : regex :=
  seqs [word (str "<br"); Star ws; Opt (Chr "/"); Chr ">"].

(** "/<u>(" "[^<>]*" ")<\/u>/g" (one literal, written in three pieces) *)
Definition re_u : regex :=
  seqs [word (str "<u>"); Grp 1 (Star (Cls notAngle)); word (str "</u>")].

(** "/<\/?em>/g" *)
Definition re_em : regex :=
  seqs [Chr "<"; Opt (Chr "/"); word (str "em>")].

(** "/<\/?strong>/g" *)
Definition re_strong : regex :=
  seqs [Chr "<"; Opt (Chr "/"); word (str "strong>")].

(** "/\s+/g" *)
Definition re_spaces : regex := Plus ws.

(** "/\s*\|\s*/g" *)
Definition re_pipe_spacing : regex := seqs [Star ws; Chr pipe; Star ws].

(** "/^\s*\|[\s\-\|]*\|\s*$/" *)
Definition re_separator : regex :=
  seqs [Bol false; Star ws; Chr pipe; Star (Cls sepChar); Chr pipe; Star ws;
        Eol false].

(** "/([A-Za-z\s]+),\s*([A-Za-z\s]+)/g" *)
Definition re_location : regex :=
  seqs [Grp 1 (Plus (Cls alphaSpace)); Chr ","; Star ws;
        Grp 2 (Plus (Cls alphaSpace))].

(** "/(?<=\s)\d{1,2}(?=\s+[A-Z][a-z])/g" *)
Definition re_footnote : regex :=
  seqs [Behind isSpace; Cls isDigit; Opt (Cls isDigit);
        Ahead (seqs [Plus ws; Cls isUpper; Cls isLower])].

(** "/\n\s*\n\s*\n+/g" *)
Definition re_paragraph : regex :=
  seqs [Chr newline; Star ws; Chr newline; Star ws; Plus (Chr newline)].

(** "/^#+\s*$/gm" *)
Definition re_empty_header : regex :=
  seqs [Bol true; Plus (Chr "#"); Star ws; Eol true].

(** "/(https?:\/\/[^\s<>]+)<br>([^\s<>]+)/g" *)
Definition re_broken_url : regex :=
  seqs [Grp 1 (seqs [word (str "http"); Opt (Chr "s"); word (str "://");
                     Plus (Cls urlChar)]);
        word (str "<br>"); Grp 2 (Plus (Cls urlChar))].

End Patterns.

Import Patterns.

(* ================================================================== *)
(** ** Line cleaning *)

(** [cleanTableLine]: the conservative cleaning of a table line. *)
Definition cleanTableLine (line : jsstring) : jsstring :=
  let line := replace_all re_location_br [Ref 1; Lit (str ", "); Ref 2] line in
  let line := replace_all re_br [Lit (str " ")] line in
  let line := replace_all re_u [Ref 1] line in
  let line := replace_all re_em [] line in
  let line := replace_all re_strong [] line in
  let line := replace_all re_spaces [Lit (str " ")] line in
  let line := replace_all re_pipe_spacing [Lit (str " | ")] line in
  trim line.

(** [cleanRegularLine]: the cleaning of a line outside tables. *)
Definition cleanRegularLine (line : jsstring) : jsstring :=
  let line := replace_all re_br [Lit (str " ")] line in
  let line := replace_all re_u [Ref 1] line in
  let line := replace_all re_em [] line in
  let line := replace_all re_strong [] line in
  let line := replace_all re_location [Ref 1; Lit (str ", "); Ref 2] line in
  let line := replace_all re_footnote [] line in
  let line := replace_all re_spaces [Lit (str " ")] line in
  trim line.

(** The three steps of [applyGlobalCleanups]. *)
Definition fixParagraphSpacing (text : jsstring) : jsstring :=
  replace_all re_paragraph [Lit [newline; newline]] text.

Definition removeEmptyHeaders (text : jsstring) : jsstring :=
  replace_all re_empty_header [] text.

Definition repairBrokenUrls (text : jsstring) : jsstring :=
  replace_all re_broken_url [Ref 1; Ref 2] text.

Definition applyGlobalCleanups (text : jsstring) : jsstring :=
  let text := fixParagraphSpacing text in
  let text := removeEmptyHeaders text in
  let text := repairBrokenUrls text in
  text.

(* ================================================================== *)
(** ** Numbers *)

Definition number := Q.
Bind Scope Q_scope with number.

Definition ofNat (n : nat) : number := inject_Z (Z.of_nat n).

(** [a <= b] and [a > b] on numbers. *)
Definition leb (a b : number) : bool := Qle_bool a b.
Definition gtb (a b : number) : bool := negb (Qle_bool a b).

(** [Math.floor]. *)
Definition mathFloor (x : number) : number := inject_Z (Qfloor x).

(** The integer a string method makes of a count or an index: the
    fraction is dropped and a negative value counts as 0. *)
Definition toLength (x : number) : nat := Z.to_nat (Qfloor x).

(** [xs.reduce((a, b) => a + b, 0)]. *)
Definition sumLengths (xs : list nat) : nat := fold_left Nat.add xs 0.

(* ================================================================== *)
(** ** [formatTableRegion] *)

(** [arr.filter((x, index) => f x index)]. *)
Fixpoint filter_index {A} (f : A -> nat -> bool) (index : nat) (arr : list A)
    : list A :=
  match arr with
  | [] => []
  | x :: arr' =>
      if f x index then x :: filter_index f (S index) arr'
      else filter_index f (S index) arr'
  end.

(** The cells of one line: split on the pipe, trim, drop an empty first and
    an empty last piece. *)
Definition parseCells (line : jsstring) : list jsstring :=
  let arr := map trim (split pipe line) in
  filter_index
    (fun cell index =>
       negb (negb (truthy cell) && ((index =? 0) || (index =? length arr - 1))))
    0 arr.

(** One turn of the loop that fills [rows]. *)
Definition pushRow (rows : list (list jsstring)) (line : jsstring)
    : list (list jsstring) :=
  if truthy (trim line) && negb (test re_separator line) then
    let cells := parseCells line in
    if 0 <? length cells then rows ++ [cells] else rows
  else rows.

Definition parseRows (tableLines : list jsstring) : list (list jsstring) :=
  fold_left pushRow tableLines [].

(** [Math.max(...rows.map(row => row.length))]. *)
Definition maxColumnsOf (rows : list (list jsstring)) : nat :=
  list_max (map (@length jsstring) rows).

(** The lengths collected for column [col]: a row contributes when
    [row[col]] is truthy, that is present and not empty. *)
Definition cellLengths (rows : list (list jsstring)) (col : nat) : list nat :=
  flat_map
    (fun row =>
       match nth_error row col with
       | Some cell => if truthy cell then [length cell] else []
       | None => []
       end)
    rows.

(** The width of column [col]. *)
Definition columnWidth (rows : list (list jsstring)) (col : nat) : number :=
  let lens := cellLengths rows col in
  if 0 <? length lens then
    let avgLength := (ofNat (sumLengths lens) / ofNat (length lens))%Q in
    let maxLength := list_max lens in
    if maxLength <=? 25 then Qmax (ofNat maxLength) 8%Q
    else if maxLength <=? 60 then
      Qmax (Qmin (mathFloor (ofNat maxLength * (8 # 10))%Q) (avgLength + 10)%Q) 15%Q
    else Qmin 50%Q (Qmax 30%Q avgLength)
  else 8%Q.

Definition columnWidthsOf (rows : list (list jsstring)) : list number :=
  map (columnWidth rows) (seq 0 (maxColumnsOf rows)).

(** The word loop of the truncation: a word is taken while the text so far
    and the word together fit in [width - 3]. *)
Fixpoint takeWords (width : number) (words : list jsstring) (result : jsstring)
    : jsstring :=
  match words with
  | [] => result
  | word :: words' =>
      if leb (ofNat (length (result ++ word))) (width - 3)%Q
      then takeWords width words'
             (result ++ (if truthy result then [space] else []) ++ word)
      else result
  end.

(** One formatted cell. *)
Definition formatCell (cell : jsstring) (width : number) : jsstring :=
  if leb (ofNat (length cell)) width then padEnd cell (toLength width)
  else if gtb (ofNat (length cell)) width then
    let words := split space cell in
    let result := takeWords width words [] in
    let result :=
      if length result =? 0 then substring0 cell (toLength (width - 3)%Q)
      else result in
    padEnd (result ++ str "...") (toLength width)
  else padEnd cell (toLength width).

(** [row[col] || ''] *)
Definition cellAt (row : list jsstring) (col : nat) : jsstring :=
  match nth_error row col with
  | Some cell => if truthy cell then cell else []
  | None => []
  end.

(** ["| " + cells.join(" | ") + " |"] *)
Definition tableLine (cells : list jsstring) : jsstring :=
  str "| " ++ join (str " | ") cells ++ str " |".

Definition formatRow (maxColumns : nat) (columnWidths : list number)
    (row : list jsstring) : jsstring :=
  tableLine
    (map (fun col => formatCell (cellAt row col) (nth col columnWidths 0%Q))
         (seq 0 maxColumns)).

Definition separatorLine (columnWidths : list number) : jsstring :=
  tableLine (map (fun width => repeat1 dash (toLength width)) columnWidths).

(** The loop over the rows; the separator follows the row of index 0. *)
Fixpoint formatRows (maxColumns : nat) (columnWidths : list number)
    (rowIndex : nat) (rows : list (list jsstring)) : list jsstring :=
  match rows with
  | [] => []
  | row :: rows' =>
      formatRow maxColumns columnWidths row ::
      (if rowIndex =? 0 then [separatorLine columnWidths] else []) ++
      formatRows maxColumns columnWidths (S rowIndex) rows'
  end.

Definition formatTableRegion (tableLines : list jsstring) : list jsstring :=
  if length tableLines <? 2 then tableLines
  else
    let rows := parseRows tableLines in
    if length rows =? 0 then tableLines
    else
      let maxColumns := maxColumnsOf rows in
      let columnWidths := columnWidthsOf rows in
      formatRows maxColumns columnWidths 0 rows.

(* ================================================================== *)
(** ** [improvedCleanMarkerOutput] *)

(** The verdict of the line classifier:
    [(line.match(/\|/g) || []).length >= 2]. *)
Definition isTableLine (line : jsstring) : bool :=
  2 <=? length (match match_all re_pipe line with
                | Some ms => ms
                | None => []
                end).

(** The variables of the first loop. *)
Record scan : Type := Scan {
  inTable : bool;
  currentTableStart : option nat;
  tableRegions : list (nat * nat)
}.

(** One turn of the first loop, at line [i]. *)
Definition scanStep (st : scan) (i : nat) (line : jsstring) : scan :=
  if isTableLine line && negb (inTable st) then
    Scan true (Some i) (tableRegions st)
  else if negb (isTableLine line) && inTable st then
    match currentTableStart st with
    | Some start => Scan false None (tableRegions st ++ [(start, i - 1)])
    | None => Scan false (currentTableStart st) (tableRegions st)
    end
  else st.

Fixpoint scanLines (st : scan) (i : nat) (lines : list jsstring) : scan :=
  match lines with
  | [] => st
  | line :: lines' => scanLines (scanStep st i line) (S i) lines'
  end.

(** The regions once the table that runs to the end is closed. *)
Definition findTableRegions (lines : list jsstring) : list (nat * nat) :=
  let st := scanLines (Scan false None []) 0 lines in
  match inTable st, currentTableStart st with
  | true, Some start => tableRegions st ++ [(start, length lines - 1)]
  | _, _ => tableRegions st
  end.

(** The second loop, for any way [onProse] of emitting a line outside
    tables and any way [onTable] of emitting the lines of a region.
    [lines[i]] outside the array is [undefined], on which the cleaning
    functions throw: the result is then [None]. *)
Section Assemble.

Context {B : Type}.
Variable onProse : nat -> jsstring -> B.
Variable onTable : list (nat * jsstring) -> list B.

(** [lines[i]] for the indices of one [for] loop. *)
Fixpoint readLines (lines : list jsstring) (indices : list nat)
    : option (list (nat * jsstring)) :=
  match indices with
  | [] => Some []
  | i :: indices' =>
      match nth_error lines i, readLines lines indices' with
      | Some line, Some rest => Some ((i, line) :: rest)
      | _, _ => None
      end
  end.

(** [for (let i = from; i < to; i++) cleanedLines.push(onProse(lines[i]))] *)
Definition pushProse (lines : list jsstring) (from to : nat)
    (cleanedLines : list B) : option (list B) :=
  match readLines lines (seq from (to - from)) with
  | Some ls => Some (cleanedLines ++ map (fun il => onProse (fst il) (snd il)) ls)
  | None => None
  end.

Fixpoint assembleRegions (lines : list jsstring) (regions : list (nat * nat))
    (processedLines : nat) (cleanedLines : list B) : option (list B) :=
  match regions with
  | [] => pushProse lines processedLines (length lines) cleanedLines
  | (tableStart, tableEnd) :: regions' =>
      match pushProse lines processedLines tableStart cleanedLines with
      | Some cleanedLines1 =>
          match readLines lines (seq tableStart (S tableEnd - tableStart)) with
          | Some tableLines =>
              assembleRegions lines regions' (tableEnd + 1)
                (cleanedLines1 ++ onTable tableLines)
          | None => None
          end
      | None => None
      end
  end.

Definition assemble (lines : list jsstring) : option (list B) :=
  assembleRegions lines (findTableRegions lines) 0 [].

End Assemble.

(** The two branches of the source. *)
Definition proseBranch (i : nat) (line : jsstring) : jsstring :=
  cleanRegularLine line.

Definition tableBranch (tableLines : list (nat * jsstring)) : list jsstring :=
  formatTableRegion (map (fun il => cleanTableLine (snd il)) tableLines).

Definition improvedCleanMarkerOutput (text : jsstring) : option jsstring :=
  let lines := split newline text in
  match assemble proseBranch tableBranch lines with
  | Some cleanedLines =>
      let result := join [newline] cleanedLines in
      let result := applyGlobalCleanups result in
      Some (trim result)
  | None => None
  end.

(* ================================================================== *)
(** ** [cleanMarkerOutput] *)

(** The values a caller can pass at run time. *)
Inductive jsvalue : Type :=
| JUndefined
| JNull
| JBoolean (b : bool)
| JNumber (x : number)
| JNaN
| JString (s : jsstring)
| JObject.

(** The outcome of a call: a returned value or a thrown error. *)
Inductive outcome : Type :=
| Returned (v : jsvalue)
| Thrown (name : jsstring).

(** [!v] *)
Definition falsy (v : jsvalue) : bool :=
  match v with
  | JUndefined | JNull | JNaN => true
  | JBoolean b => negb b
  | JNumber x => Qeq_bool x 0
  | JString s => negb (truthy s)
  | JObject => false
  end.

(** [typeof v !== 'string'] *)
Definition notString (v : jsvalue) : bool :=
  match v with JString _ => false | _ => true end.

Definition cleanMarkerOutput (markdownContent : jsvalue) : outcome :=
  if falsy markdownContent || notString markdownContent then
    Returned markdownContent
  else
    match markdownContent with
    | JString text =>
        match improvedCleanMarkerOutput text with
        | Some result => Returned (JString result)
        | None => Thrown (str "TypeError")
        end
    | _ => Returned markdownContent
    end.

(* ================================================================== *)
(** ** Definitions used to state the properties *)

Definition countPipes (line : jsstring) : nat := count_occ ascii_dec line pipe.

(** The branch of the second loop that emits a line. *)
Inductive branch : Type := ProseBranch | TableBranch.

Definition traceProse (i : nat) (line : jsstring) : nat * branch :=
  (i, ProseBranch).

Definition traceTable (tableLines : list (nat * jsstring)) : list (nat * branch) :=
  map (fun il => (fst il, TableBranch)) tableLines.

(** Line [i] lies in the region [r] (both ends included). *)
Definition inRegion (r : nat * nat) (i : nat) : Prop :=
  fst r <= i /\ i <= snd r.

(** The lines with their indices, counted from [i]. *)
Definition indexed (i : nat) (lines : list jsstring) : list (nat * jsstring) :=
  combine (seq i (length lines)) lines.

(** The maximal runs of table verdicts, read off the list of verdicts:
    [open] is the start of the run under way, [i] the index of the next
    verdict. *)
Fixpoint runs (open : option nat) (i : nat) (verdicts : list bool)
    : list (nat * nat) :=
  match verdicts with
  | [] => match open with Some s => [(s, i - 1)] | None => [] end
  | v :: verdicts' =>
      match open, v with
      | None, true => runs (Some i) (S i) verdicts'
      | None, false => runs None (S i) verdicts'
      | Some s, true => runs (Some s) (S i) verdicts'
      | Some s, false => (s, i - 1) :: runs None (S i) verdicts'
      end
  end.

(** The output of the second loop read off the lines in one pass: a line
    outside tables is emitted on its own, the lines of a run of table lines
    are emitted together when the run ends.  [pending] holds the run under
    way, latest line first. *)
Section Blocks.

Context {B : Type}.
Variable onProse : nat -> jsstring -> B.
Variable onTable : list (nat * jsstring) -> list B.

Definition flush (pending : list (nat * jsstring)) : list B :=
  match pending with
  | [] => []
  | _ :: _ => onTable (rev pending)
  end.

Fixpoint blocks (i : nat) (lines : list jsstring)
    (pending : list (nat * jsstring)) : list B :=
  match lines with
  | [] => flush pending
  | line :: lines' =>
      if isTableLine line then blocks (S i) lines' ((i, line) :: pending)
      else flush pending ++ onProse i line :: blocks (S i) lines' []
  end.

End Blocks.

(** The two variables [inTable] and [currentTableStart] move together. *)
Definition scan_consistent (st : scan) : Prop :=
  inTable st = match currentTableStart st with Some _ => true | None => false end.

(** The regions the scan ends with, once the open table is closed at the
    line before [i]. *)
Definition closedAt (st : scan) (i : nat) : list (nat * nat) :=
  match inTable st, currentTableStart st with
  | true, Some start => tableRegions st ++ [(start, i - 1)]
  | _, _ => tableRegions st
  end.

(** The branch that the verdict of a line selects. *)
Definition branchOf (line : jsstring) : branch :=
  if isTableLine line then TableBranch else ProseBranch.

(** Two regions in document order with at least one line between them. *)
Definition apart (r1 r2 : nat * nat) : Prop := snd r1 + 1 < fst r2.

(** The least index a region of [runs open i] can start at. *)
Definition lowest (open : option nat) (i : nat) : nat :=
  match open with Some s => s | None => i end.

(** A document given by its lines. *)
Definition document (lines : list jsstring) : jsstring := join [newline] lines.

(** A cleaned line from which no row is parsed: blank, or matching the
    separator pattern. *)
Definition separatorLike (line : jsstring) : bool :=
  negb (truthy (trim line)) || test re_separator line.

(** A number that is an integer. *)
Definition isInteger (x : number) : Prop := exists z : Z, x == inject_Z z.

(** The cells that the rows have at column [col], empty ones included. *)
Definition cellsAt (rows : list (list jsstring)) (col : nat) : list jsstring :=
  flat_map (fun row => match nth_error row col with
                       | Some cell => [cell]
                       | None => []
                       end) rows.

(** The width of a column as the specification words it, from the lengths
    [lens] of the cells of the column: 8 without cells, and otherwise by
    the tier of the longest cell, with the mean taken over [lens]. *)
Definition tierWidth (lens : list nat) : number :=
  match lens with
  | [] => 8%Q
  | _ :: _ =>
      let max := list_max lens in
      let avg := (ofNat (list_sum lens) / ofNat (length lens))%Q in
      if max <=? 25 then Qmax (ofNat max) 8%Q
      else if max <=? 60 then
        Qmax (Qmin (inject_Z (4 * Z.of_nat max / 5)) (avg + 10)%Q) 15%Q
      else Qmin 50%Q (Qmax 30%Q avg)
  end.

(** The specification's width of column [col]: every cell that a row has
    at the column counts, an empty one too. *)
Definition claimedColumnWidth (rows : list (list jsstring)) (col : nat) : number :=
  tierWidth (map (@length ascii) (cellsAt rows col)).

(* ------------------------------------------------------------------ *)
(** *** Notions about the matcher *)

(** Every match of [r] consumes the code unit [c]. *)
Fixpoint requires (c : ascii) (r : regex) : bool :=
  match r with
  | Chr x => chr_eqb x c
  | Seq r1 r2 => requires c r1 || requires c r2
  | Plus r1 => requires c r1
  | Grp _ r1 => requires c r1
  | _ => false
  end.

(** The greedy choice of a quantified class over a run [w] of code units
    of the class: the longest prefix first, then the shorter ones, until
    the continuation accepts. *)
Fixpoint backtrack (k : mstate -> option mstate) (b w rest : jsstring)
    (g : list (nat * jsstring)) : option mstate :=
  match w with
  | [] => k (MState b rest g)
  | c :: w' =>
      orElse (backtrack k (c :: b) w' rest g) (k (MState b (c :: w' ++ rest) g))
  end.

(** The longest prefix of code units that satisfy [p], and what follows. *)
Fixpoint takeWhile (p : ascii -> bool) (s : jsstring) : jsstring :=
  match s with
  | c :: s' => if p c then c :: takeWhile p s' else []
  | [] => []
  end.

Fixpoint dropWhile (p : ascii -> bool) (s : jsstring) : jsstring :=
  match s with
  | c :: s' => if p c then dropWhile p s' else s
  | [] => []
  end.

(** [s] is empty or starts with a code unit that fails [p]. *)
Definition stopsAt (p : ascii -> bool) (s : jsstring) : Prop :=
  match s with
  | [] => True
  | c :: _ => p c = false
  end.

(** What follows the last occurrence of [c] in [w]. *)
Fixpoint afterLast (c : ascii) (w : jsstring) : jsstring :=
  match w with
  | [] => []
  | x :: w' =>
      if chr_eqb x c && negb (existsb (fun y => chr_eqb y c) w') then w'
      else afterLast c w'
  end.

(** A match of the paragraph pattern at the start of [text], and the text
    left after it: the text starts with a newline, and the white space
    after that newline holds two more newlines; the match ends with the
    last of them. *)
Definition paragraphBreak (text : jsstring) : option jsstring :=
  match text with
  | c :: t =>
      if chr_eqb c newline then
        let w := takeWhile isSpace t in
        if 2 <=? count_occ ascii_dec w newline
        then Some (afterLast newline w ++ dropWhile isSpace t)
        else None
      else None
  | [] => None
  end.

(** The position the loop is left at when the continuation accepts after
    the prefix [u] of the run. *)
Definition splitAt (b u v rest : jsstring) (g : list (nat * jsstring)) : mstate :=
  MState (rev u ++ b) (v ++ rest) g.


(** A global replacement read off a function [brk] that tells whether a
    match starts at the head of a text and what text is left after it:
    every match is replaced by [ins]. *)
Fixpoint rewriteFrom (brk : jsstring -> option jsstring) (ins : jsstring)
    (fuel : nat) (text : jsstring) : jsstring :=
  match fuel with
  | 0 => text
  | S fuel' =>
      match brk text with
      | Some rest' => ins ++ rewriteFrom brk ins fuel' rest'
      | None =>
          match text with
          | [] => []
          | c :: t => c :: rewriteFrom brk ins fuel' t
          end
      end
  end.

Definition rewriteAll (brk : jsstring -> option jsstring) (ins : jsstring)
    (text : jsstring) : jsstring :=
  rewriteFrom brk ins (length text) text.

(** The replacement of the paragraph pattern. *)
Definition squeeze (text : jsstring) : jsstring :=
  rewriteAll paragraphBreak [newline; newline] text.

(** [s] is empty or ends with a code unit that is not white space. *)
Definition endsNonSpace (s : jsstring) : Prop := stopsAt isSpace (rev s).

(** What a run of [n] newlines between two texts becomes. *)
Definition squeezedNewlines (n : nat) : jsstring :=
  if 3 <=? n then [newline; newline] else repeat newline n.

(** A match of the white space pattern at the head of a text. *)
Definition spacesBreak (text : jsstring) : option jsstring :=
  match text with
  | c :: t => if isSpace c then Some (dropWhile isSpace t) else None
  | [] => None
  end.

(** Every run of white space replaced by one space. *)
Definition collapse (text : jsstring) : jsstring :=
  rewriteAll spacesBreak [space] text.

(** A match of the pipe spacing pattern at the head of a text: a pipe
    after optional white space, with the white space after it. *)
Definition pipeBreak (text : jsstring) : option jsstring :=
  match dropWhile isSpace text with
  | c :: r => if chr_eqb c pipe then Some (dropWhile isSpace r) else None
  | [] => None
  end.

(** Every pipe set between two spaces. *)
Definition pipeSpace (text : jsstring) : jsstring :=
  rewriteAll pipeBreak (str " | ") text.

(** A text in which every white space is a single space between two other
    code units, or at an end of the text. *)
Fixpoint tidy (s : jsstring) : bool :=
  match s with
  | [] => true
  | c :: s' =>
      (if isSpace c
       then chr_eqb c space &&
            match s' with
            | d :: _ => negb (isSpace d)
            | [] => true
            end
       else true) && tidy s'
  end.

(** All code units are white space. *)
Definition blank (s : jsstring) : bool := forallb isSpace s.

(** The text between two cells of a cleaned table line. *)
Definition cellSep : jsstring := [space; pipe; space].

(** The normal form of a table line with the cells [cells]. *)
Definition normalLine (cells : list jsstring) : jsstring :=
  trim (join cellSep cells).

(** The cells of a line, before the empty first and last ones are
    dropped. *)
Definition rawCells (line : jsstring) : list jsstring :=
  map (fun p => trim (collapse p)) (split pipe line).

(** The filter of [parseCells] on its own: an empty first and an empty
    last cell are dropped. *)
Definition dropEdges (cells : list jsstring) : list jsstring :=
  filter_index
    (fun cell index =>
       negb (negb (truthy cell) && ((index =? 0) || (index =? length cells - 1))))
    0 cells.

(** A cell as the first pass leaves it: no pipe, no [<], no white space at
    its ends, single spaces inside. *)
Definition stableCell (c : jsstring) : Prop :=
  ~ In pipe c /\ ~ In lt_sign c /\ trim c = c /\ tidy c = true.

(** A cell with spaces after it. *)
Definition paddedFrom (x c : jsstring) : Prop :=
  exists k, x = c ++ repeat space k.

(** Every code unit that a match of [r] consumes satisfies [P]. *)
Fixpoint only (P : ascii -> Prop) (r : regex) : Prop :=
  match r with
  | Emp => True
  | Chr c => P c
  | Cls p => forall x, p x = true -> P x
  | Seq r1 r2 => only P r1 /\ only P r2
  | Opt r1 => only P r1
  | Star r1 => only P r1
  | Plus r1 => only P r1
  | Grp _ r1 => only P r1
  | Bol _ => True
  | Eol _ => True
  | Behind _ => True
  | Ahead _ => True
  end.

(** A cell between the two spaces that a rendered line puts around it. *)
Definition wrapCell (x : jsstring) : jsstring := space :: x ++ [space].

(** A row with at least one code unit that no separator line has. *)
Definition rowHasText (row : list jsstring) : bool :=
  existsb (fun cell => existsb (fun c => negb (sepChar c)) cell) row.

(** The row that one cleaned line gives, if any. *)
Definition rowOf (line : jsstring) : list (list jsstring) :=
  if truthy (trim line) && negb (test re_separator line) then
    let cells := parseCells line in
    if 0 <? length cells then [cells] else []
  else [].

(** A row filled with empty cells up to [maxColumns] columns, as a
    rendered line shows it. *)
Definition fullRow (maxColumns : nat) (row : list jsstring) : list jsstring :=
  map (cellAt row) (seq 0 maxColumns).

(** No cell of the rows is longer than the width planned for its column. *)
Definition noTruncation (rows : list (list jsstring)) : bool :=
  let columnWidths := columnWidthsOf rows in
  forallb
    (fun row =>
       forallb
         (fun col => leb (ofNat (length (cellAt row col))) (nth col columnWidths 0%Q))
         (seq 0 (maxColumnsOf rows)))
    rows.

(** The column plan of a table region given by its cleaned lines, when the
    region is reformatted. *)
Definition planOf (tableLines : list jsstring) : option (list number) :=
  if length tableLines <? 2 then None
  else
    let rows := parseRows tableLines in
    if length rows =? 0 then None else Some (columnWidthsOf rows).





(** The condition on a reformatted region under which its rendered lines
    are read back as they are: no cell is truncated, and every row has a
    code unit other than white space, dashes and pipes. *)
Definition regionSteady (tableLines : list jsstring) : bool :=
  match planOf tableLines with
  | None => true
  | Some _ =>
      let rows := parseRows tableLines in
      noTruncation rows && forallb rowHasText rows
  end.




(* ------------------------------------------------------------------ *)
(** *** Notions about the lines of a cleaned document *)

Definition cr : ascii := "013"%char.

(** A line as the pipeline emits it: no white space at its ends and no
    line terminator inside. *)
Definition neat (l : jsstring) : Prop :=
  trim l = l /\ ~ In newline l /\ ~ In cr l.

(** Every captured text is made of code units that satisfy [P]. *)
Definition groupsIn (P : ascii -> Prop) (gs : list (nat * jsstring)) : Prop :=
  Forall (fun g => Forall P (snd g)) gs.

(** Every literal of a replacement is made of code units that satisfy
    [P]. *)
Definition templateIn (P : ascii -> Prop) (tpl : template) : Prop :=
  Forall (fun it => match it with Lit s => Forall P s | Ref _ => True end) tpl.

(** The lines that the two branches emit. *)
Definition tableLike (t : jsstring) : Prop :=
  neat t /\ isTableLine t = true /\ ~ In lt_sign t.

Definition proseLike (p : jsstring) : Prop :=
  neat p /\ isTableLine p = false /\ ~ In lt_sign p.

(** The maximal runs of table lines of a list of lines; [pending] holds
    the run under way, latest line first. *)
Definition flushRun (pending : list jsstring) : list (list jsstring) :=
  match pending with
  | [] => []
  | _ :: _ => [rev pending]
  end.

Fixpoint tableRuns (lines : list jsstring) (pending : list jsstring)
    : list (list jsstring) :=
  match lines with
  | [] => flushRun pending
  | line :: lines' =>
      if isTableLine line then tableRuns lines' (line :: pending)
      else flushRun pending ++ tableRuns lines' []
  end.

(** What a run of table lines is replaced by. *)
Definition renderRun (run : list jsstring) : list jsstring :=
  formatTableRegion (map cleanTableLine run).


(* ------------------------------------------------------------------ *)
(** *** A document as its non-empty lines *)

(** The text of the non-empty lines of a document, each followed by a
    number of newlines. *)
Fixpoint layout (items : list (jsstring * nat)) : jsstring :=
  match items with
  | [] => []
  | (l, k) :: items' => l ++ repeat newline k ++ layout items'
  end.

(** The lines are not empty, neat and without [<], and a newline follows
    every line but the last. *)
Fixpoint laidOut (items : list (jsstring * nat)) : Prop :=
  match items with
  | [] => True
  | (l, k) :: items' =>
      l <> [] /\ neat l /\ ~ In lt_sign l /\ (items' = [] \/ 1 <= k) /\
      laidOut items'
  end.

(** The runs of table lines read off the non-empty lines: a run goes on
    when one newline separates two table lines. *)
Fixpoint runsOf (items : list (jsstring * nat)) (pending : list jsstring)
    : list (list jsstring) :=
  match items with
  | [] => flushRun pending
  | (l, k) :: items' =>
      if isTableLine l then
        if k =? 1 then runsOf items' (l :: pending)
        else flushRun (l :: pending) ++ runsOf items' []
      else flushRun pending ++ runsOf items' []
  end.

(** What the paragraph pattern makes of a number of newlines. *)
Definition squeezedCount (k : nat) : nat := if 3 <=? k then 2 else k.

Definition squeezeItem (it : jsstring * nat) : jsstring * nat :=
  (fst it, squeezedCount (snd it)).

(** The newlines after the last line removed. *)
Fixpoint unpad (items : list (jsstring * nat)) : list (jsstring * nat) :=
  match items with
  | [] => []
  | (l, k) :: items' =>
      match items' with
      | [] => [(l, 0)]
      | _ :: _ => (l, k) :: unpad items'
      end
  end.

(* ------------------------------------------------------------------ *)
(** *** The header pattern on a layout *)

Definition hash : ascii := "#"%char.

Definition isHash (c : ascii) : bool := chr_eqb c hash.

(** A line of hashes only. *)
Definition isHeader (l : jsstring) : bool := forallb isHash l.

(** The position with [b] before it is at the start of a line. *)
Definition lineStart (b : jsstring) : Prop :=
  match b with
  | [] => True
  | x :: _ => isLineTerminator x = true
  end.

(** The replacement of the header pattern from the position with [b]
    before it and [text] after it. *)
Definition headersAt (b text : jsstring) : jsstring :=
  replace_from re_empty_header [] (S (length text)) (MState b text []).

(** The end of the header pattern: the end of a line, and the white space
    before it. *)
Definition atLineEnd (st : mstate) : option mstate :=
  rmatch (Seq (Eol true) Emp) st Some.

Definition spacesToLineEnd (st : mstate) : option mstate :=
  rmatch (Seq (Star ws) (Seq (Eol true) Emp)) st Some.

(** What the header pattern leaves of a layout: a line of hashes goes with
    the newlines after it but the last one, and with all of them at the end
    of the document. *)
Fixpoint headerless (items : list (jsstring * nat)) : jsstring :=
  match items with
  | [] => []
  | (l, k) :: items' =>
      if isHeader l then
        match items' with
        | [] => []
        | _ :: _ => newline :: headerless items'
        end
      else l ++ repeat newline k ++ headerless items'
  end.

(** The same as a layout: the newlines that the removed lines leave at its
    start, and the lines left; a newline left by a removed line is counted
    with the line before it. *)
Fixpoint hdrItems (items : list (jsstring * nat)) : nat * list (jsstring * nat) :=
  match items with
  | [] => (0, [])
  | (l, k) :: items' =>
      let r := hdrItems items' in
      if isHeader l then
        match items' with
        | [] => (0, [])
        | _ :: _ => (S (fst r), snd r)
        end
      else (0, (l, k + fst r) :: snd r)
  end.

(* ------------------------------------------------------------------ *)
(** *** Documents that the first pass leaves without tags *)

(** The first five replacements of [cleanTableLine], which take away line
    breaks and tags. *)
Definition stripTableTags (line : jsstring) : jsstring :=
  let line := replace_all re_location_br [Ref 1; Lit (str ", "); Ref 2] line in
  let line := replace_all re_br [Lit (str " ")] line in
  let line := replace_all re_u [Ref 1] line in
  let line := replace_all re_em [] line in
  let line := replace_all re_strong [] line in
  line.

(** What the first pass makes of a line before a region is rendered. *)
Definition cleanedLine (line : jsstring) : jsstring :=
  if isTableLine line then cleanTableLine line else cleanRegularLine line.

Definition hasLt (s : jsstring) : bool := existsb (fun c => chr_eqb c lt_sign) s.

(** No line of the document has a [<] left once it is cleaned. *)
Definition tagsGone (text : jsstring) : bool :=
  forallb (fun line => negb (hasLt (cleanedLine line))) (split newline text).

(* ================================================================== *)
(** ** [analyzeMarkdownContent] *)

(** [s.toLowerCase()] on the code units below 256: the letters A to Z, and
    the letters 192 to 222 without the multiplication sign 215, move up
    by 32. *)
Definition toLowerUnit (c : ascii) : ascii :=
  let n := code c in
  if ((65 <=? n) && (n <=? 90)) ||
     ((192 <=? n) && (n <=? 222) && negb (n =? 215))
  then ascii_of_nat (n + 32)
  else c.

Definition toLowerCase (s : jsstring) : jsstring := map toLowerUnit s.

(** [s.slice(0, n)] *)
Definition slice0 (s : jsstring) (n : nat) : jsstring := firstn n s.

(** [s.startsWith(prefix)] *)
Fixpoint startsWith (s prefix : jsstring) {struct prefix} : bool :=
  match prefix with
  | [] => true
  | p :: prefix' =>
      match s with
      | c :: s' => chr_eqb c p && startsWith s' prefix'
      | [] => false
      end
  end.

(** [s.includes(sub)] *)
Fixpoint includes (s sub : jsstring) : bool :=
  startsWith s sub ||
  match s with
  | [] => false
  | _ :: s' => includes s' sub
  end.

(** The object [categories], as [Object.entries] lists it. *)
Definition categories : list (jsstring * list jsstring) :=
  [ (str "Research",
     [str "analysis"; str "research"; str "study"; str "investigation";
      str "findings"; str "methodology"]);
    (str "Planning",
     [str "plan"; str "strategy"; str "roadmap"; str "timeline"; str "goals";
      str "objectives"; str "discussion"]);
    (str "Documentation",
     [str "documentation"; str "guide"; str "manual"; str "instructions";
      str "tutorial"; str "reference"]);
    (str "Technical",
     [str "technical"; str "implementation"; str "architecture"; str "design";
      str "specification"; str "api"]);
    (str "Business",
     [str "business"; str "market"; str "competitive"; str "revenue";
      str "commercial"; str "strategy"]) ].

(** The loop over the keywords of one category: [score] counts the
    keywords found, which are pushed on [foundKeywords]. *)
Fixpoint scoreKeywords (firstPart : jsstring) (keywordList : list jsstring)
    (score : nat) (foundKeywords : list jsstring) : nat * list jsstring :=
  match keywordList with
  | [] => (score, foundKeywords)
  | keyword :: rest =>
      if includes firstPart keyword
      then scoreKeywords firstPart rest (S score) (foundKeywords ++ [keyword])
      else scoreKeywords firstPart rest score foundKeywords
  end.

(** The loop over the categories. *)
Fixpoint scanCategories (firstPart : jsstring)
    (entries : list (jsstring * list jsstring))
    (bestCategory : jsstring) (bestScore : nat) (foundKeywords : list jsstring)
    : jsstring * nat * list jsstring :=
  match entries with
  | [] => (bestCategory, bestScore, foundKeywords)
  | (name, keywordList) :: rest =>
      let (score, foundKeywords') :=
        scoreKeywords firstPart keywordList 0 foundKeywords in
      if bestScore <? score
      then scanCategories firstPart rest name score foundKeywords'
      else scanCategories firstPart rest bestCategory bestScore foundKeywords'
  end.

Record analysis : Type := Analysis {
  category : jsstring;
  confidence : number;
  keywords : list jsstring
}.

(** [readFile] is the outcome of reading the file: its content, or [None]
    when the read is rejected.  The quotient [bestScore / 3] is the exact
    one. *)
Definition analyzeMarkdownContent (readFile : option jsstring) : analysis :=
  match readFile with
  | Some content =>
      let firstPart := toLowerCase (slice0 content 2000) in
      match scanCategories firstPart categories (str "General") 0 [] with
      | (bestCategory, bestScore, foundKeywords) =>
          Analysis bestCategory (Qmin (ofNat bestScore / 3) 1) foundKeywords
      end
  | None => Analysis (str "General") 0 []
  end.

(** The keywords of a list that the text includes, and their number: the
    score of a category. *)
Definition hits (firstPart : jsstring) (keywordList : list jsstring)
    : list jsstring :=
  filter (includes firstPart) keywordList.

Definition scoreOf (firstPart : jsstring) (entry : jsstring * list jsstring)
    : nat :=
  length (hits firstPart (snd entry)).

(* ================================================================== *)
(** ** The Markdown file of a PDF: [checkMdExists] and [convertPdfToMd] *)

(** [[^a-zA-Z0-9]] *)
Definition notAlnum (c : ascii) : bool := negb (isAlpha c || isDigit c).

(** "/[^a-zA-Z0-9]/g" *)
Definition re_not_alnum : regex := Cls notAlnum.

Definition underscore : ascii := "_"%char.

(** [basename.replace(/\s+/g, '_')] *)
Definition spacedName (basename : jsstring) : jsstring :=
  replace_all re_spaces [Lit (str "_")] basename.

(** [basename.replace(/[^a-zA-Z0-9]/g, '_')] *)
Definition safeName (basename : jsstring) : jsstring :=
  replace_all re_not_alnum [Lit (str "_")] basename.

Section MdPaths.

(** [path.dirname], [path.basename] with its extension argument and
    [path.join] of two segments; [access p] tells whether [fs.access p]
    is fulfilled. *)
Variable dirname : jsstring -> jsstring.
Variable basename : jsstring -> jsstring -> jsstring.
Variable pathJoin : jsstring -> jsstring -> jsstring.
Variable access : jsstring -> bool.

Definition possibleMdPaths (pdfPath : jsstring) : list jsstring :=
  let dir := dirname pdfPath in
  let base := basename pdfPath (str ".pdf") in
  [ pathJoin dir (base ++ str ".md");
    pathJoin dir (spacedName base ++ str ".md");
    pathJoin dir (safeName base ++ str ".md") ].

(** The loop returns true at the first path that can be accessed. *)
Definition checkMdExists (pdfPath : jsstring) : bool :=
  existsb access (possibleMdPaths pdfPath).

(** The path [mdPath] that [convertPdfToMd] asks the conversion to write. *)
Definition mdPathOf (pdfPath : jsstring) : jsstring :=
  let dir := dirname pdfPath in
  let base := basename pdfPath (str ".pdf") in
  pathJoin dir (safeName base ++ str ".md").

End MdPaths.

(* ================================================================== *)
(** ** White space in the output *)


(* ================================================================== *)
(** ** The line classifier *)


Lemma chr_eqb_eq (a b : ascii) : chr_eqb a b = true <-> a = b.
Proof. apply Ascii.eqb_eq. Qed.

Lemma chr_eqb_neq (a b : ascii) : chr_eqb a b = false <-> a <> b.
Proof. apply Ascii.eqb_neq. Qed.

Lemma matches_pipe_length (s : jsstring) :
  forall fuel b,
    length s < fuel ->
    length (matches_from re_pipe fuel (MState b s [])) = countPipes s.
Proof.
  induction s as [|x s IH]; intros fuel b Hfuel.
  - destruct fuel; [lia|]. reflexivity.
  - destruct fuel as [|fuel]; [simpl in Hfuel; lia|].
    simpl in Hfuel.
    unfold countPipes. cbn [count_occ].
    cbn [matches_from match_here re_pipe rmatch after before].
    destruct (chr_eqb x pipe) eqn:E.
    + apply chr_eqb_eq in E. subst x.
      destruct (ascii_dec pipe pipe) as [_|N]; [|congruence].
      cbn [after length].
      replace (length s <? S (length s)) with true
        by (symmetry; apply Nat.ltb_lt; lia).
      cbn [length]. f_equal. apply IH. lia.
    + apply chr_eqb_neq in E.
      destruct (ascii_dec x pipe) as [Y|_]; [congruence|].
      cbn [advance after before]. apply IH. lia.
Qed.

Lemma isTableLine_countPipes (line : jsstring) :
  isTableLine line = (2 <=? countPipes line).
Proof.
  unfold isTableLine, match_all.
  pose proof (matches_pipe_length line (S (length line)) [] (Nat.lt_succ_diag_r _)) as H.
  unfold start_state.
  destruct (matches_from re_pipe (S (length line)) (MState [] line [])) as [|m ms] eqn:E;
    now rewrite <- H.
Qed.

(** C5. The classifier gives a table verdict exactly for the lines that
    contain at least two pipe characters. *)
Theorem isTableLine_iff_two_pipes (line : jsstring) :
  isTableLine line = true <-> 2 <= countPipes line.
Proof.
  unfold isTableLine, match_all.
  pose proof (matches_pipe_length line (S (length line)) [] (Nat.lt_succ_diag_r _)) as H.
  unfold start_state.
  destruct (matches_from re_pipe (S (length line)) (MState [] line [])) as [|m ms] eqn:E.
  - cbn [length] in *. rewrite <- H. split; [discriminate|lia].
  - rewrite <- H. apply Nat.leb_le.
Qed.

(* ================================================================== *)
(** ** The region scan *)

Section ScanFacts.

Lemma scanLines_runs (lines : list jsstring) :
  forall st i,
    scan_consistent st ->
    closedAt (scanLines st i lines) (i + length lines) =
    tableRegions st ++ runs (currentTableStart st) i (map isTableLine lines).
Proof.
  induction lines as [|line lines IH]; intros [inT cur regs] i Hc;
    unfold scan_consistent in Hc; cbn in Hc.
  - cbn. unfold closedAt; cbn. rewrite Nat.add_0_r.
    destruct cur; subst inT; cbn; [reflexivity | now rewrite app_nil_r].
  - cbn [scanLines map runs length].
    replace (i + S (length lines)) with (S i + length lines) by lia.
    unfold scanStep; cbn [inTable currentTableStart tableRegions].
    destruct (isTableLine line) eqn:V, cur as [s|]; subst inT; cbn [negb andb].
    + rewrite IH by reflexivity. reflexivity.
    + rewrite IH by reflexivity. reflexivity.
    + rewrite IH by reflexivity. cbn. now rewrite <- app_assoc.
    + rewrite IH by reflexivity. reflexivity.
Qed.

Lemma findTableRegions_runs (lines : list jsstring) :
  findTableRegions lines = runs None 0 (map isTableLine lines).
Proof.
  pose proof (scanLines_runs lines (Scan false None []) 0 eq_refl) as H.
  cbn in H. exact H.
Qed.

End ScanFacts.

Section RunsFacts.

Lemma runs_props (verdicts : list bool) :
  forall open i,
    (forall s, open = Some s -> s < i) ->
    Forall (fun r => lowest open i <= fst r /\ fst r <= snd r /\
                     snd r < i + length verdicts)
           (runs open i verdicts) /\
    StronglySorted apart (runs open i verdicts) /\
    (forall j,
       (exists r, In r (runs open i verdicts) /\ inRegion r j) <->
       ((exists s, open = Some s /\ s <= j < i) \/
        (i <= j /\ nth_error verdicts (j - i) = Some true))).
Proof.
  induction verdicts as [|v vs IH]; intros open i Hopen.
  - destruct open as [s|]; cbn.
    + specialize (Hopen s eq_refl). repeat split.
      * constructor; [|constructor]. cbn. lia.
      * repeat constructor.
      * intros (r & [<-|[]] & Hr). unfold inRegion in Hr; cbn in Hr.
        left. exists s. split; [reflexivity|lia].
      * intros [(s' & E & Hj)|(_ & Hj)].
        -- injection E as <-. exists (s, i - 1). split; [now left|].
           unfold inRegion; cbn. lia.
        -- destruct (j - i); discriminate.
    + repeat split.
      * constructor.
      * constructor.
      * intros (r & [] & _).
      * intros [(s' & E & _)|(_ & Hj)]; [discriminate|].
        destruct (j - i); discriminate.
  - cbn [runs length].
    destruct open as [s|], v.
    + (* a table line inside a table *)
      specialize (Hopen s eq_refl).
      destruct (IH (Some s) (S i)) as (F & S' & C).
      { intros s' E. injection E as <-. lia. }
      repeat split.
      * eapply Forall_impl; [|exact F]. cbn. intros r H; lia.
      * exact S'.
      * intros H. apply C in H. destruct H as [(s' & E & Hj)|(Hj & N)].
        -- injection E as <-.
           destruct (Nat.eq_dec j i) as [->|].
           ++ right. split; [lia|]. now rewrite Nat.sub_diag.
           ++ left. exists s. split; [reflexivity|lia].
        -- right. split; [lia|].
           replace (j - i) with (S (j - S i)) by lia. exact N.
      * intros H. apply C. destruct H as [(s' & E & Hj)|(Hj & N)].
        -- left. exists s'. split; [exact E|lia].
        -- destruct (Nat.eq_dec j i) as [->|].
           ++ left. exists s. split; [reflexivity|lia].
           ++ right. split; [lia|].
              replace (j - i) with (S (j - S i)) in N by lia. exact N.
    + (* the first line after a table *)
      specialize (Hopen s eq_refl).
      destruct (IH None (S i)) as (F & S' & C); [discriminate|].
      repeat split.
      * constructor.
        -- cbn. lia.
        -- eapply Forall_impl; [|exact F]. cbn. intros r H; lia.
      * constructor; [exact S'|].
        eapply Forall_impl; [|exact F]. unfold apart; cbn. intros r H; lia.
      * intros (r & [<-|Hin] & Hr).
        -- unfold inRegion in Hr; cbn in Hr. left. exists s. split; [reflexivity|lia].
        -- assert (exists r, In r (runs None (S i) vs) /\ inRegion r j) as H
             by (exists r; auto).
           apply C in H. destruct H as [(s' & E & _)|(Hj & N)]; [discriminate|].
           right. split; [lia|].
           replace (j - i) with (S (j - S i)) by lia. exact N.
      * intros [(s' & E & Hj)|(Hj & N)].
        -- injection E as <-. exists (s, i - 1). split; [now left|].
           unfold inRegion; cbn. lia.
        -- destruct (Nat.eq_dec j i) as [->|].
           { rewrite Nat.sub_diag in N. discriminate. }
           destruct (proj2 (C j)) as (r & Hin & Hr).
           { right. split; [lia|].
             replace (j - i) with (S (j - S i)) in N by lia. exact N. }
           exists r. split; [now right|exact Hr].
    + (* a table opens *)
      destruct (IH (Some i) (S i)) as (F & S' & C).
      { intros s' E. injection E as <-. lia. }
      repeat split.
      * eapply Forall_impl; [|exact F]. cbn. intros r H; lia.
      * exact S'.
      * intros H. apply C in H. destruct H as [(s' & E & Hj)|(Hj & N)].
        -- injection E as <-. assert (j = i) as -> by lia.
           right. split; [lia|]. now rewrite Nat.sub_diag.
        -- right. split; [lia|].
           replace (j - i) with (S (j - S i)) by lia. exact N.
      * intros [(s' & E & _)|(Hj & N)]; [discriminate|].
        apply C. destruct (Nat.eq_dec j i) as [->|].
        -- left. exists i. split; [reflexivity|lia].
        -- right. split; [lia|].
           replace (j - i) with (S (j - S i)) in N by lia. exact N.
    + (* a line outside tables *)
      destruct (IH None (S i)) as (F & S' & C); [discriminate|].
      repeat split.
      * eapply Forall_impl; [|exact F]. cbn. intros r H; lia.
      * exact S'.
      * intros H. apply C in H. destruct H as [(s' & E & _)|(Hj & N)]; [discriminate|].
        right. split; [lia|].
        replace (j - i) with (S (j - S i)) by lia. exact N.
      * intros [(s' & E & _)|(Hj & N)]; [discriminate|].
        apply C. destruct (Nat.eq_dec j i) as [->|].
        { rewrite Nat.sub_diag in N. discriminate. }
        right. split; [lia|].
        replace (j - i) with (S (j - S i)) in N by lia. exact N.
Qed.

End RunsFacts.

(* ================================================================== *)
(** ** The second loop *)

Lemma indexed_cons (i : nat) (line : jsstring) (lines : list jsstring) :
  indexed i (line :: lines) = (i, line) :: indexed (S i) lines.
Proof. reflexivity. Qed.

Lemma indexed_length (i : nat) (lines : list jsstring) :
  length (indexed i lines) = length lines.
Proof.
  unfold indexed. rewrite length_combine, length_seq. apply Nat.min_id.
Qed.

Lemma indexed_app (lines more : list jsstring) :
  forall i,
    indexed i (lines ++ more) = indexed i lines ++ indexed (i + length lines) more.
Proof.
  induction lines as [|l lines IH]; intros i.
  - cbn. now rewrite Nat.add_0_r.
  - cbn [app length]. rewrite !indexed_cons, IH, <- app_comm_cons.
    rewrite Nat.add_succ_r. reflexivity.
Qed.

Lemma map_snd_indexed (i : nat) (lines : list jsstring) :
  map snd (indexed i lines) = lines.
Proof.
  revert i. induction lines as [|l lines IH]; intros i; [reflexivity|].
  rewrite indexed_cons. cbn. now rewrite IH.
Qed.

Lemma map_fst_indexed (i : nat) (lines : list jsstring) :
  map fst (indexed i lines) = seq i (length lines).
Proof.
  revert i. induction lines as [|l lines IH]; intros i; [reflexivity|].
  rewrite indexed_cons. cbn. now rewrite IH.
Qed.

Lemma readLines_middle (b : list jsstring) :
  forall a c, readLines (a ++ b ++ c) (seq (length a) (length b))
              = Some (indexed (length a) b).
Proof.
  induction b as [|x b IH]; intros a c; [reflexivity|].
  cbn [length seq readLines].
  rewrite nth_error_app2 by lia. rewrite Nat.sub_diag. cbn [app nth_error].
  specialize (IH (a ++ [x]) c).
  rewrite <- app_assoc, length_app in IH. cbn [app length] in IH.
  rewrite Nat.add_1_r in IH. rewrite IH. reflexivity.
Qed.

Lemma readLines_slice (lines a b c : list jsstring) (n m : nat) :
  lines = a ++ b ++ c -> n = length a -> m = length b ->
  readLines lines (seq n m) = Some (indexed n b).
Proof. intros -> -> ->. apply readLines_middle. Qed.

Section AssembleFacts.

Context {B : Type}.
Variable onProse : nat -> jsstring -> B.
Variable onTable : list (nat * jsstring) -> list B.

Local Abbreviation proseOf ls := (map (fun il => onProse (fst il) (snd il)) ls).

Lemma pushProse_slice (lines a b c : list jsstring) (from to : nat)
    (cleanedLines : list B) :
  lines = a ++ b ++ c -> from = length a -> to = length a + length b ->
  pushProse onProse lines from to cleanedLines
  = Some (cleanedLines ++ proseOf (indexed from b)).
Proof.
  intros Hl Hf Ht. unfold pushProse.
  rewrite (readLines_slice lines a b c from (to - from) Hl Hf) by lia.
  reflexivity.
Qed.

(** The loop over the regions of [runs], resumed at any point of the
    document: [gap] are the lines outside tables not yet emitted, [run]
    the lines of the table under way. *)
Lemma assembleRegions_blocks (rest : list jsstring) :
  (forall lines done gap cleanedLines,
     lines = done ++ gap ++ rest ->
     assembleRegions onProse onTable lines
       (runs None (length done + length gap) (map isTableLine rest))
       (length done) cleanedLines
     = Some (cleanedLines ++ proseOf (indexed (length done) gap)
             ++ blocks onProse onTable (length done + length gap) rest []))
  /\
  (forall lines done gap run cleanedLines,
     lines = done ++ gap ++ run ++ rest -> run <> [] ->
     assembleRegions onProse onTable lines
       (runs (Some (length done + length gap))
             (length done + length gap + length run) (map isTableLine rest))
       (length done) cleanedLines
     = Some (cleanedLines ++ proseOf (indexed (length done) gap)
             ++ blocks onProse onTable (length done + length gap + length run) rest
                  (rev (indexed (length done + length gap) run)))).
Proof.
  induction rest as [|line rest [IHout IHin]]; split.
  - intros lines done gap cleanedLines Hl. cbn [map runs assembleRegions blocks flush].
    rewrite (pushProse_slice lines done gap [] (length done) (length lines) cleanedLines Hl eq_refl).
    + now rewrite app_nil_r.
    + subst lines. rewrite !length_app. cbn. lia.
  - intros lines done gap run cleanedLines Hl Hrun.
    cbn [map runs assembleRegions blocks].
    rewrite (pushProse_slice lines done gap (run ++ []) (length done)
               (length done + length gap) cleanedLines Hl eq_refl eq_refl).
    assert (length run <> 0) as Hn by (destruct run; [congruence|discriminate]).
    rewrite (readLines_slice lines (done ++ gap) run [] (length done + length gap)).
    2:{ rewrite Hl. now rewrite <- app_assoc. }
    2:{ now rewrite length_app. }
    2:{ lia. }
    cbn [assembleRegions].
    rewrite (pushProse_slice lines (done ++ gap ++ run) [] [] _ (length lines)).
    2:{ rewrite Hl. now rewrite <- !app_assoc. }
    2:{ rewrite !length_app. lia. }
    2:{ rewrite Hl. rewrite !length_app. cbn. lia. }
    cbn [indexed length seq combine map]. rewrite app_nil_r.
    rewrite <- app_assoc. do 3 f_equal.
    unfold flush.
    destruct (rev (indexed (length done + length gap) run)) eqn:E.
    + apply (f_equal (@length _)) in E. rewrite length_rev, indexed_length in E.
      cbn in E. congruence.
    + rewrite <- E. now rewrite rev_involutive.
  - intros lines done gap cleanedLines Hl.
    cbn [map runs blocks].
    destruct (isTableLine line) eqn:V.
    + specialize (IHin lines done gap [line] cleanedLines Hl).
      cbn [length] in IHin. rewrite Nat.add_1_r in IHin.
      rewrite IHin by discriminate. reflexivity.
    + specialize (IHout lines done (gap ++ [line]) cleanedLines).
      rewrite length_app in IHout. cbn [length] in IHout.
      rewrite Nat.add_assoc, Nat.add_1_r in IHout.
      rewrite IHout by (rewrite Hl, <- app_assoc; reflexivity).
      rewrite indexed_app, map_app. cbn [flush app].
      rewrite <- app_assoc. reflexivity.
  - intros lines done gap run cleanedLines Hl Hrun.
    cbn [map runs blocks].
    assert (length run <> 0) as Hn by (destruct run; [congruence|discriminate]).
    destruct (isTableLine line) eqn:V.
    + specialize (IHin lines done gap (run ++ [line]) cleanedLines).
      rewrite length_app in IHin. cbn [length] in IHin.
      rewrite Nat.add_assoc, Nat.add_1_r in IHin.
      rewrite IHin.
      * rewrite indexed_app, rev_app_distr. reflexivity.
      * rewrite Hl, <- app_assoc. reflexivity.
      * destruct run; discriminate.
    + cbn [assembleRegions].
      rewrite (pushProse_slice lines done gap (run ++ line :: rest) (length done)
                 (length done + length gap) cleanedLines Hl eq_refl eq_refl).
      rewrite (readLines_slice lines (done ++ gap) run (line :: rest)
                 (length done + length gap)).
      2:{ rewrite Hl. now rewrite <- app_assoc. }
      2:{ now rewrite length_app. }
      2:{ lia. }
      specialize (IHout lines (done ++ gap ++ run) [line]).
      rewrite !length_app in IHout. cbn [length] in IHout.
      replace (length done + (length gap + length run) + 1)
        with (S (length done + length gap + length run)) in IHout by lia.
      replace (length done + (length gap + length run))
        with (length done + length gap + length run) in IHout by lia.
      replace (length done + length gap + length run - 1 + 1)
        with (length done + length gap + length run) by lia.
      rewrite IHout by (rewrite Hl, <- !app_assoc; reflexivity).
      rewrite <- !app_assoc. do 3 f_equal.
      unfold flush.
      destruct (rev (indexed (length done + length gap) run)) eqn:E.
      * apply (f_equal (@length _)) in E. rewrite length_rev, indexed_length in E.
        cbn in E. congruence.
      * rewrite <- E. rewrite rev_involutive. reflexivity.
Qed.

(** The second loop emits what one pass over the lines emits. *)
Lemma assemble_blocks (lines : list jsstring) :
  assemble onProse onTable lines = Some (blocks onProse onTable 0 lines []).
Proof.
  unfold assemble. rewrite findTableRegions_runs.
  destruct (assembleRegions_blocks lines) as [H _].
  apply (H lines [] [] []). reflexivity.
Qed.

End AssembleFacts.

Lemma blocks_trace (lines : list jsstring) :
  forall i pending,
    blocks traceProse traceTable i lines pending
    = map (fun il => (fst il, TableBranch)) (rev pending)
      ++ map (fun il => (fst il, branchOf (snd il))) (indexed i lines).
Proof.
  induction lines as [|line lines IH]; intros i pending.
  - cbn. rewrite app_nil_r. destruct pending; reflexivity.
  - cbn [blocks]. rewrite indexed_cons. cbn [map fst snd].
    destruct (isTableLine line) eqn:V.
    + assert (branchOf line = TableBranch) as -> by (unfold branchOf; now rewrite V).
      rewrite IH. cbn [rev]. rewrite map_app, <- app_assoc. reflexivity.
    + assert (branchOf line = ProseBranch) as -> by (unfold branchOf; now rewrite V).
      rewrite IH. cbn [rev map app]. f_equal.
      destruct pending; reflexivity.
Qed.

Lemma StronglySorted_apart_cases (regions : list (nat * nat)) :
  StronglySorted apart regions ->
  forall r1 r2, In r1 regions -> In r2 regions ->
    r1 = r2 \/ apart r1 r2 \/ apart r2 r1.
Proof.
  induction 1 as [|a l Hs IH Hall]; intros r1 r2 H1 H2; [destruct H1|].
  rewrite Forall_forall in Hall.
  destruct H1 as [<-|H1], H2 as [<-|H2]; auto.
Qed.

(** C2. The regions found by the first loop are ranges of line indices in
    document order, pairwise disjoint and separated by at least one line;
    a line lies in a region exactly when its verdict is table, so that the
    regions are the maximal runs of table lines and the lines between them
    are the lines outside tables; and the second loop emits every line
    index once, in order, through the branch its verdict selects. *)
Theorem regions_partition_document (lines : list jsstring) :
  let regions := findTableRegions lines in
  Forall (fun r => fst r <= snd r /\ snd r < length lines) regions /\
  StronglySorted apart regions /\
  (forall i line, nth_error lines i = Some line ->
     (isTableLine line = true <-> exists r, In r regions /\ inRegion r i)) /\
  (forall r line, In r regions ->
     (nth_error lines (snd r + 1) = Some line -> isTableLine line = false) /\
     (0 < fst r -> nth_error lines (fst r - 1) = Some line ->
      isTableLine line = false)) /\
  assemble traceProse traceTable lines
  = Some (map (fun il => (fst il, branchOf (snd il))) (indexed 0 lines)).
Proof.
  intros regions. subst regions. rewrite findTableRegions_runs.
  destruct (runs_props (map isTableLine lines) None 0) as (F & S' & C);
    [discriminate|].
  rewrite length_map in F.
  assert (forall i line, nth_error lines i = Some line ->
     (isTableLine line = true <->
      exists r, In r (runs None 0 (map isTableLine lines)) /\ inRegion r i)) as Cov.
  { intros i line Hi. rewrite C. rewrite Nat.sub_0_r, nth_error_map, Hi. cbn.
    split.
    - intros ->. right. split; [lia|reflexivity].
    - intros [(s & E & _)|(_ & E)]; [discriminate|congruence]. }
  repeat split.
  - eapply Forall_impl; [|exact F]. cbn. intros r H; lia.
  - exact S'.
  - apply Cov; assumption.
  - apply Cov; assumption.
  - intros Hline. destruct (isTableLine line) eqn:V; [|reflexivity]. exfalso.
    apply (proj1 (Cov _ _ Hline)) in V. destruct V as (r' & Hin' & Hr').
    rewrite Forall_forall in F. pose proof (F r H) as Fr. pose proof (F r' Hin') as Fr'.
    unfold inRegion in Hr'. cbn in Fr, Fr'.
    destruct (StronglySorted_apart_cases _ S' r r' H Hin') as [<-|[A|A]];
      unfold apart in *; lia.
  - intros Hpos Hline. destruct (isTableLine line) eqn:V; [|reflexivity]. exfalso.
    apply (proj1 (Cov _ _ Hline)) in V. destruct V as (r' & Hin' & Hr').
    rewrite Forall_forall in F. pose proof (F r H) as Fr. pose proof (F r' Hin') as Fr'.
    unfold inRegion in Hr'. cbn in Fr, Fr'.
    destruct (StronglySorted_apart_cases _ S' r r' H Hin') as [<-|[A|A]];
      unfold apart in *; lia.
  - rewrite assemble_blocks, blocks_trace. reflexivity.
Qed.

(* ================================================================== *)
(** ** Regions from which no row is parsed *)

Lemma pushRow_separatorLike (rows : list (list jsstring)) (line : jsstring) :
  separatorLike line = true -> pushRow rows line = rows.
Proof.
  unfold separatorLike, pushRow. intros H.
  destruct (truthy (trim line)); [|reflexivity].
  cbn [negb orb] in H. rewrite H. reflexivity.
Qed.

Lemma fold_pushRow_separatorLike (tableLines : list jsstring) :
  Forall (fun line => separatorLike line = true) tableLines ->
  forall rows, fold_left pushRow tableLines rows = rows.
Proof.
  induction 1 as [|line ls Hline _ IH]; intros rows; [reflexivity|].
  cbn [fold_left]. rewrite pushRow_separatorLike by assumption. apply IH.
Qed.

Lemma parseRows_separatorLike (tableLines : list jsstring) :
  Forall (fun line => separatorLike line = true) tableLines ->
  parseRows tableLines = [].
Proof. intros H. apply fold_pushRow_separatorLike, H. Qed.

(** C10. A table region of two or more lines whose cleaned lines are all
    blank or separator lines is emitted as its cleaned lines: nothing is
    reformatted, no separator is added, the separator lines of the input
    stay. *)
Theorem separator_only_region_kept (region : list (nat * jsstring)) :
  2 <= length region ->
  Forall (fun il => separatorLike (cleanTableLine (snd il)) = true) region ->
  parseRows (map (fun il => cleanTableLine (snd il)) region) = [] /\
  tableBranch region = map (fun il => cleanTableLine (snd il)) region.
Proof.
  intros Hlen Hsep.
  assert (parseRows (map (fun il => cleanTableLine (snd il)) region) = []) as Hrows.
  { apply parseRows_separatorLike. rewrite Forall_map. exact Hsep. }
  split; [exact Hrows|].
  unfold tableBranch, formatTableRegion. rewrite Hrows. cbn [length Nat.eqb].
  destruct (_ <? 2); reflexivity.
Qed.

Lemma separator_only_region_kept_witness :
  tableBranch [(0, str "|---|---|"); (1, str "| - | - |"); (2, str "||")]
  = [str "| --- | --- |"; str "| - | - |"; str "|  |"].
Proof.
  apply (separator_only_region_kept
           [(0, str "|---|---|"); (1, str "| - | - |"); (2, str "||")]).
  - cbn. lia.
  - repeat constructor.
Defined.

(* ================================================================== *)
(** ** The entry point *)




(* ================================================================== *)
(** ** Evaluations of the code at concrete inputs *)

(** C8. The line break inside a URL is gone before the repair of broken
    URLs looks for it: the line cleaning has put a space in its place, and
    the two halves stay apart.  On the raw text the repair alone would have
    joined them. *)
Theorem broken_url_keeps_space :
  improvedCleanMarkerOutput (str "Visit https://example.com/docs/<br>guide.html now")
  = Some (str "Visit https://example.com/docs/ guide.html now") /\
  applyGlobalCleanups (str "Visit https://example.com/docs/<br>guide.html now")
  = str "Visit https://example.com/docs/guide.html now".
Proof. split; vm_compute; reflexivity. Qed.

(** C1. A cell of 30 characters in a column of width 24: the word loop
    takes two words and the space between them, 22 characters, the
    ellipsis makes 25, and the row is one character longer than the
    separator and the other row. *)
Theorem truncated_cell_overflows :
  let line1 := str "| aaaaaaaaaa bbbbbbbbbbb ccccccc |" in
  let line2 := str "| x |" in
  let cell := str "aaaaaaaaaa bbbbbbbbbbb ccccccc" in
  parseRows (map cleanTableLine [line1; line2]) = [[cell]; [str "x"]] /\
  columnWidthsOf [[cell]; [str "x"]] = [24%Q] /\
  formatCell cell 24 = str "aaaaaaaaaa bbbbbbbbbbb..." /\
  length (formatCell cell 24) = 25 /\
  improvedCleanMarkerOutput (document [line1; line2])
  = Some (document [str "| aaaaaaaaaa bbbbbbbbbbb... |";
                    str "| ------------------------ |";
                    str "| x                        |"]).
Proof. repeat split; vm_compute; reflexivity. Qed.

(** C6. Two cells of 61 and 20 characters in one column: the mean 40.5 is
    taken as the width, which is not an integer. *)
Theorem fractional_column_width :
  let line1 := str "| " ++ repeat1 "a" 61 ++ str " |" in
  let line2 := str "| " ++ repeat1 "b" 20 ++ str " |" in
  columnWidthsOf (parseRows (map cleanTableLine [line1; line2])) = [81 # 2] /\
  ~ isInteger (81 # 2).
Proof.
  split; [vm_compute; reflexivity|].
  intros [z H]. unfold Qeq in H. cbn in H. lia.
Qed.

(* ================================================================== *)
(** ** The column widths *)

Lemma sumLengths_list_sum (xs : list nat) : sumLengths xs = list_sum xs.
Proof.
  unfold sumLengths.
  assert (forall a, fold_left Nat.add xs a = a + list_sum xs) as H.
  { induction xs as [|x xs IH]; intros a.
    - cbn. lia.
    - cbn [fold_left]. rewrite IH.
      change (list_sum (x :: xs)) with (x + list_sum xs). lia. }
  apply (H 0).
Qed.

Lemma cellLengths_filter (rows : list (list jsstring)) (col : nat) :
  cellLengths rows col = map (@length ascii) (filter truthy (cellsAt rows col)).
Proof.
  unfold cellLengths, cellsAt.
  induction rows as [|row rows IH]; [reflexivity|].
  cbn [flat_map]. rewrite filter_app, map_app, IH. f_equal.
  destruct (nth_error row col) as [cell|]; [|reflexivity].
  cbn. destruct (truthy cell); reflexivity.
Qed.

Lemma floor_four_fifths (m : nat) :
  mathFloor (ofNat m * (8 # 10)) = inject_Z (4 * Z.of_nat m / 5).
Proof.
  unfold mathFloor, ofNat. f_equal.
  unfold Qfloor, Qmult, inject_Z. cbn [Qnum Qden].
  change (Z.pos (1 * 10)) with (2 * 5)%Z.
  replace (Z.of_nat m * 8)%Z with (2 * (4 * Z.of_nat m))%Z by lia.
  rewrite Z.div_mul_cancel_l by lia. reflexivity.
Qed.

Lemma columnWidth_tierWidth (rows : list (list jsstring)) (col : nat) :
  columnWidth rows col = tierWidth (cellLengths rows col).
Proof.
  unfold columnWidth, tierWidth.
  destruct (cellLengths rows col) as [|n lens] eqn:E; [reflexivity|].
  cbn [length Nat.ltb Nat.leb].
  rewrite sumLengths_list_sum, floor_four_fifths. reflexivity.
Qed.

Lemma columnWidthsOf_length (rows : list (list jsstring)) :
  length (columnWidthsOf rows) = maxColumnsOf rows.
Proof. unfold columnWidthsOf. now rewrite length_map, length_seq. Qed.

Lemma columnWidthsOf_nth (rows : list (list jsstring)) (col : nat) :
  col < maxColumnsOf rows ->
  nth_error (columnWidthsOf rows) col = Some (columnWidth rows col).
Proof.
  intros H. unfold columnWidthsOf.
  rewrite nth_error_map, nth_error_seq.
  apply Nat.ltb_lt in H. rewrite H. reflexivity.
Qed.

(** C3, as the code has it. The planned width of a column is the width the
    three tiers give for the lengths of the cells of the column that are
    not empty: an empty cell counts like an absent one, for the mean as
    for the maximum. *)
Theorem columnWidth_by_tier (rows : list (list jsstring)) (col : nat) :
  col < maxColumnsOf rows ->
  let lens := map (@length ascii) (filter truthy (cellsAt rows col)) in
  let max := list_max lens in
  let avg := (ofNat (list_sum lens) / ofNat (length lens))%Q in
  exists width,
    nth_error (columnWidthsOf rows) col = Some width /\
    (lens = [] -> width = 8%Q) /\
    (lens <> [] -> max <= 25 -> width = Qmax (ofNat max) 8) /\
    (lens <> [] -> 25 < max <= 60 ->
     width = Qmax (Qmin (inject_Z (4 * Z.of_nat max / 5)) (avg + 10)) 15) /\
    (lens <> [] -> 60 < max -> width = Qmin 50 (Qmax 30 avg)).
Proof.
  intros Hcol lens max avg.
  exists (columnWidth rows col). split; [now apply columnWidthsOf_nth|].
  rewrite columnWidth_tierWidth, cellLengths_filter.
  fold lens. unfold tierWidth.
  destruct lens as [|n lens'] eqn:E; [repeat split; intros; congruence|].
  fold max avg.
  repeat split; try discriminate; intros _ H.
  - apply Nat.leb_le in H. now rewrite H.
  - destruct H as [H1 H2].
    apply Nat.leb_gt in H1. apply Nat.leb_le in H2. now rewrite H1, H2.
  - assert ((max <=? 25) = false) as -> by (apply Nat.leb_gt; lia).
    assert ((max <=? 60) = false) as -> by (apply Nat.leb_gt; lia).
    reflexivity.
Qed.

Lemma columnWidth_by_tier_witness :
  exists width,
    nth_error (columnWidthsOf [[[]; str "x"]; [repeat1 "b" 40; str "y"]]) 0
    = Some width /\ width = 32%Q.
Proof.
  destruct (columnWidth_by_tier [[[]; str "x"]; [repeat1 "b" 40; str "y"]] 0)
    as (width & Hw & _ & _ & Hmid & _).
  - cbn. lia.
  - exists width. split; [exact Hw|].
    rewrite Hmid; [reflexivity|discriminate|cbn; lia].
Defined.

(** C3 as stated fails: with an empty cell and a cell of 40 characters in
    column 0, the mean over both cells is 20 and the stated width is 30;
    the code skips the empty cell, takes the mean 40 and plans 32. *)
Lemma empty_cell_not_averaged :
  let rows := [[[]; str "x"]; [repeat1 "b" 40; str "y"]] in
  parseRows (map cleanTableLine
               [str "| | x |"; str "| " ++ repeat1 "b" 40 ++ str " | y |"])
  = rows /\
  (claimedColumnWidth rows 0 == 30)%Q /\
  nth_error (columnWidthsOf rows) 0 = Some (32%Q) /\
  ~ (32 == 30)%Q.
Proof.
  split; [vm_compute; reflexivity|].
  split; [vm_compute; reflexivity|].
  split; [vm_compute; reflexivity|].
  intros H. unfold Qeq in H. cbn in H. lia.
Qed.

(* ================================================================== *)
(** ** Facts about the matcher *)

Section MatcherFacts.

(** The equations of the matcher. *)
Lemma rmatch_Seq (r1 r2 : regex) (st : mstate) (k : mstate -> option mstate) :
  rmatch (Seq r1 r2) st k = rmatch r1 st (fun st' => rmatch r2 st' k).
Proof. reflexivity. Qed.

Lemma rmatch_Emp (st : mstate) (k : mstate -> option mstate) :
  rmatch Emp st k = k st.
Proof. reflexivity. Qed.

Lemma rmatch_Chr_cons (c x : ascii) (s b : jsstring) (g : list (nat * jsstring))
    (k : mstate -> option mstate) :
  rmatch (Chr c) (MState b (x :: s) g) k
  = if chr_eqb x c then k (MState (x :: b) s g) else None.
Proof. reflexivity. Qed.

Lemma rmatch_Chr_nil (c : ascii) (b : jsstring) (g : list (nat * jsstring))
    (k : mstate -> option mstate) :
  rmatch (Chr c) (MState b [] g) k = None.
Proof. reflexivity. Qed.

Lemma rmatch_Cls_cons (p : ascii -> bool) (x : ascii) (s b : jsstring)
    (g : list (nat * jsstring)) (k : mstate -> option mstate) :
  rmatch (Cls p) (MState b (x :: s) g) k
  = if p x then k (MState (x :: b) s g) else None.
Proof. reflexivity. Qed.

Lemma rmatch_Cls_nil (p : ascii -> bool) (b : jsstring) (g : list (nat * jsstring))
    (k : mstate -> option mstate) :
  rmatch (Cls p) (MState b [] g) k = None.
Proof. reflexivity. Qed.

Lemma rmatch_Star (r : regex) (st : mstate) (k : mstate -> option mstate) :
  rmatch (Star r) st k = star_loop (rmatch r) (S (length (after st))) st k.
Proof. reflexivity. Qed.

Lemma rmatch_Plus (r : regex) (st : mstate) (k : mstate -> option mstate) :
  rmatch (Plus r) st k
  = rmatch r st (fun st' => star_loop (rmatch r) (S (length (after st'))) st' k).
Proof. reflexivity. Qed.

Lemma rmatch_Bol (m : bool) (st : mstate) (k : mstate -> option mstate) :
  rmatch (Bol m) st k
  = match before st with
    | [] => k st
    | x :: _ => if m && isLineTerminator x then k st else None
    end.
Proof. reflexivity. Qed.

Lemma rmatch_Eol (m : bool) (st : mstate) (k : mstate -> option mstate) :
  rmatch (Eol m) st k
  = match after st with
    | [] => k st
    | x :: _ => if m && isLineTerminator x then k st else None
    end.
Proof. reflexivity. Qed.

Lemma rmatch_Opt (r : regex) (st : mstate) (k : mstate -> option mstate) :
  rmatch (Opt r) st k = orElse (rmatch r st k) (k st).
Proof. reflexivity. Qed.

(** A success of the matcher is a success of its continuation at a
    position further right in the same string; the code units between the
    two positions contain every code unit that the pattern requires. *)
Lemma star_loop_consumes
    (step : mstate -> (mstate -> option mstate) -> option mstate) :
  (forall st k x, step st k = Some x ->
     exists st' u, after st = u ++ after st' /\
                   before st' = rev u ++ before st /\ k st' = Some x) ->
  forall fuel st k x,
    star_loop step fuel st k = Some x ->
    exists st' u, after st = u ++ after st' /\
                  before st' = rev u ++ before st /\ k st' = Some x.
Proof.
  intros Hstep. induction fuel as [|fuel IH]; intros st k x H; cbn [star_loop] in H.
  - exists st, []. auto.
  - unfold orElse in H.
    destruct (step st _) as [y|] eqn:E.
    + injection H as ->.
      apply Hstep in E. destruct E as (st1 & u1 & Ha & Hb & Hk).
      destruct (length (after st1) <? length (after st)); [|discriminate].
      apply IH in Hk. destruct Hk as (st2 & u2 & Ha2 & Hb2 & Hk2).
      exists st2, (u1 ++ u2). repeat split.
      * now rewrite Ha, Ha2, app_assoc.
      * now rewrite Hb2, Hb, rev_app_distr, app_assoc.
      * exact Hk2.
    + exists st, []. auto.
Qed.

Lemma rmatch_consumes (c : ascii) (r : regex) :
  forall st k x,
    rmatch r st k = Some x ->
    exists st' u, after st = u ++ after st' /\
                  before st' = rev u ++ before st /\ k st' = Some x /\
                  (requires c r = true -> In c u).
Proof.
  induction r as [|a|p|r1 IH1 r2 IH2|r1 IH1|r1 IH1|r1 IH1|n r1 IH1|m|m|p|r1 IH1];
    intros st k x H; cbn [rmatch] in H; cbn [requires].
  - exists st, []. repeat split; auto; discriminate.
  - destruct (after st) as [|y s'] eqn:E; [discriminate|].
    destruct (chr_eqb y a) eqn:Ey; [|discriminate].
    exists (MState (y :: before st) s' (groups st)), [y]. cbn.
    repeat split; auto. intros Hc. left.
    apply Ascii.eqb_eq in Ey, Hc. congruence.
  - destruct (after st) as [|y s'] eqn:E; [discriminate|].
    destruct (p y); [|discriminate].
    exists (MState (y :: before st) s' (groups st)), [y]. cbn.
    repeat split; auto; discriminate.
  - apply IH1 in H. destruct H as (st1 & u1 & Ha1 & Hb1 & H & Hc1).
    apply IH2 in H. destruct H as (st2 & u2 & Ha2 & Hb2 & H & Hc2).
    exists st2, (u1 ++ u2). repeat split.
    + now rewrite Ha1, Ha2, app_assoc.
    + now rewrite Hb2, Hb1, rev_app_distr, app_assoc.
    + exact H.
    + intros Hc. apply in_or_app. apply orb_true_iff in Hc. tauto.
  - unfold orElse in H. destruct (rmatch r1 st k) as [y|] eqn:E.
    + injection H as ->. apply IH1 in E.
      destruct E as (st1 & u1 & Ha1 & Hb1 & H & _).
      exists st1, u1. repeat split; auto; discriminate.
    + exists st, []. repeat split; auto; discriminate.
  - apply star_loop_consumes in H.
    + destruct H as (st1 & u1 & Ha1 & Hb1 & H).
      exists st1, u1. repeat split; auto; discriminate.
    + intros st0 k0 x0 H0. apply IH1 in H0.
      destruct H0 as (st1 & u1 & Ha1 & Hb1 & H0 & _). eauto.
  - apply IH1 in H. destruct H as (st1 & u1 & Ha1 & Hb1 & H & Hc1).
    apply star_loop_consumes in H.
    + destruct H as (st2 & u2 & Ha2 & Hb2 & H).
      exists st2, (u1 ++ u2). repeat split.
      * now rewrite Ha1, Ha2, app_assoc.
      * now rewrite Hb2, Hb1, rev_app_distr, app_assoc.
      * exact H.
      * intros Hc. apply in_or_app. auto.
    + intros st0 k0 x0 H0. apply IH1 in H0.
      destruct H0 as (st3 & u3 & Ha3 & Hb3 & H0 & _). eauto.
  - apply IH1 in H. destruct H as (st1 & u1 & Ha1 & Hb1 & H & Hc1).
    eexists (MState (before st1) (after st1) _), u1. cbn.
    repeat split; eauto.
  - exists st, []. destruct (before st) as [|y b'].
    + repeat split; auto; discriminate.
    + destruct (m && isLineTerminator y); [|discriminate].
      repeat split; auto; discriminate.
  - exists st, []. destruct (after st) as [|y b'].
    + repeat split; auto; discriminate.
    + destruct (m && isLineTerminator y); [|discriminate].
      repeat split; auto; discriminate.
  - exists st, []. destruct (before st) as [|y b']; [discriminate|].
    destruct (p y); [|discriminate].
    repeat split; auto; discriminate.
  - exists st, []. destruct (rmatch r1 st Some); [|discriminate].
    repeat split; auto; discriminate.
Qed.

(** No match where a required code unit does not occur. *)
Lemma match_here_requires (c : ascii) (r : regex) (st : mstate) :
  requires c r = true -> ~ In c (after st) -> match_here r st = None.
Proof.
  intros Hreq Hnot. unfold match_here.
  destruct (rmatch r _ Some) as [x|] eqn:E; [|reflexivity].
  apply (rmatch_consumes c) in E.
  destruct E as (st' & u & Ha & _ & _ & Hc). cbn in Ha.
  exfalso. apply Hnot. rewrite Ha. apply in_or_app. left. auto.
Qed.

(** A replacement that finds no match returns the string. *)
Lemma replace_from_no_match (r : regex) (tpl : template) (s : jsstring) :
  forall fuel b,
    length s < fuel ->
    (forall b' s', (exists u, s = u ++ s') -> match_here r (MState b' s' []) = None) ->
    replace_from r tpl fuel (MState b s []) = s.
Proof.
  induction s as [|c s IH]; intros fuel b Hfuel Hno;
    (destruct fuel as [|fuel]; [cbn in Hfuel; lia|]); cbn [replace_from].
  - rewrite Hno by (exists []; reflexivity). reflexivity.
  - rewrite Hno by (exists []; reflexivity). cbn [advance after before].
    f_equal. apply IH; [cbn in Hfuel; lia|].
    intros b' s' (u & ->). apply Hno. exists (c :: u). reflexivity.
Qed.

Lemma replace_all_requires (c : ascii) (r : regex) (tpl : template)
    (s : jsstring) :
  requires c r = true -> ~ In c s -> replace_all r tpl s = s.
Proof.
  intros Hreq Hnot. unfold replace_all, start_state.
  apply replace_from_no_match; [lia|].
  intros b' s' (u & ->). apply (match_here_requires c); [exact Hreq|].
  cbn. intros Hin. apply Hnot. apply in_or_app. now right.
Qed.

End MatcherFacts.

Section BacktrackFacts.

Lemma takeWhile_dropWhile (p : ascii -> bool) (s : jsstring) :
  s = takeWhile p s ++ dropWhile p s.
Proof.
  induction s as [|c s IH]; [reflexivity|]. cbn.
  destruct (p c); [|reflexivity]. cbn. now f_equal.
Qed.

Lemma takeWhile_all (p : ascii -> bool) (s : jsstring) :
  Forall (fun c => p c = true) (takeWhile p s).
Proof.
  induction s as [|c s IH]; [constructor|]. cbn.
  destruct (p c) eqn:E; [|constructor]. now constructor.
Qed.

Lemma dropWhile_stops (p : ascii -> bool) (s : jsstring) :
  stopsAt p (dropWhile p s).
Proof.
  induction s as [|c s IH]; [exact I|]. cbn.
  destruct (p c) eqn:E; [exact IH|exact E].
Qed.

Lemma takeWhile_app_stop (p : ascii -> bool) (w rest : jsstring) :
  Forall (fun c => p c = true) w -> stopsAt p rest ->
  takeWhile p (w ++ rest) = w /\ dropWhile p (w ++ rest) = rest.
Proof.
  induction 1 as [|c w Hc _ IH]; intros Hs.
  - cbn. destruct rest as [|c rest]; [auto|]. cbn in *. now rewrite Hs.
  - cbn. rewrite Hc. destruct (IH Hs) as [-> ->]. auto.
Qed.

(** The loop of a quantified class over a run of the class. *)
Lemma star_cls (p : ascii -> bool) (w : jsstring) :
  forall b rest g k fuel,
    Forall (fun c => p c = true) w -> stopsAt p rest -> length w < fuel ->
    star_loop (rmatch (Cls p)) fuel (MState b (w ++ rest) g) k
    = backtrack k b w rest g.
Proof.
  induction w as [|c w IH]; intros b rest g k fuel Hw Hrest Hfuel;
    (destruct fuel as [|fuel]; [cbn in Hfuel; lia|]).
  - cbn [star_loop app backtrack rmatch after].
    destruct rest as [|x rest]; [reflexivity|].
    cbn in Hrest. rewrite Hrest. reflexivity.
  - inversion Hw as [|? ? Hc Hw']; subst.
    cbn [star_loop backtrack rmatch after app before groups].
    rewrite Hc. cbn [after length].
    replace (length (w ++ rest) <? S (length (w ++ rest))) with true
      by (symmetry; apply Nat.ltb_lt; lia).
    rewrite IH; [reflexivity|assumption|assumption|cbn in Hfuel; lia].
Qed.

Lemma backtrack_some (k : mstate -> option mstate) (w : jsstring) :
  forall b rest g x,
    backtrack k b w rest g = Some x ->
    exists u v, w = u ++ v /\ k (splitAt b u v rest g) = Some x.
Proof.
  induction w as [|c w IH]; intros b rest g x H; cbn [backtrack] in H.
  - exists [], []. auto.
  - unfold orElse in H.
    destruct (backtrack k (c :: b) w rest g) as [y|] eqn:E.
    + injection H as ->. apply IH in E. destruct E as (u & v & -> & E).
      exists (c :: u), v. split; [reflexivity|].
      unfold splitAt in *. cbn [rev]. now rewrite <- app_assoc.
    + exists [], (c :: w). auto.
Qed.

Lemma backtrack_none (k : mstate -> option mstate) (w : jsstring) :
  forall b rest g,
    (forall u v, w = u ++ v -> k (splitAt b u v rest g) = None) ->
    backtrack k b w rest g = None.
Proof.
  intros b rest g H.
  destruct (backtrack k b w rest g) as [x|] eqn:E; [|reflexivity].
  apply backtrack_some in E. destruct E as (u & v & Hw & E).
  rewrite (H u v Hw) in E. discriminate.
Qed.

Lemma backtrack_accepts (k : mstate -> option mstate) (w : jsstring) :
  forall b rest g u v x,
    w = u ++ v -> k (splitAt b u v rest g) = Some x ->
    exists y, backtrack k b w rest g = Some y.
Proof.
  induction w as [|c w IH]; intros b rest g u v x Hw Hk; cbn [backtrack].
  - symmetry in Hw. apply app_eq_nil in Hw. destruct Hw as [-> ->]. eauto.
  - unfold orElse. destruct u as [|c' u].
    + cbn in Hw. subst v.
      destruct (backtrack k (c :: b) w rest g); eauto.
    + injection Hw as <- ->.
      destruct (IH (c :: b) rest g u v x eq_refl) as (y & ->); [|eauto].
      unfold splitAt in *. cbn [rev] in Hk. now rewrite <- app_assoc in Hk.
Qed.

(** The longest accepted prefix wins. *)
Lemma backtrack_last (k : mstate -> option mstate) (w : jsstring) :
  forall b rest g u v x,
    w = u ++ v -> k (splitAt b u v rest g) = Some x ->
    (forall u' v', w = u' ++ v' -> length u < length u' ->
                   k (splitAt b u' v' rest g) = None) ->
    backtrack k b w rest g = Some x.
Proof.
  induction w as [|c w IH]; intros b rest g u v x Hw Hk Hlater; cbn [backtrack].
  - symmetry in Hw. apply app_eq_nil in Hw. destruct Hw as [-> ->]. exact Hk.
  - unfold orElse. destruct u as [|c' u].
    + cbn in Hw. subst v.
      rewrite backtrack_none; [exact Hk|].
      intros u' v' Hw'. specialize (Hlater (c :: u') v').
      unfold splitAt in *. cbn [rev] in Hlater. rewrite <- app_assoc in Hlater.
      apply Hlater; [now rewrite Hw'|cbn; lia].
    + injection Hw as <- ->.
      rewrite (IH (c :: b) rest g u v x eq_refl); [reflexivity| |].
      * unfold splitAt in *. cbn [rev] in Hk. now rewrite <- app_assoc in Hk.
      * intros u' v' Hw' Hlen. specialize (Hlater (c :: u') v').
        unfold splitAt in *. cbn [rev] in Hlater. rewrite <- app_assoc in Hlater.
        apply Hlater; [now rewrite Hw'|cbn; lia].
Qed.

End BacktrackFacts.

(* ================================================================== *)
(** ** Replacements read off a break function *)

Section RewriteFacts.

Variable brk : jsstring -> option jsstring.
Variable ins : jsstring.
Hypothesis brk_shorter :
  forall text rest', brk text = Some rest' -> length rest' < length text.

Lemma rewriteFrom_fuels (n : nat) :
  forall text fuel1 fuel2,
    length text <= n -> length text <= fuel1 -> length text <= fuel2 ->
    rewriteFrom brk ins fuel1 text = rewriteFrom brk ins fuel2 text.
Proof.
  induction n as [|n IH]; intros text fuel1 fuel2 Hlen H1 H2.
  - destruct text; [|cbn in Hlen; lia].
    destruct fuel1, fuel2; cbn; try reflexivity;
      destruct (brk []) as [r|] eqn:E; try reflexivity;
      apply brk_shorter in E; cbn in E; lia.
  - destruct fuel1 as [|fuel1], fuel2 as [|fuel2].
    + reflexivity.
    + destruct text; [|cbn in H1; lia]. cbn.
      destruct (brk []) as [r|] eqn:E; [|reflexivity].
      apply brk_shorter in E; cbn in E; lia.
    + destruct text; [|cbn in H2; lia]. cbn.
      destruct (brk []) as [r|] eqn:E; [|reflexivity].
      apply brk_shorter in E; cbn in E; lia.
    + cbn [rewriteFrom].
      destruct (brk text) as [rest'|] eqn:E.
      * apply brk_shorter in E.
        rewrite (IH rest' fuel1 fuel2) by lia. reflexivity.
      * destruct text as [|c t]; [reflexivity|]. cbn in Hlen, H1, H2.
        rewrite (IH t fuel1 fuel2) by lia. reflexivity.
Qed.

Lemma rewriteFrom_fuel (text : jsstring) (fuel : nat) :
  length text <= fuel -> rewriteFrom brk ins fuel text = rewriteAll brk ins text.
Proof.
  intros H. unfold rewriteAll. apply (rewriteFrom_fuels (length text)); lia.
Qed.

Lemma rewriteAll_step (text : jsstring) :
  rewriteAll brk ins text
  = match brk text with
    | Some rest' => ins ++ rewriteAll brk ins rest'
    | None => match text with
              | [] => []
              | c :: t => c :: rewriteAll brk ins t
              end
    end.
Proof.
  rewrite <- (rewriteFrom_fuel text (S (length text))) by lia.
  cbn [rewriteFrom].
  destruct (brk text) as [rest'|] eqn:E.
  - apply brk_shorter in E. rewrite rewriteFrom_fuel by lia. reflexivity.
  - destruct text as [|c t]; [reflexivity|].
    rewrite rewriteFrom_fuel by (cbn; lia). reflexivity.
Qed.

(** A pattern whose matches [brk] describes is replaced as [rewriteAll]
    says. *)
Lemma replace_from_rewriteFrom (r : regex) (tpl : template) :
  (forall st,
     match brk (after st) with
     | Some rest' =>
         exists b' g', match_here r st = Some (MState b' rest' g') /\
                       expand tpl g' = ins
     | None => match_here r st = None
     end) ->
  forall fuel st,
    replace_from r tpl fuel st = rewriteFrom brk ins fuel (after st).
Proof.
  intros Hmatch. induction fuel as [|fuel IH]; intros st; [reflexivity|].
  cbn [replace_from rewriteFrom].
  pose proof (Hmatch st) as H.
  destruct (brk (after st)) as [rest'|] eqn:E.
  - destruct H as (b' & g' & -> & Hins). cbn [after groups].
    apply brk_shorter in E. apply Nat.ltb_lt in E. rewrite E.
    rewrite Hins, IH. reflexivity.
  - rewrite H. unfold advance. destruct (after st) as [|c t]; [reflexivity|].
    rewrite IH. reflexivity.
Qed.

Lemma replace_all_rewriteAll (r : regex) (tpl : template) :
  (forall st,
     match brk (after st) with
     | Some rest' =>
         exists b' g', match_here r st = Some (MState b' rest' g') /\
                       expand tpl g' = ins
     | None => match_here r st = None
     end) ->
  forall text, replace_all r tpl text = rewriteAll brk ins text.
Proof.
  intros Hmatch text. unfold replace_all.
  rewrite (replace_from_rewriteFrom r tpl Hmatch). cbn [after start_state].
  apply rewriteFrom_fuel. lia.
Qed.

End RewriteFacts.

(* ================================================================== *)
(** ** The paragraph pattern *)

Section ParagraphFacts.

Lemma existsb_chr (c : ascii) (w : jsstring) :
  existsb (fun y => chr_eqb y c) w = true <-> In c w.
Proof.
  rewrite existsb_exists. split.
  - intros (y & Hin & E). apply Ascii.eqb_eq in E. now subst.
  - intros Hin. exists c. split; [exact Hin|apply Ascii.eqb_refl].
Qed.

Lemma in_split_last (c : ascii) (w : jsstring) :
  In c w -> exists w1 tail, w = w1 ++ c :: tail /\ ~ In c tail.
Proof.
  induction w as [|x w IH]; intros Hin; [destruct Hin|].
  destruct (in_dec ascii_dec c w) as [Hw|Hw].
  - destruct (IH Hw) as (w1 & tail & -> & Ht).
    exists (x :: w1), tail. auto.
  - destruct Hin as [->|Hin]; [|contradiction].
    exists [], w. auto.
Qed.

Lemma afterLast_last (c : ascii) (w1 tail : jsstring) :
  ~ In c tail -> afterLast c (w1 ++ c :: tail) = tail.
Proof.
  intros Ht. induction w1 as [|x w1 IH]; cbn [app afterLast].
  - rewrite Ascii.eqb_refl.
    destruct (existsb _ tail) eqn:E; [|reflexivity].
    apply existsb_chr in E. contradiction.
  - destruct (existsb (fun y => chr_eqb y c) (w1 ++ c :: tail)) eqn:E.
    + rewrite andb_false_r. exact IH.
    + assert (In c (w1 ++ c :: tail)) as Hin by (apply in_or_app; right; now left).
      apply existsb_chr in Hin. congruence.
Qed.

Lemma afterLast_app (c : ascii) (u v : jsstring) :
  In c v -> afterLast c (u ++ v) = afterLast c v.
Proof.
  intros Hv. destruct (in_split_last c v Hv) as (w1 & tail & -> & Ht).
  rewrite app_assoc, !afterLast_last by assumption. reflexivity.
Qed.

Lemma count_two_split (c : ascii) (w : jsstring) :
  2 <= count_occ ascii_dec w c <->
  exists u v, w = u ++ c :: v /\ In c v.
Proof.
  split.
  - induction w as [|x w IH]; cbn [count_occ]; [lia|].
    destruct (ascii_dec x c) as [->|N]; intros H.
    + exists [], w. split; [reflexivity|].
      apply (count_occ_In ascii_dec). lia.
    + destruct (IH H) as (u & v & -> & Hv). exists (x :: u), v. auto.
  - intros (u & v & -> & Hv).
    rewrite count_occ_app. cbn [count_occ].
    destruct (ascii_dec c c) as [_|N]; [|congruence].
    apply (count_occ_In ascii_dec) in Hv. lia.
Qed.

Lemma newline_isSpace : isSpace newline = true.
Proof. reflexivity. Qed.

(** The end of the pattern: one or more newlines, after optional white
    space taken from the run [v]. *)
Lemma paragraph_tail (v rest : jsstring) :
  Forall (fun c => isSpace c = true) v -> stopsAt isSpace rest ->
  forall b,
    let k := fun st => rmatch (Seq (Plus (Chr newline)) Emp) st Some in
    (In newline v ->
     exists b', backtrack k b v rest []
                = Some (MState b' (afterLast newline v ++ rest) [])) /\
    (~ In newline v -> backtrack k b v rest [] = None).
Proof.
  intros Hv Hrest b k.
  (* the continuation at a split of the run *)
  assert (forall u y, k (splitAt b u y rest [])
            = match y with
              | c :: y' =>
                  if chr_eqb c newline
                  then star_loop (rmatch (Chr newline)) (S (length (y' ++ rest)))
                         (MState (c :: rev u ++ b) (y' ++ rest) [])
                         (fun st => Some st)
                  else None
              | [] => None
              end) as Hk.
  { intros u y. unfold k, splitAt. cbn [rmatch after before groups].
    destruct y as [|c y']; cbn [app].
    - destruct rest as [|c rest]; [reflexivity|].
      destruct (chr_eqb c newline) eqn:E; [|reflexivity].
      apply Ascii.eqb_eq in E. subst. cbn in Hrest. discriminate.
    - destruct (chr_eqb c newline); reflexivity. }
  split.
  - intros Hin. destruct (in_split_last _ _ Hin) as (w1 & tail & -> & Ht).
    rewrite afterLast_last by assumption.
    exists (newline :: rev w1 ++ b).
    apply (backtrack_last _ _ _ _ _ w1 (newline :: tail)); [reflexivity| |].
    + rewrite Hk, Ascii.eqb_refl. cbn [star_loop].
      assert (rmatch (Chr newline) (MState (newline :: rev w1 ++ b) (tail ++ rest) [])
                (fun st' =>
                   if length (after st') <? length (after (MState (newline :: rev w1 ++ b) (tail ++ rest) []))
                   then star_loop (rmatch (Chr newline)) (length (tail ++ rest)) st' (fun st => Some st)
                   else None) = None) as ->; [|reflexivity].
      cbn [rmatch after]. destruct tail as [|c tail]; cbn [app].
      * destruct rest as [|c rest]; [reflexivity|].
        destruct (chr_eqb c newline) eqn:E; [|reflexivity].
        apply Ascii.eqb_eq in E. subst. cbn in Hrest. discriminate.
      * destruct (chr_eqb c newline) eqn:E; [|reflexivity].
        apply Ascii.eqb_eq in E. subst. exfalso. apply Ht. now left.
    + intros u' v' Hw Hlen. rewrite Hk.
      destruct v' as [|c v']; [reflexivity|].
      destruct (chr_eqb c newline) eqn:E; [|reflexivity].
      apply Ascii.eqb_eq in E. subst c. exfalso.
      (* a newline of the run after the last one *)
      assert (length w1 < length u') as Hl by exact Hlen.
      assert (exists z, u' = w1 ++ newline :: z) as (z & ->).
      { clear - Hw Hl. revert u' Hw Hl.
        induction w1 as [|x w1 IH]; intros u' Hw Hl.
        - destruct u' as [|c u']; [cbn in Hl; lia|].
          cbn in Hw. injection Hw as <- _. exists u'. reflexivity.
        - destruct u' as [|c u']; [cbn in Hl; lia|].
          cbn in Hw. injection Hw as <- Hw.
          destruct (IH u' Hw) as (z & ->); [cbn in Hl; lia|].
          exists z. reflexivity. }
      rewrite <- app_assoc in Hw. apply app_inv_head in Hw.
      cbn in Hw. injection Hw as ->.
      apply Ht. apply in_or_app. right. now left.
  - intros Hnot. apply backtrack_none. intros u y ->. rewrite Hk.
    destruct y as [|c y]; [reflexivity|].
    destruct (chr_eqb c newline) eqn:E; [|reflexivity].
    apply Ascii.eqb_eq in E. subst. exfalso. apply Hnot.
    apply in_or_app. right. now left.
Qed.

(** The matches of the paragraph pattern. *)
Lemma match_here_paragraph (st : mstate) :
  match paragraphBreak (after st) with
  | Some rest' =>
      exists b', match_here re_paragraph st = Some (MState b' rest' [])
  | None => match_here re_paragraph st = None
  end.
Proof.
  destruct st as [b text g]. unfold match_here, paragraphBreak.
  cbn [after before].
  destruct text as [|c t]; [reflexivity|].
  unfold re_paragraph, ws. cbn [seqs].
  rewrite rmatch_Seq, rmatch_Chr_cons.
  destruct (chr_eqb c newline) eqn:Ec; [|reflexivity].
  rewrite rmatch_Seq, rmatch_Star. cbn [after].
  pose proof (takeWhile_dropWhile isSpace t) as Ht.
  pose proof (takeWhile_all isSpace t) as Hw.
  pose proof (dropWhile_stops isSpace t) as Hrest.
  remember (takeWhile isSpace t) as w eqn:Ew.
  remember (dropWhile isSpace t) as rest eqn:Erest.
  clear Ew Erest.
  set (k2 := fun st => rmatch (Seq (Plus (Chr newline)) Emp) st Some).
  set (k1 := fun st' : mstate =>
               rmatch (Seq (Chr newline)
                         (Seq (Star (Cls isSpace)) (Seq (Plus (Chr newline)) Emp)))
                      st' Some).
  replace (MState (c :: b) t []) with (MState (c :: b) (w ++ rest) [])
    by (now rewrite <- Ht).
  rewrite star_cls; [|assumption|assumption|].
  2:{ rewrite Ht, length_app. lia. }
  (* the continuation at a split of the white space *)
  assert (forall u v, w = u ++ v ->
            k1 (splitAt (c :: b) u v rest [])
            = match v with
              | x :: v' =>
                  if chr_eqb x newline
                  then backtrack k2 (x :: rev u ++ c :: b) v' rest []
                  else None
              | [] => None
              end) as Hk1.
  { intros u v Huv. unfold k1, splitAt. rewrite rmatch_Seq.
    destruct v as [|x v']; cbn [app].
    - destruct rest as [|x rest']; [reflexivity|].
      rewrite rmatch_Chr_cons.
      destruct (chr_eqb x newline) eqn:E; [|reflexivity].
      apply Ascii.eqb_eq in E. subst. cbn in Hrest. discriminate.
    - rewrite rmatch_Chr_cons.
      destruct (chr_eqb x newline); [|reflexivity].
      rewrite rmatch_Seq, rmatch_Star. cbn [after].
      rewrite star_cls; [reflexivity| |assumption|rewrite length_app; lia].
      rewrite Huv in Hw. apply Forall_app in Hw. destruct Hw as [_ Hw].
      now inversion Hw. }
  destruct (2 <=? count_occ ascii_dec w newline) eqn:Ecount.
  - apply Nat.leb_le in Ecount. apply count_two_split in Ecount.
    destruct Ecount as (u & v & Huv & Hv).
    assert (Forall (fun c => isSpace c = true) v) as Hvs.
    { rewrite Huv in Hw. apply Forall_app in Hw. destruct Hw as [_ Hw].
      now inversion Hw. }
    destruct (proj1 (paragraph_tail v rest Hvs Hrest (newline :: rev u ++ c :: b)) Hv)
      as (b1 & Hb1).
    destruct (backtrack_accepts k1 w (c :: b) rest [] u (newline :: v)
                (MState b1 (afterLast newline v ++ rest) []) Huv) as (y & Hy).
    { rewrite Hk1 by exact Huv. rewrite Ascii.eqb_refl. exact Hb1. }
    rewrite Hy. apply backtrack_some in Hy.
    destruct Hy as (u' & v' & Huv' & Hy). rewrite Hk1 in Hy by exact Huv'.
    destruct v' as [|x v'']; [discriminate|].
    destruct (chr_eqb x newline) eqn:Ex; [|discriminate].
    apply Ascii.eqb_eq in Ex. subst x.
    assert (Forall (fun c => isSpace c = true) v'') as Hvs'.
    { rewrite Huv' in Hw. apply Forall_app in Hw. destruct Hw as [_ Hw].
      now inversion Hw. }
    destruct (paragraph_tail v'' rest Hvs' Hrest (newline :: rev u' ++ c :: b))
      as [Hyes Hno].
    destruct (in_dec ascii_dec newline v'') as [Hin|Hnin].
    + destruct (Hyes Hin) as (b2 & Hb2). fold k2 in Hb2.
      rewrite Hb2 in Hy. injection Hy as <-.
      exists b2. do 3 f_equal.
      rewrite Huv'. change (u' ++ newline :: v'') with (u' ++ [newline] ++ v'').
      rewrite app_assoc. symmetry. now apply afterLast_app.
    + fold k2 in Hno. rewrite (Hno Hnin) in Hy. discriminate.
  - apply Nat.leb_gt in Ecount. apply backtrack_none.
    intros u v Huv. rewrite Hk1 by exact Huv.
    destruct v as [|x v']; [reflexivity|].
    destruct (chr_eqb x newline) eqn:Ex; [|reflexivity].
    apply Ascii.eqb_eq in Ex. subst x.
    assert (Forall (fun c => isSpace c = true) v') as Hvs'.
    { rewrite Huv in Hw. apply Forall_app in Hw. destruct Hw as [_ Hw].
      now inversion Hw. }
    apply (paragraph_tail v' rest Hvs' Hrest).
    intros Hin. assert (2 <= count_occ ascii_dec w newline); [|lia].
    apply count_two_split. exists u, v'. auto.
Qed.

End ParagraphFacts.

Section SqueezeFacts.

Lemma afterLast_suffix (c : ascii) (w : jsstring) :
  exists u, w = u ++ afterLast c w.
Proof.
  induction w as [|x w (u & IH)]; [exists []; reflexivity|].
  cbn [afterLast]. destruct (_ && _).
  - exists [x]. reflexivity.
  - exists (x :: u). cbn. now f_equal.
Qed.

Lemma dropWhile_suffix (p : ascii -> bool) (s : jsstring) :
  exists u, s = u ++ dropWhile p s.
Proof. exists (takeWhile p s). apply takeWhile_dropWhile. Qed.

(** The text left after a match is a proper suffix of the text. *)
Lemma paragraphBreak_suffix (text rest' : jsstring) :
  paragraphBreak text = Some rest' ->
  exists u, text = u ++ rest' /\ u <> [].
Proof.
  unfold paragraphBreak. destruct text as [|c t]; [discriminate|].
  destruct (chr_eqb c newline); [|discriminate].
  destruct (2 <=? _); [|discriminate]. intros [= <-].
  destruct (afterLast_suffix newline (takeWhile isSpace t)) as (u & Hu).
  exists (c :: u). split; [|discriminate].
  cbn. f_equal.
  transitivity (takeWhile isSpace t ++ dropWhile isSpace t);
    [apply takeWhile_dropWhile|].
  rewrite Hu at 1. now rewrite <- app_assoc.
Qed.

Lemma paragraphBreak_shorter (text rest' : jsstring) :
  paragraphBreak text = Some rest' -> length rest' < length text.
Proof.
  intros H. apply paragraphBreak_suffix in H. destruct H as (u & -> & Hu).
  rewrite length_app. destruct u; [congruence|cbn; lia].
Qed.

Lemma fixParagraphSpacing_squeeze (text : jsstring) :
  fixParagraphSpacing text = squeeze text.
Proof.
  unfold fixParagraphSpacing, squeeze.
  apply replace_all_rewriteAll.
  - apply paragraphBreak_shorter.
  - intros st. pose proof (match_here_paragraph st) as H.
    destruct (paragraphBreak (after st)); [|exact H].
    destruct H as (b' & ->). exists b', []. auto.
Qed.

Lemma squeeze_step (text : jsstring) :
  squeeze text
  = match paragraphBreak text with
    | Some rest' => newline :: newline :: squeeze rest'
    | None => match text with
              | [] => []
              | c :: t => c :: squeeze t
              end
    end.
Proof.
  unfold squeeze. rewrite rewriteAll_step by apply paragraphBreak_shorter.
  destruct (paragraphBreak text); reflexivity.
Qed.

Lemma endsNonSpace_suffix (u v : jsstring) :
  endsNonSpace (u ++ v) -> v <> [] -> endsNonSpace v.
Proof.
  unfold endsNonSpace. rewrite rev_app_distr. intros H Hv.
  destruct (rev v) as [|z r] eqn:E.
  - apply (f_equal (@rev ascii)) in E. rewrite rev_involutive in E.
    cbn in E. congruence.
  - exact H.
Qed.

Lemma endsNonSpace_dropWhile (a : jsstring) :
  endsNonSpace a -> a <> [] -> dropWhile isSpace a <> [].
Proof.
  intros Hend Ha Hdrop.
  pose proof (takeWhile_dropWhile isSpace a) as E.
  rewrite Hdrop, app_nil_r in E.
  pose proof (takeWhile_all isSpace a) as Hall. rewrite <- E in Hall.
  unfold endsNonSpace in Hend.
  destruct (rev a) as [|z r] eqn:Er.
  - apply (f_equal (@rev ascii)) in Er. rewrite rev_involutive in Er.
    cbn in Er. congruence.
  - cbn in Hend. rewrite Forall_forall in Hall.
    rewrite (Hall z) in Hend; [discriminate|].
    apply in_rev. rewrite Er. now left.
Qed.

Lemma takeWhile_app_inside (p : ascii -> bool) (a more : jsstring) :
  dropWhile p a <> [] ->
  takeWhile p (a ++ more) = takeWhile p a /\
  dropWhile p (a ++ more) = dropWhile p a ++ more.
Proof.
  induction a as [|x a IH]; cbn; [congruence|].
  destruct (p x); [|auto]. intros H. destruct (IH H) as [-> ->]. auto.
Qed.

(** A match inside a text that ends with a code unit that is not white
    space does not depend on what follows the text. *)
Lemma paragraphBreak_app (a more : jsstring) :
  endsNonSpace a -> a <> [] ->
  paragraphBreak (a ++ more)
  = match paragraphBreak a with
    | Some rest' => Some (rest' ++ more)
    | None => None
    end.
Proof.
  intros Hend Ha. destruct a as [|c a']; [congruence|].
  unfold paragraphBreak. cbn [app].
  destruct (chr_eqb c newline) eqn:Ec; [|reflexivity].
  apply Ascii.eqb_eq in Ec. subst c.
  assert (a' <> []) as Ha'.
  { intros ->. unfold endsNonSpace in Hend. cbn in Hend. discriminate. }
  assert (endsNonSpace a') as Hend'
    by (apply (endsNonSpace_suffix [newline] a'); assumption).
  destruct (takeWhile_app_inside isSpace a' more) as [-> ->].
  { now apply endsNonSpace_dropWhile. }
  destruct (2 <=? _); [|reflexivity]. now rewrite app_assoc.
Qed.

Lemma squeeze_app_aux (n : nat) :
  forall a more,
    length a <= n -> endsNonSpace a ->
    squeeze (a ++ more) = squeeze a ++ squeeze more.
Proof.
  induction n as [|n IH]; intros a more Hlen Hend.
  - destruct a; [reflexivity|cbn in Hlen; lia].
  - destruct a as [|c a']; [reflexivity|].
    rewrite (squeeze_step ((c :: a') ++ more)), (squeeze_step (c :: a')).
    rewrite paragraphBreak_app by (assumption || discriminate).
    destruct (paragraphBreak (c :: a')) as [rest'|] eqn:E.
    + pose proof (paragraphBreak_shorter _ _ E) as Hshort.
      pose proof E as E'. unfold paragraphBreak in E'.
      destruct (chr_eqb c newline) eqn:Ec; [|discriminate].
      apply Ascii.eqb_eq in Ec. subst c.
      assert (a' <> []) as Ha'.
      { intros ->. unfold endsNonSpace in Hend. cbn in Hend. discriminate. }
      assert (endsNonSpace a') as Hend'
        by (apply (endsNonSpace_suffix [newline] a'); assumption).
      assert (rest' <> []) as Hrest.
      { destruct (2 <=? _); [|discriminate]. injection E' as <-.
        intros H. apply app_eq_nil in H. destruct H as [_ H].
        now apply (endsNonSpace_dropWhile a'). }
      apply paragraphBreak_suffix in E. destruct E as (u & Hu & _).
      assert (endsNonSpace rest') as Hend''.
      { apply (endsNonSpace_suffix u rest'); [now rewrite <- Hu|assumption]. }
      cbn in Hshort, Hlen.
      rewrite (IH rest' more) by (assumption || lia). reflexivity.
    + cbn [app]. destruct a' as [|c' a''].
      * reflexivity.
      * rewrite (IH (c' :: a'') more).
        -- reflexivity.
        -- cbn in Hlen |- *. lia.
        -- apply (endsNonSpace_suffix [c] (c' :: a'')); [assumption|discriminate].
Qed.

Lemma squeeze_app (a more : jsstring) :
  endsNonSpace a -> squeeze (a ++ more) = squeeze a ++ squeeze more.
Proof. apply (squeeze_app_aux (length a)). lia. Qed.

Lemma repeat_snoc (c : ascii) (n : nat) :
  repeat c (S n) = repeat c n ++ [c].
Proof. induction n as [|n IH]; [reflexivity|]. cbn in *. now rewrite <- IH. Qed.

Lemma paragraphBreak_newlines (m : nat) (b : jsstring) :
  stopsAt isSpace b ->
  paragraphBreak (newline :: repeat newline m ++ b)
  = if 2 <=? m then Some b else None.
Proof.
  intros Hb. unfold paragraphBreak. rewrite Ascii.eqb_refl.
  destruct (takeWhile_app_stop isSpace (repeat newline m) b) as [-> ->];
    [|assumption|].
  { apply Forall_forall. intros x Hx. apply repeat_spec in Hx. now subst. }
  rewrite count_occ_repeat_eq by reflexivity.
  destruct (2 <=? m) eqn:E; [|reflexivity].
  destruct m as [|m]; [discriminate|].
  rewrite repeat_snoc, afterLast_last by (intros []). reflexivity.
Qed.

(** A run of newlines that is followed by no white space. *)
Lemma squeeze_newlines (n : nat) (b : jsstring) :
  stopsAt isSpace b ->
  squeeze (repeat newline n ++ b) = squeezedNewlines n ++ squeeze b.
Proof.
  intros Hb. unfold squeezedNewlines.
  pose proof (paragraphBreak_newlines 0 b Hb) as P0.
  pose proof (paragraphBreak_newlines 1 b Hb) as P1.
  cbn [repeat app Nat.leb] in P0, P1.
  destruct n as [|[|[|n]]].
  - reflexivity.
  - cbn [repeat app Nat.leb]. rewrite squeeze_step, P0. reflexivity.
  - cbn [repeat app Nat.leb]. rewrite squeeze_step, P1. f_equal.
    rewrite squeeze_step, P0. reflexivity.
  - cbn [Nat.leb]. rewrite squeeze_step.
    change (repeat newline (S (S (S n))) ++ b)
      with (newline :: repeat newline (S (S n)) ++ b).
    rewrite (paragraphBreak_newlines (S (S n)) b Hb). reflexivity.
Qed.




End SqueezeFacts.




(* ================================================================== *)
(** ** The white space and pipe spacing patterns *)

Section SpacingFacts.

Lemma star_cls_longest (p : ascii -> bool) (s b : jsstring)
    (g : list (nat * jsstring)) (k : mstate -> option mstate) (x : mstate) :
  k (MState (rev (takeWhile p s) ++ b) (dropWhile p s) g) = Some x ->
  rmatch (Star (Cls p)) (MState b s g) k = Some x.
Proof.
  intros Hk. rewrite rmatch_Star. cbn [after].
  rewrite (takeWhile_dropWhile p s) at 2.
  rewrite star_cls;
    [|apply takeWhile_all|apply dropWhile_stops|].
  2:{ rewrite (takeWhile_dropWhile p s) at 2. rewrite length_app. lia. }
  apply (backtrack_last _ _ _ _ _ (takeWhile p s) []).
  - now rewrite app_nil_r.
  - exact Hk.
  - intros u' v' Huv Hlen. apply (f_equal (@length ascii)) in Huv.
    rewrite length_app in Huv. lia.
Qed.

Lemma star_cls_none (p : ascii -> bool) (s b : jsstring)
    (g : list (nat * jsstring)) (k : mstate -> option mstate) :
  (forall u v, takeWhile p s = u ++ v ->
               k (splitAt b u v (dropWhile p s) g) = None) ->
  rmatch (Star (Cls p)) (MState b s g) k = None.
Proof.
  intros Hk. rewrite rmatch_Star. cbn [after].
  rewrite (takeWhile_dropWhile p s) at 2.
  rewrite star_cls;
    [|apply takeWhile_all|apply dropWhile_stops|].
  2:{ rewrite (takeWhile_dropWhile p s) at 2. rewrite length_app. lia. }
  apply backtrack_none. exact Hk.
Qed.

Lemma dropWhile_length (p : ascii -> bool) (s : jsstring) :
  length (dropWhile p s) <= length s.
Proof.
  induction s as [|c s IH]; [reflexivity|]. cbn.
  destruct (p c); cbn; lia.
Qed.

Lemma spacesBreak_shorter (text rest' : jsstring) :
  spacesBreak text = Some rest' -> length rest' < length text.
Proof.
  unfold spacesBreak. destruct text as [|c t]; [discriminate|].
  destruct (isSpace c); [|discriminate]. intros [= <-].
  pose proof (dropWhile_length isSpace t). cbn. lia.
Qed.

Lemma pipeBreak_shorter (text rest' : jsstring) :
  pipeBreak text = Some rest' -> length rest' < length text.
Proof.
  unfold pipeBreak.
  pose proof (dropWhile_length isSpace text) as H1.
  destruct (dropWhile isSpace text) as [|c r]; [discriminate|].
  destruct (chr_eqb c pipe); [|discriminate]. intros [= <-].
  pose proof (dropWhile_length isSpace r). cbn in H1. lia.
Qed.

Lemma match_here_spaces (st : mstate) :
  match spacesBreak (after st) with
  | Some rest' =>
      exists b' g', match_here re_spaces st = Some (MState b' rest' g') /\
                    expand [Lit (str " ")] g' = [space]
  | None => match_here re_spaces st = None
  end.
Proof.
  destruct st as [b text g]. unfold match_here, spacesBreak, re_spaces, ws.
  cbn [after before]. rewrite rmatch_Plus.
  destruct text as [|c t]; [reflexivity|].
  rewrite rmatch_Cls_cons. destruct (isSpace c); [|reflexivity].
  exists (rev (takeWhile isSpace t) ++ c :: b), []. split; [|reflexivity].
  change (star_loop (rmatch (Cls isSpace)) (S (length (after (MState (c :: b) t []))))
            (MState (c :: b) t []) Some)
    with (rmatch (Star (Cls isSpace)) (MState (c :: b) t []) Some).
  now apply star_cls_longest.
Qed.

Lemma replace_spaces_collapse (text : jsstring) :
  replace_all re_spaces [Lit (str " ")] text = collapse text.
Proof.
  apply replace_all_rewriteAll.
  - apply spacesBreak_shorter.
  - apply match_here_spaces.
Qed.

Lemma pipe_not_space : isSpace pipe = false.
Proof. reflexivity. Qed.

Lemma match_here_pipe_spacing (st : mstate) :
  match pipeBreak (after st) with
  | Some rest' =>
      exists b' g', match_here re_pipe_spacing st = Some (MState b' rest' g') /\
                    expand [Lit (str " | ")] g' = str " | "
  | None => match_here re_pipe_spacing st = None
  end.
Proof.
  destruct st as [b text g]. unfold match_here, pipeBreak, re_pipe_spacing, ws.
  cbn [after before seqs]. rewrite rmatch_Seq.
  destruct (dropWhile isSpace text) as [|c r] eqn:Edrop.
  - apply star_cls_none. intros u v Huv. unfold splitAt. rewrite Edrop.
    rewrite rmatch_Seq. destruct v as [|x v]; [reflexivity|].
    cbn [app]. rewrite rmatch_Chr_cons.
    assert (isSpace x = true) as Hx.
    { pose proof (takeWhile_all isSpace text) as Hall.
      rewrite Huv in Hall. apply Forall_app in Hall. destruct Hall as [_ Hall].
      now inversion Hall. }
    destruct (chr_eqb x pipe) eqn:E; [|reflexivity].
    apply Ascii.eqb_eq in E. subst x. discriminate.
  - destruct (chr_eqb c pipe) eqn:Ec.
    + exists (rev (takeWhile isSpace r) ++ c :: rev (takeWhile isSpace text) ++ b), [].
      split; [|reflexivity].
      apply star_cls_longest. rewrite Edrop.
      rewrite rmatch_Seq, rmatch_Chr_cons, Ec, rmatch_Seq.
      apply star_cls_longest. reflexivity.
    + apply star_cls_none. intros u v Huv. unfold splitAt. rewrite Edrop.
      rewrite rmatch_Seq. destruct v as [|x v].
      * cbn [app]. rewrite rmatch_Chr_cons, Ec. reflexivity.
      * cbn [app]. rewrite rmatch_Chr_cons.
        assert (isSpace x = true) as Hx.
        { pose proof (takeWhile_all isSpace text) as Hall.
          rewrite Huv in Hall. apply Forall_app in Hall. destruct Hall as [_ Hall].
          now inversion Hall. }
        destruct (chr_eqb x pipe) eqn:E; [|reflexivity].
        apply Ascii.eqb_eq in E. subst x. discriminate.
Qed.

Lemma replace_pipe_spacing (text : jsstring) :
  replace_all re_pipe_spacing [Lit (str " | ")] text = pipeSpace text.
Proof.
  apply replace_all_rewriteAll.
  - apply pipeBreak_shorter.
  - apply match_here_pipe_spacing.
Qed.

(** The cleaning of a table line that holds no [<]. *)
Lemma cleanTableLine_plain (line : jsstring) :
  ~ In lt_sign line ->
  cleanTableLine line = trim (pipeSpace (collapse line)).
Proof.
  intros Hlt. unfold cleanTableLine.
  rewrite (replace_all_requires lt_sign re_location_br) by (reflexivity || assumption).
  rewrite (replace_all_requires lt_sign re_br) by (reflexivity || assumption).
  rewrite (replace_all_requires lt_sign re_u) by (reflexivity || assumption).
  rewrite (replace_all_requires lt_sign re_em) by (reflexivity || assumption).
  rewrite (replace_all_requires lt_sign re_strong) by (reflexivity || assumption).
  rewrite replace_spaces_collapse, replace_pipe_spacing. reflexivity.
Qed.

End SpacingFacts.

(* ================================================================== *)
(** ** Trimming *)

Section TrimFacts.

Lemma trimStart_dropWhile (s : jsstring) : trimStart s = dropWhile isSpace s.
Proof. induction s as [|c s IH]; [reflexivity|]. cbn. now rewrite IH. Qed.

Lemma trimStart_stops (s : jsstring) : stopsAt isSpace (trimStart s).
Proof. rewrite trimStart_dropWhile. apply dropWhile_stops. Qed.

Lemma trimStart_fixed (s : jsstring) : stopsAt isSpace s -> trimStart s = s.
Proof. destruct s as [|c s]; [reflexivity|]. cbn. now intros ->. Qed.

Lemma trimStart_idem (s : jsstring) : trimStart (trimStart s) = trimStart s.
Proof. apply trimStart_fixed, trimStart_stops. Qed.

Lemma trimStart_blank (s : jsstring) : blank s = true -> trimStart s = [].
Proof.
  induction s as [|c s IH]; [reflexivity|]. cbn.
  destruct (isSpace c); [exact IH|discriminate].
Qed.

Lemma trimStart_nil_blank (s : jsstring) : trimStart s = [] -> blank s = true.
Proof.
  induction s as [|c s IH]; [reflexivity|]. cbn.
  destruct (isSpace c); [exact IH|discriminate].
Qed.

Lemma trimStart_app (x y : jsstring) :
  trimStart (x ++ y)
  = match trimStart x with
    | [] => trimStart y
    | t => t ++ y
    end.
Proof.
  induction x as [|c x IH]; [cbn; now destruct (trimStart y)|].
  cbn. destruct (isSpace c); [exact IH|reflexivity].
Qed.

Lemma trimEnd_app_cong (x y y' : jsstring) :
  trimEnd y = trimEnd y' -> trimEnd (x ++ y) = trimEnd (x ++ y').
Proof.
  intros H. induction x as [|c x IH]; [exact H|].
  cbn. now rewrite IH.
Qed.

Lemma trimEnd_blank (s : jsstring) : blank s = true -> trimEnd s = [].
Proof.
  induction s as [|c s IH]; [reflexivity|]. cbn.
  destruct (isSpace c) eqn:E; [|discriminate].
  intros H. rewrite (IH H). reflexivity.
Qed.

Lemma trimEnd_nil_blank (s : jsstring) : trimEnd s = [] -> blank s = true.
Proof.
  induction s as [|c s IH]; [reflexivity|]. cbn.
  destruct (trimEnd s) as [|d t]; [|discriminate].
  destruct (isSpace c); [intros _; now apply IH|discriminate].
Qed.

Lemma trimEnd_cons (c : ascii) (s : jsstring) :
  trimEnd (c :: s) = if blank (c :: s) then [] else c :: trimEnd s.
Proof.
  cbn [trimEnd blank forallb].
  destruct (trimEnd s) as [|d t] eqn:E.
  - pose proof (trimEnd_nil_blank s E) as B. unfold blank in B.
    rewrite B, andb_true_r. destruct (isSpace c); reflexivity.
  - assert (forallb isSpace s = false) as ->.
    { destruct (forallb isSpace s) eqn:B; [|reflexivity].
      rewrite (trimEnd_blank s B) in E. discriminate. }
    now rewrite andb_false_r.
Qed.

Lemma trimEnd_app (x y : jsstring) :
  trimEnd (x ++ y)
  = match trimEnd y with
    | [] => trimEnd x
    | t => x ++ t
    end.
Proof.
  induction x as [|c x IH].
  - cbn. now destruct (trimEnd y).
  - cbn [app]. rewrite !trimEnd_cons. cbn [blank forallb] in *.
    rewrite forallb_app, IH.
    destruct (trimEnd y) as [|d t] eqn:E.
    + pose proof (trimEnd_nil_blank y E) as B. unfold blank in B.
      rewrite B, andb_true_r. reflexivity.
    + assert (forallb isSpace y = false) as ->.
      { destruct (forallb isSpace y) eqn:B; [|reflexivity].
        rewrite (trimEnd_blank y B) in E. discriminate. }
      now rewrite !andb_false_r.
Qed.

Lemma trimEnd_ends (s : jsstring) : endsNonSpace (trimEnd s).
Proof.
  unfold endsNonSpace. induction s as [|c s IH]; [exact I|].
  rewrite trimEnd_cons. destruct (blank (c :: s)) eqn:B; [exact I|].
  cbn [rev]. destruct (rev (trimEnd s)) as [|d r] eqn:E.
  - cbn. apply (f_equal (@rev ascii)) in E. rewrite rev_involutive in E.
    cbn in E. apply trimEnd_nil_blank in E.
    unfold blank in *. cbn [forallb] in B. rewrite E, andb_true_r in B. exact B.
  - exact IH.
Qed.

Lemma trimEnd_fixed (s : jsstring) : endsNonSpace s -> trimEnd s = s.
Proof.
  unfold endsNonSpace. induction s as [|c s IH]; [reflexivity|].
  intros H. rewrite trimEnd_cons.
  destruct s as [|d s'].
  - cbn in *. now rewrite H.
  - assert (blank (c :: d :: s') = false) as ->.
    { destruct (blank (c :: d :: s')) eqn:B; [|reflexivity].
      cbn [rev] in H. destruct (rev s') as [|z r] eqn:E.
      - cbn in H. cbn in B. rewrite H in B.
        rewrite andb_false_l, andb_false_r in B. discriminate.
      - cbn in H. assert (In z (c :: d :: s')) as Hin.
        { right. right. apply in_rev. rewrite E. now left. }
        unfold blank in B. rewrite forallb_forall in B.
        rewrite (B z Hin) in H. discriminate. }
    f_equal. apply IH.
    cbn [rev] in H |- *. destruct (rev s') as [|z r]; exact H.
Qed.

Lemma trimEnd_idem (s : jsstring) : trimEnd (trimEnd s) = trimEnd s.
Proof. apply trimEnd_fixed, trimEnd_ends. Qed.

Lemma trim_commute (s : jsstring) : trimStart (trimEnd s) = trimEnd (trimStart s).
Proof.
  induction s as [|c s IH]; [reflexivity|].
  rewrite trimEnd_cons. cbn [trimStart blank forallb].
  destruct (isSpace c) eqn:Ec; cbn [andb].
  - destruct (forallb isSpace s) eqn:B.
    + cbn. rewrite trimStart_blank by exact B. reflexivity.
    + cbn [trimStart]. rewrite Ec. exact IH.
  - cbn [trimStart]. rewrite Ec. rewrite trimEnd_cons.
    cbn [blank forallb]. rewrite Ec. reflexivity.
Qed.

Lemma trim_idem (s : jsstring) : trim (trim s) = trim s.
Proof.
  unfold trim. rewrite (trim_commute (trimStart s)).
  rewrite trimStart_idem, trimEnd_idem. reflexivity.
Qed.

Lemma trim_blank (s : jsstring) : blank s = true -> trim s = [].
Proof. intros H. unfold trim. now rewrite trimStart_blank. Qed.

Lemma trim_trimStart (s : jsstring) : trim (trimStart s) = trim s.
Proof. unfold trim. now rewrite trimStart_idem. Qed.

Lemma trim_trimEnd (s : jsstring) : trim (trimEnd s) = trim s.
Proof. unfold trim. now rewrite trim_commute, trimEnd_idem. Qed.

Lemma blank_app (x y : jsstring) : blank (x ++ y) = blank x && blank y.
Proof. apply forallb_app. Qed.

(** White space around a text does not count. *)
Lemma trim_padded (w1 c w2 : jsstring) :
  blank w1 = true -> blank w2 = true -> trim (w1 ++ c ++ w2) = trim c.
Proof.
  intros H1 H2. unfold trim.
  rewrite trimStart_app, (trimStart_blank w1 H1).
  rewrite trimStart_app. destruct (trimStart c) as [|d t] eqn:E.
  - rewrite (trimStart_blank w2 H2). reflexivity.
  - rewrite trimEnd_app, (trimEnd_blank w2 H2). reflexivity.
Qed.

End TrimFacts.

(* ================================================================== *)
(** ** Splitting and joining *)

Section SplitFacts.

Variable sep : ascii.

Lemma split_not_nil (s : jsstring) : split sep s <> [].
Proof.
  destruct s as [|c s]; cbn [split]; [discriminate|].
  destruct (chr_eqb c sep); [discriminate|].
  destruct (split sep s); discriminate.
Qed.

Lemma split_sep_cons (s : jsstring) : split sep (sep :: s) = [] :: split sep s.
Proof. cbn [split]. unfold chr_eqb. now rewrite Ascii.eqb_refl. Qed.

Lemma split_other_cons (c : ascii) (s : jsstring) :
  c <> sep ->
  split sep (c :: s)
  = match split sep s with
    | p :: ps => (c :: p) :: ps
    | [] => [[c]]
    end.
Proof.
  intros H. cbn [split]. unfold chr_eqb.
  apply Ascii.eqb_neq in H. now rewrite H.
Qed.

Lemma split_free (p : jsstring) : ~ In sep p -> split sep p = [p].
Proof.
  induction p as [|c p IH]; intros H; [reflexivity|].
  rewrite split_other_cons by (intros ->; apply H; now left).
  rewrite IH by (intros Hin; apply H; now right). reflexivity.
Qed.

Lemma split_app_sep (p more : jsstring) :
  ~ In sep p -> split sep (p ++ sep :: more) = p :: split sep more.
Proof.
  induction p as [|c p IH]; intros H; [apply split_sep_cons|].
  cbn [app]. rewrite split_other_cons by (intros ->; apply H; now left).
  rewrite IH by (intros Hin; apply H; now right). reflexivity.
Qed.

(** A text has no separator, or a first one. *)
Lemma first_sep (s : jsstring) :
  ~ In sep s \/ exists p more, s = p ++ sep :: more /\ ~ In sep p.
Proof.
  induction s as [|c s IH]; [left; intros []|].
  destruct (ascii_dec c sep) as [->|N].
  - right. exists [], s. split; [reflexivity|intros []].
  - destruct IH as [H|(p & more & -> & H)].
    + left. intros [E|Hin]; [congruence|contradiction].
    + right. exists (c :: p), more. split; [reflexivity|].
      intros [E|Hin]; [congruence|contradiction].
Qed.

(** Induction over a text piece by piece. *)
Lemma pieces_ind (P : jsstring -> Prop) :
  (forall p, ~ In sep p -> P p) ->
  (forall p more, ~ In sep p -> P more -> P (p ++ sep :: more)) ->
  forall s, P s.
Proof.
  intros Hfree Hstep s.
  remember (length s) as n eqn:Hn. revert s Hn.
  induction n as [n IH] using lt_wf_ind. intros s Hn.
  destruct (first_sep s) as [H|(p & more & -> & H)]; [now apply Hfree|].
  apply Hstep; [exact H|].
  apply (IH (length more)); [|reflexivity].
  rewrite Hn, length_app. cbn. lia.
Qed.

Lemma join_split (s : jsstring) : join [sep] (split sep s) = s.
Proof.
  induction s as [p Hp|p more Hp IH] using pieces_ind.
  - now rewrite split_free.
  - rewrite split_app_sep by exact Hp.
    pose proof (split_not_nil more) as Hne.
    destruct (split sep more) as [|q qs] eqn:E; [congruence|].
    cbn [join]. cbn [join] in IH. rewrite IH. reflexivity.
Qed.

Lemma split_pieces_free (s : jsstring) :
  Forall (fun p => ~ In sep p) (split sep s).
Proof.
  induction s as [p Hp|p more Hp IH] using pieces_ind.
  - rewrite split_free by exact Hp. now constructor.
  - rewrite split_app_sep by exact Hp. now constructor.
Qed.

Lemma join_cons2 (x : jsstring) (p q : jsstring) (ps : list jsstring) :
  join x (p :: q :: ps) = p ++ x ++ join x (q :: ps).
Proof. reflexivity. Qed.

End SplitFacts.

(* ================================================================== *)
(** ** Collapsed white space *)

Section CollapseFacts.

Lemma collapse_nil : collapse [] = [].
Proof. reflexivity. Qed.

Lemma collapse_cons (c : ascii) (t : jsstring) :
  collapse (c :: t)
  = if isSpace c then space :: collapse (dropWhile isSpace t)
    else c :: collapse t.
Proof.
  unfold collapse. rewrite rewriteAll_step by apply spacesBreak_shorter.
  cbn [spacesBreak]. destruct (isSpace c); reflexivity.
Qed.

Lemma dropWhile_blank (w rest : jsstring) :
  blank w = true -> dropWhile isSpace (w ++ rest) = dropWhile isSpace rest.
Proof.
  induction w as [|c w IH]; [reflexivity|]. cbn.
  destruct (isSpace c); [exact IH|discriminate].
Qed.

Lemma dropWhile_fixed (s : jsstring) :
  stopsAt isSpace s -> dropWhile isSpace s = s.
Proof. destruct s as [|c s]; [reflexivity|]. cbn. now intros ->. Qed.

(** Induction on the length of a text. *)
Lemma length_ind (P : jsstring -> Prop) :
  (forall s, (forall t, length t < length s -> P t) -> P s) ->
  forall s, P s.
Proof.
  intros H s. remember (length s) as n eqn:Hn. revert s Hn.
  induction n as [n IH] using lt_wf_ind. intros s Hn.
  apply H. intros t Ht. apply (IH (length t)); [lia|reflexivity].
Qed.

Lemma collapse_app_nonspace (c : ascii) (x y : jsstring) :
  isSpace c = false -> collapse (x ++ c :: y) = collapse x ++ c :: collapse y.
Proof.
  intros Hc. induction x as [x IH] using length_ind.
  destruct x as [|a x'].
  - cbn [app]. rewrite collapse_cons, Hc. reflexivity.
  - cbn [app]. rewrite !collapse_cons. destruct (isSpace a) eqn:Ea.
    + cbn [app]. f_equal.
      pose proof (takeWhile_dropWhile isSpace x') as Hx.
      set (w := takeWhile isSpace x') in *. set (r := dropWhile isSpace x') in *.
      assert (dropWhile isSpace (x' ++ c :: y) = r ++ c :: y) as ->.
      { rewrite Hx, <- app_assoc.
        rewrite dropWhile_blank.
        - subst r. destruct (dropWhile isSpace x') as [|d r'] eqn:E.
          + cbn. now rewrite Hc.
          + pose proof (dropWhile_stops isSpace x') as Hs. rewrite E in Hs.
            cbn in Hs |- *. now rewrite Hs.
        - subst w. apply forallb_forall. intros z Hz.
          pose proof (takeWhile_all isSpace x') as Hall.
          rewrite Forall_forall in Hall. now apply Hall. }
      apply IH. subst r. pose proof (dropWhile_length isSpace x'). cbn. lia.
    + cbn [app]. f_equal. apply IH. cbn. lia.
Qed.

Lemma collapse_incl (s : jsstring) : incl (collapse s) (space :: s).
Proof.
  induction s as [s IH] using length_ind.
  destruct s as [|c t]; [apply incl_nil_l|].
  rewrite collapse_cons. destruct (isSpace c).
  - apply incl_cons; [now left|].
    intros x Hx. apply IH in Hx.
    + destruct Hx as [<-|Hx]; [now left|]. right. right.
      destruct (dropWhile_suffix isSpace t) as (u & Hu). rewrite Hu.
      apply in_or_app. now right.
    + pose proof (dropWhile_length isSpace t). cbn. lia.
  - apply incl_cons; [right; now left|].
    intros x Hx. apply IH in Hx; [|cbn; lia].
    destruct Hx as [<-|Hx]; [now left|]. right. now right.
Qed.

Lemma collapse_stops (s : jsstring) :
  stopsAt isSpace s -> stopsAt isSpace (collapse s).
Proof.
  destruct s as [|c t]; [intros _; exact I|].
  intros Hc. cbn [stopsAt] in Hc. rewrite collapse_cons, Hc. exact Hc.
Qed.

Lemma tidy_collapse (s : jsstring) : tidy (collapse s) = true.
Proof.
  induction s as [s IH] using length_ind.
  destruct s as [|c t]; [reflexivity|].
  rewrite collapse_cons. destruct (isSpace c) eqn:Ec.
  - cbn [tidy]. change (isSpace space) with true. cbn iota.
    rewrite IH by (pose proof (dropWhile_length isSpace t); cbn; lia).
    rewrite andb_true_r. unfold chr_eqb. rewrite Ascii.eqb_refl. cbn [andb].
    pose proof (collapse_stops _ (dropWhile_stops isSpace t)) as Hs.
    destruct (collapse (dropWhile isSpace t)) as [|d r]; [reflexivity|].
    cbn in Hs. now rewrite Hs.
  - cbn [tidy]. rewrite Ec. apply IH. cbn. lia.
Qed.

Lemma collapse_tidy (s : jsstring) : tidy s = true -> collapse s = s.
Proof.
  induction s as [|c t IH]; [reflexivity|].
  cbn [tidy]. intros H. apply andb_true_iff in H. destruct H as [Hc Ht].
  rewrite collapse_cons. destruct (isSpace c) eqn:Ec.
  - apply andb_true_iff in Hc. destruct Hc as [Hsp Hnext].
    apply Ascii.eqb_eq in Hsp. subst c.
    rewrite dropWhile_fixed.
    + now rewrite IH.
    + destruct t as [|d r]; [exact I|]. cbn.
      now apply negb_true_iff in Hnext.
  - now rewrite IH.
Qed.

Lemma tidy_tail (c : ascii) (s : jsstring) : tidy (c :: s) = true -> tidy s = true.
Proof. cbn [tidy]. intros H. apply andb_true_iff in H. tauto. Qed.

Lemma tidy_dropWhile (s : jsstring) :
  tidy s = true -> tidy (dropWhile isSpace s) = true.
Proof.
  induction s as [|c s IH]; [reflexivity|]. intros H. cbn.
  destruct (isSpace c); [apply IH; now apply tidy_tail in H|exact H].
Qed.

Lemma tidy_trimEnd (s : jsstring) : tidy s = true -> tidy (trimEnd s) = true.
Proof.
  induction s as [|c s IH]; [reflexivity|]. intros H.
  rewrite trimEnd_cons. destruct (blank (c :: s)); [reflexivity|].
  pose proof (tidy_tail _ _ H) as Hs. specialize (IH Hs).
  cbn [tidy] in H |- *. apply andb_true_iff in H. destruct H as [Hc _].
  rewrite IH, andb_true_r.
  destruct (isSpace c); [|reflexivity].
  apply andb_true_iff in Hc. destruct Hc as [Hsp Hnext]. rewrite Hsp. cbn [andb].
  destruct s as [|d r]; [reflexivity|].
  rewrite trimEnd_cons. destruct (blank (d :: r)); [reflexivity|exact Hnext].
Qed.

Lemma tidy_trim (s : jsstring) : tidy s = true -> tidy (trim s) = true.
Proof.
  intros H. unfold trim. apply tidy_trimEnd.
  rewrite trimStart_dropWhile. now apply tidy_dropWhile.
Qed.

Lemma collapse_blank (w : jsstring) :
  blank w = true -> blank (collapse w) = true.
Proof.
  intros H. apply forallb_forall. intros x Hx.
  apply collapse_incl in Hx. destruct Hx as [<-|Hx]; [reflexivity|].
  unfold blank in H. rewrite forallb_forall in H. now apply H.
Qed.

Lemma collapse_trimStart (s : jsstring) :
  collapse (trimStart s) = trimStart (collapse s).
Proof.
  destruct s as [|c t]; [reflexivity|].
  rewrite collapse_cons. cbn [trimStart]. destruct (isSpace c) eqn:Ec.
  - change (trimStart (space :: ?x)) with (trimStart x).
    rewrite trimStart_dropWhile.
    rewrite (trimStart_fixed (collapse _)); [reflexivity|].
    apply collapse_stops, dropWhile_stops.
  - rewrite collapse_cons, Ec. cbn [trimStart]. now rewrite Ec.
Qed.

Lemma blank_false_cons (c : ascii) (s : jsstring) :
  blank (c :: s) = false -> isSpace c = true -> blank s = false.
Proof.
  unfold blank. cbn [forallb]. intros H E. rewrite E in H. exact H.
Qed.

Lemma collapse_trimEnd (s : jsstring) :
  collapse (trimEnd s) = trimEnd (collapse s).
Proof.
  induction s as [s IH] using length_ind.
  destruct s as [|c t]; [reflexivity|].
  rewrite trimEnd_cons. destruct (blank (c :: t)) eqn:B.
  - rewrite trimEnd_blank; [reflexivity|]. now apply collapse_blank.
  - rewrite !collapse_cons. destruct (isSpace c) eqn:Ec.
    + pose proof (blank_false_cons _ _ B Ec) as Bt.
      rewrite <- !trimStart_dropWhile, trim_commute.
      rewrite IH by (rewrite trimStart_dropWhile;
                     pose proof (dropWhile_length isSpace t); cbn; lia).
      rewrite trimEnd_cons.
      assert (blank (space :: collapse (trimStart t)) = false) as ->;
        [|reflexivity].
      cbn [blank forallb]. change (isSpace space) with true. cbn [andb].
      destruct (forallb isSpace (collapse (trimStart t))) eqn:E; [|reflexivity].
      exfalso.
      assert (trimStart t <> []) as Hne.
      { intros Hnil. apply trimStart_nil_blank in Hnil. congruence. }
      pose proof (trimStart_stops t) as Hs.
      destruct (trimStart t) as [|d r]; [congruence|].
      cbn in Hs. rewrite collapse_cons, Hs in E. cbn in E. rewrite Hs in E.
      discriminate.
    + rewrite IH by (cbn; lia). rewrite (trimEnd_cons c).
      cbn [blank forallb]. rewrite Ec. reflexivity.
Qed.

Lemma collapse_trim (s : jsstring) : collapse (trim s) = trim (collapse s).
Proof. unfold trim. now rewrite collapse_trimEnd, collapse_trimStart. Qed.

(** White space around a tidy trimmed text is cleaned away. *)
Lemma trim_collapse_padded (w1 c w2 : jsstring) :
  blank w1 = true -> blank w2 = true ->
  trim (collapse (w1 ++ c ++ w2)) = trim (collapse c).
Proof.
  intros H1 H2. rewrite <- !collapse_trim. now rewrite trim_padded.
Qed.

End CollapseFacts.

(* ================================================================== *)
(** ** Pipe spacing *)

Section PipeFacts.

Lemma str_cellSep : str " | " = cellSep.
Proof. reflexivity. Qed.

Lemma pipeSpace_step (text : jsstring) :
  pipeSpace text
  = match pipeBreak text with
    | Some r => cellSep ++ pipeSpace r
    | None => match text with
              | [] => []
              | c :: t => c :: pipeSpace t
              end
    end.
Proof.
  unfold pipeSpace. rewrite rewriteAll_step by apply pipeBreak_shorter.
  reflexivity.
Qed.

Lemma dropWhile_incl (p : ascii -> bool) (s : jsstring) :
  incl (dropWhile p s) s.
Proof.
  destruct (dropWhile_suffix p s) as (u & Hu).
  intros x Hx. rewrite Hu. apply in_or_app. now right.
Qed.

Lemma pipeBreak_free (s : jsstring) : ~ In pipe s -> pipeBreak s = None.
Proof.
  intros H. unfold pipeBreak.
  pose proof (dropWhile_incl isSpace s) as Hincl.
  destruct (dropWhile isSpace s) as [|c r]; [reflexivity|].
  destruct (chr_eqb c pipe) eqn:E; [|reflexivity].
  apply Ascii.eqb_eq in E. subst c. exfalso. apply H, Hincl. now left.
Qed.

Lemma pipeBreak_blank (w more : jsstring) :
  blank w = true ->
  pipeBreak (w ++ pipe :: more) = Some (dropWhile isSpace more).
Proof.
  intros H. unfold pipeBreak. rewrite dropWhile_blank by exact H.
  cbn [dropWhile]. rewrite pipe_not_space.
  unfold chr_eqb. now rewrite Ascii.eqb_refl.
Qed.

Lemma dropWhile_nonblank (q more : jsstring) :
  blank q = false ->
  dropWhile isSpace (q ++ more) = dropWhile isSpace q ++ more /\
  dropWhile isSpace q <> [].
Proof.
  induction q as [|c q IH]; [discriminate|].
  unfold blank. cbn [forallb app dropWhile]. destruct (isSpace c).
  - cbn [andb]. exact IH.
  - intros _. split; [reflexivity|discriminate].
Qed.

Lemma pipeBreak_nonblank (q more : jsstring) :
  ~ In pipe q -> blank q = false -> pipeBreak (q ++ pipe :: more) = None.
Proof.
  intros Hq Hb. unfold pipeBreak.
  destruct (dropWhile_nonblank q (pipe :: more) Hb) as [-> Hne].
  pose proof (dropWhile_incl isSpace q) as Hincl.
  destruct (dropWhile isSpace q) as [|c r]; [congruence|].
  cbn [app]. destruct (chr_eqb c pipe) eqn:E; [|reflexivity].
  apply Ascii.eqb_eq in E. subst c. exfalso. apply Hq, Hincl. now left.
Qed.

Lemma pipeSpace_free (q : jsstring) : ~ In pipe q -> pipeSpace q = q.
Proof.
  induction q as [|c q IH]; intros H.
  - reflexivity.
  - rewrite pipeSpace_step, pipeBreak_free by exact H.
    rewrite IH by (intros Hin; apply H; now right). reflexivity.
Qed.

Lemma pipeSpace_piece (q more : jsstring) :
  ~ In pipe q ->
  pipeSpace (q ++ pipe :: more)
  = trimEnd q ++ cellSep ++ pipeSpace (trimStart more).
Proof.
  induction q as [|c q IH]; intros H.
  - cbn [app trimEnd]. rewrite pipeSpace_step.
    pose proof (pipeBreak_blank [] more eq_refl) as P. cbn [app] in P.
    rewrite P. now rewrite trimStart_dropWhile.
  - rewrite trimEnd_cons. destruct (blank (c :: q)) eqn:B.
    + rewrite pipeSpace_step, pipeBreak_blank by exact B.
      now rewrite trimStart_dropWhile.
    + rewrite pipeSpace_step, pipeBreak_nonblank by assumption.
      cbn [app]. rewrite IH by (intros Hin; apply H; now right).
      reflexivity.
Qed.

Lemma trimStart_piece (q more : jsstring) :
  trimStart (q ++ pipe :: more) = trimStart q ++ pipe :: more.
Proof.
  rewrite trimStart_app. destruct (trimStart q); [|reflexivity].
  cbn [trimStart app]. now rewrite pipe_not_space.
Qed.

Lemma trimStart_free (q : jsstring) : ~ In pipe q -> ~ In pipe (trimStart q).
Proof.
  intros H Hin. apply H. rewrite trimStart_dropWhile in Hin.
  now apply dropWhile_incl in Hin.
Qed.

Lemma trimEnd_incl (s : jsstring) : incl (trimEnd s) s.
Proof.
  induction s as [|c s IH]; [apply incl_nil_l|].
  rewrite trimEnd_cons. destruct (blank (c :: s)); [apply incl_nil_l|].
  apply incl_cons; [now left|]. now apply incl_tl.
Qed.

Lemma trim_incl (s : jsstring) : incl (trim s) s.
Proof.
  unfold trim. intros x Hx. apply trimEnd_incl in Hx.
  rewrite trimStart_dropWhile in Hx. now apply dropWhile_incl in Hx.
Qed.

(** The pipe spacing of a text given by its pieces, once leading white
    space is gone. *)
Lemma pipeSpace_pieces_end (qs : list jsstring) :
  Forall (fun q => ~ In pipe q) qs -> qs <> [] ->
  trimEnd (pipeSpace (trimStart (join [pipe] qs)))
  = trimEnd (join cellSep (map trim qs)).
Proof.
  induction 1 as [|q qs Hq Hqs IH]; intros Hne; [exfalso; now apply Hne|].
  destruct qs as [|q' qs'].
  - cbn [join map]. rewrite pipeSpace_free by now apply trimStart_free.
    unfold trim. now rewrite trimEnd_idem.
  - rewrite join_cons2. cbn [map]. rewrite join_cons2.
    change ([pipe] ++ join [pipe] (q' :: qs')) with (pipe :: join [pipe] (q' :: qs')).
    rewrite trimStart_piece, pipeSpace_piece by now apply trimStart_free.
    fold (trim q). rewrite !app_assoc.
    apply trimEnd_app_cong. apply IH. discriminate.
Qed.

Lemma pipeSpace_pieces_start (qs : list jsstring) :
  Forall (fun q => ~ In pipe q) qs -> qs <> [] ->
  trimStart (pipeSpace (join [pipe] qs))
  = trimStart (pipeSpace (trimStart (join [pipe] qs))).
Proof.
  intros Hqs Hne. destruct qs as [|q qs]; [exfalso; now apply Hne|].
  inversion Hqs as [|? ? Hq Hqs']; subst.
  destruct qs as [|q' qs'].
  - cbn [join]. rewrite !pipeSpace_free by (try apply trimStart_free; assumption).
    now rewrite trimStart_idem.
  - rewrite join_cons2.
    change ([pipe] ++ join [pipe] (q' :: qs')) with (pipe :: join [pipe] (q' :: qs')).
    rewrite trimStart_piece.
    rewrite !pipeSpace_piece by (try apply trimStart_free; assumption).
    rewrite !trimStart_app.
    rewrite (trim_commute (trimStart q)), trimStart_idem, <- trim_commute.
    reflexivity.
Qed.

(** The pipe spacing of a text given by its pieces, trimmed. *)
Lemma trim_pipeSpace_pieces (qs : list jsstring) :
  Forall (fun q => ~ In pipe q) qs -> qs <> [] ->
  trim (pipeSpace (join [pipe] qs)) = normalLine (map trim qs).
Proof.
  intros Hqs Hne. unfold normalLine, trim.
  rewrite pipeSpace_pieces_start by assumption.
  rewrite <- !trim_commute. f_equal.
  now apply pipeSpace_pieces_end.
Qed.

Lemma collapse_free (c : ascii) (s : jsstring) :
  c <> space -> ~ In c s -> ~ In c (collapse s).
Proof.
  intros Hc H Hin. apply collapse_incl in Hin.
  destruct Hin as [E|Hin]; [congruence|contradiction].
Qed.

Lemma pipe_neq_space : pipe <> space.
Proof. discriminate. Qed.

Lemma split_collapse (s : jsstring) :
  split pipe (collapse s) = map collapse (split pipe s).
Proof.
  induction s as [p Hp|p more Hp IH] using (pieces_ind pipe).
  - rewrite !split_free; [reflexivity|exact Hp|].
    apply collapse_free; [apply pipe_neq_space|exact Hp].
  - rewrite collapse_app_nonspace by apply pipe_not_space.
    rewrite !split_app_sep; [cbn [map]; now rewrite IH|exact Hp|].
    apply collapse_free; [apply pipe_neq_space|exact Hp].
Qed.

(** The normal form of a cleaned table line: its cells, trimmed and with
    collapsed white space, joined by the cell separator, and the whole
    trimmed. *)
Lemma cleanTableLine_normal (line : jsstring) :
  ~ In lt_sign line -> cleanTableLine line = normalLine (rawCells line).
Proof.
  intros Hlt. rewrite cleanTableLine_plain by exact Hlt.
  rewrite <- (join_split pipe (collapse line)), split_collapse.
  rewrite trim_pipeSpace_pieces.
  - unfold rawCells. now rewrite map_map.
  - apply Forall_forall. intros q Hq. apply in_map_iff in Hq.
    destruct Hq as (p & <- & Hp).
    apply collapse_free; [apply pipe_neq_space|].
    pose proof (split_pieces_free pipe line) as Hf.
    rewrite Forall_forall in Hf. now apply Hf.
  - intros E. apply map_eq_nil in E. now apply (split_not_nil pipe line).
Qed.

End PipeFacts.

(* ================================================================== *)
(** ** The cells of cleaned and of rendered lines *)

Section CellFacts.

Lemma map_trim_split_trimStart (s : jsstring) :
  map trim (split pipe (trimStart s)) = map trim (split pipe s).
Proof.
  destruct (first_sep pipe s) as [H|(p & more & -> & H)].
  - rewrite !split_free by (try apply trimStart_free; assumption).
    cbn [map]. now rewrite trim_trimStart.
  - rewrite trimStart_piece.
    rewrite !split_app_sep by (try apply trimStart_free; assumption).
    cbn [map]. now rewrite trim_trimStart.
Qed.

Lemma trimEnd_piece (p more : jsstring) :
  trimEnd (p ++ pipe :: more) = p ++ pipe :: trimEnd more.
Proof.
  rewrite trimEnd_app, trimEnd_cons.
  assert (blank (pipe :: more) = false) as -> by reflexivity.
  reflexivity.
Qed.

Lemma trimEnd_free (q : jsstring) : ~ In pipe q -> ~ In pipe (trimEnd q).
Proof. intros H Hin. apply H. now apply trimEnd_incl in Hin. Qed.

Lemma map_trim_split_trimEnd (s : jsstring) :
  map trim (split pipe (trimEnd s)) = map trim (split pipe s).
Proof.
  induction s as [p Hp|p more Hp IH] using (pieces_ind pipe).
  - rewrite !split_free by (try apply trimEnd_free; assumption).
    cbn [map]. now rewrite trim_trimEnd.
  - rewrite trimEnd_piece, !split_app_sep by assumption.
    cbn [map]. now rewrite IH.
Qed.

Lemma map_trim_split_trim (s : jsstring) :
  map trim (split pipe (trim s)) = map trim (split pipe s).
Proof.
  unfold trim. now rewrite map_trim_split_trimEnd, map_trim_split_trimStart.
Qed.

Lemma blank_space : blank [space] = true.
Proof. reflexivity. Qed.

(** The pieces of joined cells, whatever white space comes first. *)
Lemma map_trim_split_join (cs : list jsstring) :
  Forall (fun c => ~ In pipe c /\ trim c = c) cs -> cs <> [] ->
  forall w, blank w = true ->
    map trim (split pipe (w ++ join cellSep cs)) = cs.
Proof.
  induction 1 as [|c cs [Hc Ht] Hcs IH]; intros Hne w Hw;
    [exfalso; now apply Hne|].
  destruct cs as [|c' cs'].
  - cbn [join]. rewrite split_free.
    + cbn [map]. pose proof (trim_padded w c [] Hw eq_refl) as P.
      rewrite app_nil_r in P. now rewrite P, Ht.
    + intros Hin. apply in_app_or in Hin. destruct Hin as [Hin|Hin]; [|auto].
      unfold blank in Hw. rewrite forallb_forall in Hw.
      specialize (Hw _ Hin). discriminate.
  - rewrite join_cons2. unfold cellSep at 1.
    change (w ++ c ++ [space; pipe; space] ++ join cellSep (c' :: cs'))
      with (w ++ c ++ [space] ++ pipe :: ([space] ++ join cellSep (c' :: cs'))).
    rewrite !app_assoc. rewrite split_app_sep.
    + cbn [map]. rewrite <- app_assoc.
      rewrite (trim_padded w c [space] Hw eq_refl), Ht. f_equal.
      apply IH; [discriminate|reflexivity].
    + intros Hin. apply in_app_or in Hin. destruct Hin as [Hin|[E|[]]];
        [|discriminate].
      apply in_app_or in Hin. destruct Hin as [Hin|Hin]; [|auto].
      unfold blank in Hw. rewrite forallb_forall in Hw.
      specialize (Hw _ Hin). discriminate.
Qed.

(** The cells read back from a normal line. *)
Lemma map_trim_split_normalLine (cs : list jsstring) :
  Forall (fun c => ~ In pipe c /\ trim c = c) cs -> cs <> [] ->
  map trim (split pipe (normalLine cs)) = cs.
Proof.
  intros Hcs Hne. unfold normalLine. rewrite map_trim_split_trim.
  apply (map_trim_split_join cs Hcs Hne []). reflexivity.
Qed.

Lemma rawCells_fine (line : jsstring) :
  Forall (fun c => ~ In pipe c /\ trim c = c) (rawCells line).
Proof.
  unfold rawCells. apply Forall_forall. intros c Hc.
  apply in_map_iff in Hc. destruct Hc as (p & <- & Hp). split.
  - intros Hin. apply trim_incl in Hin.
    revert Hin. apply collapse_free; [apply pipe_neq_space|].
    pose proof (split_pieces_free pipe line) as Hf.
    rewrite Forall_forall in Hf. now apply Hf.
  - apply trim_idem.
Qed.

Lemma rawCells_not_nil (line : jsstring) : rawCells line <> [].
Proof.
  unfold rawCells. intros E. apply map_eq_nil in E.
  now apply (split_not_nil pipe line).
Qed.

(** The cells of a cleaned line. *)
Lemma parseCells_cleanTableLine (line : jsstring) :
  ~ In lt_sign line ->
  parseCells (cleanTableLine line) = dropEdges (rawCells line).
Proof.
  intros Hlt. unfold parseCells, dropEdges.
  rewrite cleanTableLine_normal by exact Hlt.
  rewrite map_trim_split_normalLine;
    [reflexivity|apply rawCells_fine|apply rawCells_not_nil].
Qed.

End CellFacts.

(* ================================================================== *)
(** ** The separator pattern *)

Section SeparatorFacts.

Lemma star_loop_only (P : ascii -> Prop)
    (step : mstate -> (mstate -> option mstate) -> option mstate) :
  (forall st k x, step st k = Some x ->
     exists st' u, after st = u ++ after st' /\ Forall P u /\ k st' = Some x) ->
  forall fuel st k x,
    star_loop step fuel st k = Some x ->
    exists st' u, after st = u ++ after st' /\ Forall P u /\ k st' = Some x.
Proof.
  intros Hstep. induction fuel as [|fuel IH]; intros st k x H;
    cbn [star_loop] in H.
  - exists st, []. auto.
  - unfold orElse in H.
    destruct (step st _) as [y|] eqn:E.
    + injection H as ->.
      apply Hstep in E. destruct E as (st1 & u1 & Ha & Hb & Hk).
      destruct (length (after st1) <? length (after st)); [|discriminate].
      apply IH in Hk. destruct Hk as (st2 & u2 & Ha2 & Hb2 & Hk2).
      exists st2, (u1 ++ u2). repeat split.
      * now rewrite Ha, Ha2, app_assoc.
      * apply Forall_app. auto.
      * exact Hk2.
    + exists st, []. auto.
Qed.

Lemma rmatch_only (P : ascii -> Prop) (r : regex) :
  only P r ->
  forall st k x,
    rmatch r st k = Some x ->
    exists st' u, after st = u ++ after st' /\ Forall P u /\ k st' = Some x.
Proof.
  induction r as [|a|p|r1 IH1 r2 IH2|r1 IH1|r1 IH1|r1 IH1|n r1 IH1|m|m|p|r1 IH1];
    intros Ho st k x H; cbn [rmatch] in H; cbn [only] in Ho.
  - exists st, []. auto.
  - destruct (after st) as [|y s'] eqn:E; [discriminate|].
    destruct (chr_eqb y a) eqn:Ey; [|discriminate].
    apply Ascii.eqb_eq in Ey. subst y.
    exists (MState (a :: before st) s' (groups st)), [a]. cbn. auto.
  - destruct (after st) as [|y s'] eqn:E; [discriminate|].
    destruct (p y) eqn:Ey; [|discriminate].
    exists (MState (y :: before st) s' (groups st)), [y]. cbn. auto.
  - destruct Ho as [Ho1 Ho2].
    apply (IH1 Ho1) in H. destruct H as (st1 & u1 & Ha1 & Hb1 & H).
    apply (IH2 Ho2) in H. destruct H as (st2 & u2 & Ha2 & Hb2 & H).
    exists st2, (u1 ++ u2). repeat split.
    + now rewrite Ha1, Ha2, app_assoc.
    + apply Forall_app. auto.
    + exact H.
  - unfold orElse in H. destruct (rmatch r1 st k) as [y|] eqn:E.
    + injection H as ->. now apply (IH1 Ho) in E.
    + exists st, []. auto.
  - apply (star_loop_only P) in H; [exact H|].
    intros st0 k0 x0 H0. now apply (IH1 Ho) in H0.
  - apply (IH1 Ho) in H. destruct H as (st1 & u1 & Ha1 & Hb1 & H).
    apply (star_loop_only P) in H.
    + destruct H as (st2 & u2 & Ha2 & Hb2 & H).
      exists st2, (u1 ++ u2). repeat split.
      * now rewrite Ha1, Ha2, app_assoc.
      * apply Forall_app. auto.
      * exact H.
    + intros st0 k0 x0 H0. now apply (IH1 Ho) in H0.
  - apply (IH1 Ho) in H. destruct H as (st1 & u1 & Ha1 & Hb1 & H).
    eexists (MState (before st1) (after st1) _), u1. cbn. eauto.
  - exists st, []. destruct (before st) as [|y b'].
    + auto.
    + destruct (m && isLineTerminator y); [auto|discriminate].
  - exists st, []. destruct (after st) as [|y b'].
    + auto.
    + destruct (m && isLineTerminator y); [auto|discriminate].
  - exists st, []. destruct (before st) as [|y b']; [discriminate|].
    destruct (p y); [auto|discriminate].
  - exists st, []. destruct (rmatch r1 st Some); [auto|discriminate].
Qed.

Lemma space_sepChar (x : ascii) : isSpace x = true -> sepChar x = true.
Proof. unfold sepChar. now intros ->. Qed.

(** A separator line holds nothing but white space, dashes and pipes. *)
Lemma match_here_separator (st : mstate) (x : mstate) :
  match_here re_separator st = Some x ->
  before st = [] /\ Forall (fun c => sepChar c = true) (after st).
Proof.
  unfold match_here, re_separator. cbn [seqs]. intros H.
  rewrite rmatch_Seq, rmatch_Bol in H. cbn [before andb] in H.
  destruct (before st) as [|y b] eqn:Eb; [|discriminate]. split; [reflexivity|].
  change (rmatch (Seq (Star ws) (Seq (Chr pipe) (Seq (Star (Cls sepChar))
            (Seq (Chr pipe) (Seq (Star ws) (Seq (Eol false) Emp))))))
            (MState [] (after st) []) Some)
    with (rmatch (Seq (Star ws) (Seq (Chr pipe) (Seq (Star (Cls sepChar))
            (Seq (Chr pipe) (Seq (Star ws) Emp)))))
            (MState [] (after st) [])
            (fun st' => rmatch (Seq (Eol false) Emp) st' Some)) in H.
  apply (rmatch_only (fun c => sepChar c = true)) in H.
  - destruct H as (st' & u & Ha & Hu & Hk).
    rewrite rmatch_Seq, rmatch_Eol in Hk. cbn [andb] in Hk.
    destruct (after st') as [|z r]; [|discriminate].
    cbn [after] in Ha. rewrite app_nil_r in Ha. now rewrite Ha.
  - cbn [only]. unfold ws. cbn [only].
    repeat split; auto using space_sepChar.
Qed.

Lemma search_from_anchored (r : regex) :
  (forall st x, match_here r st = Some x -> before st = []) ->
  forall fuel st, before st <> [] -> search_from r fuel st = None.
Proof.
  intros Hr. induction fuel as [|fuel IH]; intros st Hb; [reflexivity|].
  cbn [search_from].
  destruct (match_here r st) as [x|] eqn:E.
  - apply Hr in E. contradiction.
  - unfold advance. destruct (after st) as [|c t]; [reflexivity|].
    apply IH. cbn. discriminate.
Qed.

Lemma test_separator_chars (line : jsstring) :
  test re_separator line = true ->
  Forall (fun c => sepChar c = true) line.
Proof.
  unfold test. cbn [search_from].
  destruct (match_here re_separator (start_state line)) as [x|] eqn:E.
  - intros _. now apply match_here_separator in E.
  - unfold advance. cbn [after start_state before].
    destruct line as [|c t]; [discriminate|].
    rewrite (search_from_anchored re_separator); [discriminate| |cbn; discriminate].
    intros st x H. now apply match_here_separator in H.
Qed.

(** A line of separator characters between two pipes is a separator
    line. *)
Lemma test_separator_between_pipes (mid : jsstring) :
  Forall (fun c => sepChar c = true) mid ->
  test re_separator (pipe :: mid ++ [pipe]) = true.
Proof.
  intros Hmid. unfold test. cbn [search_from].
  assert (exists y, match_here re_separator (start_state (pipe :: mid ++ [pipe]))
                    = Some y) as (y & ->); [|reflexivity].
  unfold match_here, re_separator, start_state. cbn [seqs before after].
  rewrite rmatch_Seq, rmatch_Bol. cbn [before].
  (* the end of the pattern, at the last pipe *)
  assert (forall b, exists y,
            rmatch (Seq (Chr pipe) (Seq (Star ws) (Seq (Eol false) Emp)))
                   (MState b [pipe] []) Some = Some y) as Hend.
  { intros b. eexists. rewrite rmatch_Seq, rmatch_Chr_cons.
    unfold chr_eqb. rewrite Ascii.eqb_refl. rewrite rmatch_Seq.
    unfold ws. apply star_cls_longest. reflexivity. }
  (* the run of separator characters *)
  assert (forall b, exists y,
            rmatch (Seq (Star (Cls sepChar))
                      (Seq (Chr pipe) (Seq (Star ws) (Seq (Eol false) Emp))))
                   (MState b (mid ++ [pipe]) []) Some = Some y) as Hrun.
  { intros b.
    replace (MState b (mid ++ [pipe]) []) with (MState b ((mid ++ [pipe]) ++ []) [])
      by now rewrite app_nil_r.
    rewrite rmatch_Seq, rmatch_Star. cbn [after].
    rewrite star_cls.
    - destruct (Hend (rev mid ++ b)) as (y & Hy).
      eapply (backtrack_accepts _ _ _ _ _ mid [pipe]); [reflexivity|].
      unfold splitAt. rewrite app_nil_r. exact Hy.
    - apply Forall_app. split; [exact Hmid|]. now constructor.
    - exact I.
    - rewrite app_nil_r. lia. }
  destruct (Hrun [pipe]) as (y & Hy). exists y.
  rewrite rmatch_Seq. unfold ws. apply star_cls_longest.
  cbn [takeWhile dropWhile]. rewrite pipe_not_space. cbn [rev app].
  rewrite rmatch_Seq, rmatch_Chr_cons.
  unfold chr_eqb. rewrite Ascii.eqb_refl. exact Hy.
Qed.

End SeparatorFacts.

(* ================================================================== *)
(** ** Rendered lines read again *)

Section RenderedFacts.

Lemma tableLine_eq (cs : list jsstring) :
  tableLine cs = pipe :: space :: join cellSep cs ++ [space; pipe].
Proof. reflexivity. Qed.

Lemma join_snoc_nil (cs : list jsstring) :
  cs <> [] -> join cellSep (cs ++ [[]]) = join cellSep cs ++ cellSep.
Proof.
  induction cs as [|c cs IH]; intros Hne; [exfalso; now apply Hne|].
  destruct cs as [|c' cs'].
  - cbn [app join]. now rewrite app_nil_r.
  - cbn [app]. rewrite !join_cons2. cbn [app] in IH.
    rewrite IH by discriminate. now rewrite !app_assoc.
Qed.

Lemma normalLine_edges (cs : list jsstring) :
  cs <> [] -> normalLine ([] :: cs ++ [[]]) = tableLine cs.
Proof.
  intros Hne. unfold normalLine.
  destruct cs as [|c cs']; [exfalso; now apply Hne|].
  change ([] :: (c :: cs') ++ [[]]) with ([] :: c :: (cs' ++ [[]])).
  rewrite join_cons2. change (c :: cs' ++ [[]]) with ((c :: cs') ++ [[]]).
  rewrite join_snoc_nil by discriminate.
  rewrite tableLine_eq. set (J := join cellSep (c :: cs')).
  unfold trim. cbn [app cellSep trimStart].
  change (isSpace space) with true. cbn iota. rewrite pipe_not_space.
  replace (pipe :: space :: J ++ cellSep)
    with ((pipe :: space :: J ++ [space; pipe]) ++ [space])
    by (cbn [app]; rewrite <- app_assoc; reflexivity).
  rewrite trimEnd_app. change (trimEnd [space]) with (@nil ascii). cbn iota.
  apply trimEnd_fixed. unfold endsNonSpace.
  change (pipe :: space :: J ++ [space; pipe])
    with ((pipe :: space :: J) ++ [space; pipe]).
  rewrite rev_app_distr. reflexivity.
Qed.

Lemma wrapped_last (x : jsstring) :
  space :: x ++ [space; pipe] = wrapCell x ++ [pipe].
Proof. unfold wrapCell. cbn [app]. now rewrite <- app_assoc. Qed.

Lemma wrapped_cons (x J : jsstring) :
  space :: (x ++ cellSep ++ J) ++ [space; pipe]
  = wrapCell x ++ pipe :: (space :: J ++ [space; pipe]).
Proof.
  unfold wrapCell, cellSep. cbn [app]. rewrite <- !app_assoc. reflexivity.
Qed.

Lemma split_wrapped (xs : list jsstring) :
  Forall (fun x => ~ In pipe x) xs -> xs <> [] ->
  split pipe (space :: join cellSep xs ++ [space; pipe])
  = map wrapCell xs ++ [[]].
Proof.
  induction 1 as [|x xs Hx Hxs IH]; intros Hne; [exfalso; now apply Hne|].
  assert (~ In pipe (wrapCell x)) as Hw.
  { unfold wrapCell. intros [E|Hin]; [discriminate|].
    apply in_app_or in Hin. destruct Hin as [Hin|[E|[]]]; [auto|discriminate]. }
  destruct xs as [|x' xs'].
  - cbn [join map app]. rewrite wrapped_last.
    rewrite (split_app_sep pipe (wrapCell x) []) by exact Hw.
    reflexivity.
  - rewrite join_cons2. cbn [map]. rewrite wrapped_cons.
    rewrite split_app_sep by exact Hw.
    cbn [map app]. f_equal. apply IH. discriminate.
Qed.

Lemma split_tableLine (xs : list jsstring) :
  Forall (fun x => ~ In pipe x) xs -> xs <> [] ->
  split pipe (tableLine xs) = [] :: map wrapCell xs ++ [[]].
Proof.
  intros Hxs Hne. rewrite tableLine_eq, split_sep_cons.
  now rewrite split_wrapped.
Qed.

Lemma blank_repeat_space (k : nat) : blank (repeat space k) = true.
Proof. induction k as [|k IH]; [reflexivity|exact IH]. Qed.

Lemma paddedFrom_free (c : ascii) (x cell : jsstring) :
  c <> space -> paddedFrom x cell -> ~ In c cell -> ~ In c x.
Proof.
  intros Hc (k & ->) Hcell Hin. apply in_app_or in Hin.
  destruct Hin as [Hin|Hin]; [auto|].
  apply repeat_spec in Hin. congruence.
Qed.

Lemma trim_collapse_wrapped (x cell : jsstring) :
  paddedFrom x cell -> stableCell cell ->
  trim (collapse (wrapCell x)) = cell.
Proof.
  intros (k & ->) (_ & _ & Htrim & Htidy). unfold wrapCell.
  change (space :: (cell ++ repeat space k) ++ [space])
    with ([space] ++ (cell ++ repeat space k) ++ [space]).
  rewrite <- app_assoc.
  rewrite trim_collapse_padded.
  - now rewrite collapse_tidy, Htrim.
  - reflexivity.
  - rewrite blank_app, blank_repeat_space. reflexivity.
Qed.

(** The raw cells of a rendered line. *)
Lemma rawCells_tableLine (xs cells : list jsstring) :
  Forall2 paddedFrom xs cells -> Forall stableCell cells -> cells <> [] ->
  rawCells (tableLine xs) = [] :: cells ++ [[]].
Proof.
  intros Hpad Hst Hne. unfold rawCells.
  rewrite split_tableLine.
  - cbn [map]. rewrite map_app, map_map. cbn [map].
    change (trim (collapse [])) with (@nil ascii). do 2 f_equal.
    clear Hne. induction Hpad as [|x c xs cs Hxc Hrest IH]; [reflexivity|].
    inversion Hst; subst. cbn [map].
    rewrite (trim_collapse_wrapped x c) by assumption. now rewrite IH.
  - clear Hne. induction Hpad as [|x c xs cs Hxc Hrest IH]; [constructor|].
    inversion Hst as [|? ? Hc Hcs]; subst. constructor; [|now apply IH].
    apply (paddedFrom_free pipe x c); [discriminate|exact Hxc|]. apply Hc.
  - intros ->. inversion Hpad; subst. now apply Hne.
Qed.

Lemma tableLine_free (c : ascii) (xs : list jsstring) :
  c <> space -> c <> pipe -> Forall (fun x => ~ In c x) xs ->
  ~ In c (tableLine xs).
Proof.
  intros Hs Hp Hxs. rewrite tableLine_eq.
  intros [E|[E|Hin]]; [congruence|congruence|].
  apply in_app_or in Hin. destruct Hin as [Hin|[E|[E|[]]]]; [|congruence|congruence].
  induction Hxs as [|x xs Hx Hrest IH]; [destruct Hin|].
  destruct xs as [|x' xs'].
  - cbn [join] in Hin. auto.
  - rewrite join_cons2 in Hin. apply in_app_or in Hin.
    destruct Hin as [Hin|Hin]; [auto|].
    apply in_app_or in Hin. destruct Hin as [[E|[E|[E|[]]]]|Hin];
      [congruence|congruence|congruence|auto].
Qed.

(** A rendered line is cleaned into the line of its cells. *)
Lemma cleanTableLine_tableLine (xs cells : list jsstring) :
  Forall2 paddedFrom xs cells -> Forall stableCell cells -> cells <> [] ->
  cleanTableLine (tableLine xs) = tableLine cells.
Proof.
  intros Hpad Hst Hne.
  rewrite cleanTableLine_normal.
  - rewrite (rawCells_tableLine xs cells) by assumption.
    now apply normalLine_edges.
  - apply tableLine_free; [discriminate|discriminate|].
    clear Hne. induction Hpad as [|x c xs cs Hxc Hrest IH]; [constructor|].
    inversion Hst as [|? ? Hc Hcs]; subst. constructor; [|now apply IH].
    apply (paddedFrom_free lt_sign x c); [discriminate|exact Hxc|]. apply Hc.
Qed.

Lemma filter_index_inner {A} (f : A -> nat -> bool) (l : list A) :
  forall i, (forall x j, In x l -> i <= j < i + length l -> f x j = true) ->
            filter_index f i l = l.
Proof.
  induction l as [|x l IH]; intros i H; [reflexivity|].
  cbn [filter_index]. rewrite H; [|now left|cbn; lia].
  f_equal. apply IH. intros y j Hy Hj. apply H; [now right|cbn; lia].
Qed.

Lemma filter_index_app {A} (f : A -> nat -> bool) (l1 l2 : list A) :
  forall i, filter_index f i (l1 ++ l2)
            = filter_index f i l1 ++ filter_index f (i + length l1) l2.
Proof.
  induction l1 as [|x l1 IH]; intros i.
  - cbn. now rewrite Nat.add_0_r.
  - cbn [app filter_index length]. rewrite IH.
    replace (S i + length l1) with (i + S (length l1)) by lia.
    destruct (f x i); reflexivity.
Qed.

Lemma filter_edges (last : nat) (cells : list jsstring) :
  last = S (length cells) ->
  filter_index
    (fun cell index =>
       negb (negb (truthy cell) && ((index =? 0) || (index =? last))))
    0 ([] :: cells ++ [[]])
  = cells.
Proof.
  intros ->. cbn [filter_index truthy negb andb Nat.eqb orb].
  rewrite filter_index_app, filter_index_inner.
  - cbn [filter_index truthy negb andb Nat.add].
    rewrite Nat.eqb_refl, orb_true_r. cbn [negb]. apply app_nil_r.
  - intros x j _ Hj.
    replace (j =? 0) with false by (symmetry; apply Nat.eqb_neq; lia).
    replace (j =? S (length cells)) with false
      by (symmetry; apply Nat.eqb_neq; lia).
    cbn [orb]. now rewrite andb_false_r.
Qed.

Lemma dropEdges_edges (cells : list jsstring) :
  dropEdges ([] :: cells ++ [[]]) = cells.
Proof.
  unfold dropEdges. apply filter_edges.
  cbn [length]. rewrite length_app. cbn [length]. lia.
Qed.

Lemma stableCell_nil : stableCell [].
Proof. repeat split; auto. Qed.

Lemma paddedFrom_refl (c : jsstring) : paddedFrom c c.
Proof. exists 0. cbn. now rewrite app_nil_r. Qed.

Lemma Forall2_paddedFrom_refl (cells : list jsstring) :
  Forall2 paddedFrom cells cells.
Proof. induction cells; constructor; auto using paddedFrom_refl. Qed.

(** The cells read from the line of stable cells. *)
Lemma parseCells_tableLine (cells : list jsstring) :
  Forall stableCell cells -> cells <> [] ->
  parseCells (tableLine cells) = cells.
Proof.
  intros Hst Hne.
  rewrite <- (cleanTableLine_tableLine cells cells) at 1
    by (assumption || apply Forall2_paddedFrom_refl).
  rewrite parseCells_cleanTableLine.
  - rewrite (rawCells_tableLine cells cells)
      by (assumption || apply Forall2_paddedFrom_refl).
    apply dropEdges_edges.
  - apply tableLine_free; [discriminate|discriminate|].
    eapply Forall_impl; [|exact Hst]. intros c Hc. apply Hc.
Qed.

Lemma trim_tableLine (cs : list jsstring) : trim (tableLine cs) = tableLine cs.
Proof.
  rewrite tableLine_eq. unfold trim. cbn [trimStart]. rewrite pipe_not_space.
  apply trimEnd_fixed. unfold endsNonSpace.
  change (pipe :: space :: join cellSep cs ++ [space; pipe])
    with ((pipe :: space :: join cellSep cs) ++ [space; pipe]).
  rewrite rev_app_distr. reflexivity.
Qed.

End RenderedFacts.

(* ================================================================== *)
(** ** A table region formatted twice *)

Section RegionFacts.

Lemma fold_pushRow (tableLines : list jsstring) :
  forall rows, fold_left pushRow tableLines rows = rows ++ flat_map rowOf tableLines.
Proof.
  induction tableLines as [|line ls IH]; intros rows; cbn [fold_left flat_map].
  - now rewrite app_nil_r.
  - rewrite IH. unfold pushRow, rowOf.
    destruct (truthy (trim line) && negb (test re_separator line)).
    + destruct (0 <? length (parseCells line)).
      * now rewrite <- app_assoc.
      * reflexivity.
    + reflexivity.
Qed.

Lemma parseRows_flat_map (tableLines : list jsstring) :
  parseRows tableLines = flat_map rowOf tableLines.
Proof. unfold parseRows. now rewrite fold_pushRow. Qed.

Lemma filter_index_incl {A} (f : A -> nat -> bool) (l : list A) :
  forall i, incl (filter_index f i l) l.
Proof.
  induction l as [|x l IH]; intros i; [apply incl_refl|].
  cbn [filter_index]. destruct (f x i).
  - apply incl_cons; [now left|]. apply incl_tl, IH.
  - apply incl_tl, IH.
Qed.

Lemma rawCells_stable (line : jsstring) :
  ~ In lt_sign line -> Forall stableCell (rawCells line).
Proof.
  intros Hlt. pose proof (rawCells_fine line) as Hf.
  rewrite Forall_forall in Hf |- *. intros c Hc.
  destruct (Hf c Hc) as [Hp Ht]. repeat split; auto.
  - unfold rawCells in Hc. apply in_map_iff in Hc.
    destruct Hc as (p & <- & Hp'). intros Hin. apply trim_incl in Hin.
    revert Hin. apply collapse_free; [discriminate|].
    intros Hin. apply Hlt. rewrite <- (join_split pipe line).
    clear - Hin Hp'. induction (split pipe line) as [|q qs IH]; [destruct Hp'|].
    destruct qs as [|q' qs'].
    + destruct Hp' as [->|[]]. exact Hin.
    + rewrite join_cons2. apply in_or_app.
      destruct Hp' as [->|Hp']; [now left|]. right. right. now apply IH.
  - unfold rawCells in Hc. apply in_map_iff in Hc.
    destruct Hc as (p & <- & _). apply tidy_trim, tidy_collapse.
Qed.

(** The rows of the first pass hold stable cells. *)
Lemma parseRows_stable (raw : list jsstring) :
  Forall (fun l => ~ In lt_sign l) raw ->
  Forall (fun row => row <> [] /\ Forall stableCell row)
         (parseRows (map cleanTableLine raw)).
Proof.
  intros Hraw. rewrite parseRows_flat_map.
  induction Hraw as [|l raw Hl _ IH]; [constructor|].
  cbn [map flat_map]. apply Forall_app. split; [|exact IH].
  unfold rowOf. destruct (_ && _); [|constructor].
  destruct (0 <? length (parseCells (cleanTableLine l))) eqn:E; [|constructor].
  constructor; [|constructor]. split.
  - intros Hnil. rewrite Hnil in E. discriminate.
  - rewrite parseCells_cleanTableLine by exact Hl.
    pose proof (rawCells_stable l Hl) as Hst.
    rewrite Forall_forall in Hst |- *. intros c Hc.
    apply Hst. unfold dropEdges in Hc. now apply filter_index_incl in Hc.
Qed.

Lemma cellAt_stable (row : list jsstring) (col : nat) :
  Forall stableCell row -> stableCell (cellAt row col).
Proof.
  intros Hrow. unfold cellAt.
  destruct (nth_error row col) as [cell|] eqn:E; [|apply stableCell_nil].
  destruct (truthy cell); [|apply stableCell_nil].
  rewrite Forall_forall in Hrow. apply Hrow. now apply nth_error_In in E.
Qed.

Lemma fullRow_stable (maxColumns : nat) (row : list jsstring) :
  Forall stableCell row -> Forall stableCell (fullRow maxColumns row).
Proof.
  intros Hrow. unfold fullRow. apply Forall_forall. intros c Hc.
  apply in_map_iff in Hc. destruct Hc as (col & <- & _).
  now apply cellAt_stable.
Qed.

Lemma fullRow_length (maxColumns : nat) (row : list jsstring) :
  length (fullRow maxColumns row) = maxColumns.
Proof. unfold fullRow. now rewrite length_map, length_seq. Qed.

Lemma fullRow_not_nil (maxColumns : nat) (row : list jsstring) :
  0 < maxColumns -> fullRow maxColumns row <> [].
Proof.
  intros H E. apply (f_equal (@length jsstring)) in E.
  rewrite fullRow_length in E. cbn in E. lia.
Qed.

(** A cell that fits its column is padded. *)
Lemma formatCell_fits (cell : jsstring) (width : number) :
  leb (ofNat (length cell)) width = true ->
  paddedFrom (formatCell cell width) cell.
Proof.
  intros H. unfold formatCell. rewrite H. unfold padEnd, repeat1. eexists.
  reflexivity.
Qed.

Lemma formatRow_padded (maxColumns : nat) (columnWidths : list number)
    (row : list jsstring) :
  forallb (fun col => leb (ofNat (length (cellAt row col)))
                          (nth col columnWidths 0%Q))
          (seq 0 maxColumns) = true ->
  exists xs, formatRow maxColumns columnWidths row = tableLine xs /\
             Forall2 paddedFrom xs (fullRow maxColumns row).
Proof.
  intros H. unfold formatRow, fullRow. eexists. split; [reflexivity|].
  rewrite forallb_forall in H.
  induction (seq 0 maxColumns) as [|col cols IH]; [constructor|].
  cbn [map]. constructor.
  - apply formatCell_fits, H. now left.
  - apply IH. intros c Hc. apply H. now right.
Qed.

Lemma in_join (sep x : jsstring) (c : ascii) (cs : list jsstring) :
  In x cs -> In c x -> In c (join sep cs).
Proof.
  intros Hx Hc. induction cs as [|y cs IH]; [destruct Hx|].
  destruct cs as [|y' cs'].
  - destruct Hx as [->|[]]. exact Hc.
  - rewrite join_cons2. apply in_or_app.
    destruct Hx as [->|Hx]; [now left|]. right. apply in_or_app. right.
    now apply IH.
Qed.

Lemma in_tableLine (x : jsstring) (c : ascii) (cs : list jsstring) :
  In x cs -> In c x -> In c (tableLine cs).
Proof.
  intros Hx Hc. rewrite tableLine_eq. right. right.
  apply in_or_app. left. now apply (in_join _ x).
Qed.

Lemma tableLine_not_separator (cs : list jsstring) :
  rowHasText cs = true -> test re_separator (tableLine cs) = false.
Proof.
  intros H. unfold rowHasText in H. apply existsb_exists in H.
  destruct H as (cell & Hcell & H). apply existsb_exists in H.
  destruct H as (c & Hc & Hsep). apply negb_true_iff in Hsep.
  destruct (test re_separator (tableLine cs)) eqn:E; [|reflexivity].
  apply test_separator_chars in E. rewrite Forall_forall in E.
  rewrite (E c) in Hsep; [discriminate|].
  now apply (in_tableLine cell).
Qed.

Lemma rowHasText_fullRow (maxColumns : nat) (row : list jsstring) :
  length row <= maxColumns -> rowHasText row = true ->
  rowHasText (fullRow maxColumns row) = true.
Proof.
  intros Hlen H. unfold rowHasText in *. apply existsb_exists in H.
  destruct H as (cell & Hcell & H). apply existsb_exists.
  exists cell. split; [|exact H].
  apply In_nth_error in Hcell. destruct Hcell as (col & Hcol).
  unfold fullRow. apply in_map_iff. exists col. split.
  - unfold cellAt. rewrite Hcol.
    destruct cell as [|c cell']; [discriminate H|reflexivity].
  - apply in_seq.
    assert (col < length row) by (apply nth_error_Some; rewrite Hcol; discriminate).
    lia.
Qed.

(** A rendered row is read back as the full row. *)
Lemma rowOf_rendered (xs cells : list jsstring) :
  Forall2 paddedFrom xs cells -> Forall stableCell cells -> cells <> [] ->
  rowHasText cells = true ->
  rowOf (cleanTableLine (tableLine xs)) = [cells].
Proof.
  intros Hpad Hst Hne Htext.
  rewrite (cleanTableLine_tableLine xs cells) by assumption.
  unfold rowOf. rewrite trim_tableLine, tableLine_not_separator by exact Htext.
  rewrite parseCells_tableLine by assumption.
  destruct cells; [exfalso; now apply Hne|reflexivity].
Qed.

Lemma stableCell_dashes (n : nat) : stableCell (repeat1 dash n).
Proof.
  unfold repeat1. repeat split.
  - intros Hin. apply repeat_spec in Hin. discriminate.
  - intros Hin. apply repeat_spec in Hin. discriminate.
  - unfold trim. rewrite trimStart_fixed.
    + apply trimEnd_fixed. unfold endsNonSpace.
      destruct n as [|n]; [exact I|]. rewrite repeat_snoc, rev_app_distr.
      reflexivity.
    + destruct n; [exact I|reflexivity].
  - induction n as [|n IH]; [reflexivity|]. cbn [repeat tidy].
    change (isSpace dash) with false. cbn iota. exact IH.
Qed.

Lemma join_sepChars (cs : list jsstring) :
  Forall (Forall (fun c => sepChar c = true)) cs ->
  Forall (fun c => sepChar c = true) (join cellSep cs).
Proof.
  induction 1 as [|c cs Hc Hcs IH]; [constructor|].
  destruct cs as [|c' cs'].
  - exact Hc.
  - rewrite join_cons2. apply Forall_app. split; [exact Hc|].
    apply Forall_app. split; [|exact IH].
    repeat constructor.
Qed.

(** The separator line gives no row. *)
Lemma rowOf_separatorLine (columnWidths : list number) :
  columnWidths <> [] ->
  rowOf (cleanTableLine (separatorLine columnWidths)) = [].
Proof.
  intros Hne. unfold separatorLine.
  set (ds := map (fun width => repeat1 dash (toLength width)) columnWidths).
  assert (Forall stableCell ds) as Hst.
  { subst ds. apply Forall_forall. intros d Hd. apply in_map_iff in Hd.
    destruct Hd as (w & <- & _). apply stableCell_dashes. }
  assert (ds <> []) as Hds.
  { subst ds. intros E. apply map_eq_nil in E. contradiction. }
  rewrite (cleanTableLine_tableLine ds ds)
    by (assumption || apply Forall2_paddedFrom_refl).
  unfold rowOf.
  assert (test re_separator (tableLine ds) = true) as ->.
  { rewrite tableLine_eq.
    change (pipe :: space :: join cellSep ds ++ [space; pipe])
      with (pipe :: (space :: join cellSep ds ++ [space; pipe])).
    replace (space :: join cellSep ds ++ [space; pipe])
      with ((space :: join cellSep ds ++ [space]) ++ [pipe])
      by (cbn [app]; now rewrite <- app_assoc).
    apply test_separator_between_pipes.
    constructor; [reflexivity|]. apply Forall_app. split; [|repeat constructor].
    apply join_sepChars. subst ds. apply Forall_forall. intros d Hd.
    apply in_map_iff in Hd. destruct Hd as (w & <- & _).
    apply Forall_forall. intros c Hc. apply repeat_spec in Hc. now subst. }
  now rewrite andb_false_r.
Qed.

End RegionFacts.

Section SecondPassFacts.

Lemma list_max_const (l : list nat) (m : nat) :
  l <> [] -> (forall x, In x l -> x = m) -> list_max l = m.
Proof.
  intros Hne H. destruct l as [|x l]; [exfalso; now apply Hne|].
  assert (list_max (x :: l) <= m) as Hle.
  { apply list_max_le. apply Forall_forall. intros y Hy. rewrite (H y Hy). lia. }
  assert (m <= list_max (x :: l)) as Hge.
  { rewrite <- (H x) by now left. cbn. lia. }
  lia.
Qed.

Lemma maxColumnsOf_fullRows (m : nat) (rows : list (list jsstring)) :
  rows <> [] -> maxColumnsOf (map (fullRow m) rows) = m.
Proof.
  intros Hne. unfold maxColumnsOf. apply list_max_const.
  - intros E. apply map_eq_nil in E. apply map_eq_nil in E. contradiction.
  - intros x Hx. apply in_map_iff in Hx. destruct Hx as (r & <- & Hr).
    apply in_map_iff in Hr. destruct Hr as (row & <- & _).
    apply fullRow_length.
Qed.

Lemma row_length_le (rows : list (list jsstring)) (row : list jsstring) :
  In row rows -> length row <= maxColumnsOf rows.
Proof.
  intros Hin. unfold maxColumnsOf.
  assert (Forall (fun k => k <= list_max (map (@length jsstring) rows))
                 (map (@length jsstring) rows)) as H
    by (apply list_max_le; lia).
  rewrite Forall_forall in H. apply H. now apply in_map.
Qed.

Lemma nth_error_fullRow (m col : nat) (row : list jsstring) :
  col < m -> nth_error (fullRow m row) col = Some (cellAt row col).
Proof.
  intros H. unfold fullRow. rewrite nth_error_map, nth_error_seq.
  apply Nat.ltb_lt in H. rewrite H. reflexivity.
Qed.

Lemma cellAt_truthy (row : list jsstring) (col : nat) :
  (if truthy (cellAt row col) then cellAt row col else []) = cellAt row col.
Proof. destruct (cellAt row col); reflexivity. Qed.

Lemma cellAt_fullRow (m col : nat) (row : list jsstring) :
  col < m -> cellAt (fullRow m row) col = cellAt row col.
Proof.
  intros H. unfold cellAt at 1.
  rewrite (nth_error_fullRow m col row H). apply cellAt_truthy.
Qed.

Lemma cellLengths_fullRows (m col : nat) (rows : list (list jsstring)) :
  col < m -> cellLengths (map (fullRow m) rows) col = cellLengths rows col.
Proof.
  intros H. unfold cellLengths.
  induction rows as [|row rows IH]; [reflexivity|].
  cbn [map flat_map]. rewrite IH. f_equal.
  rewrite (nth_error_fullRow m col row H).
  unfold cellAt.
  destruct (nth_error row col) as [cell|]; [|reflexivity].
  destruct (truthy cell) eqn:E; [now rewrite E|reflexivity].
Qed.

Lemma columnWidthsOf_fullRows (rows : list (list jsstring)) :
  rows <> [] ->
  columnWidthsOf (map (fullRow (maxColumnsOf rows)) rows) = columnWidthsOf rows.
Proof.
  intros Hne. unfold columnWidthsOf.
  rewrite maxColumnsOf_fullRows by exact Hne.
  apply map_ext_in. intros col Hcol. apply in_seq in Hcol.
  unfold columnWidth. rewrite cellLengths_fullRows by lia. reflexivity.
Qed.

Lemma formatRow_fullRow (m : nat) (columnWidths : list number)
    (row : list jsstring) :
  formatRow m columnWidths (fullRow m row) = formatRow m columnWidths row.
Proof.
  unfold formatRow. f_equal. apply map_ext_in. intros col Hcol.
  apply in_seq in Hcol. rewrite cellAt_fullRow by lia. reflexivity.
Qed.

Lemma formatRows_fullRows (m : nat) (columnWidths : list number)
    (rows : list (list jsstring)) :
  forall i, formatRows m columnWidths i (map (fullRow m) rows)
            = formatRows m columnWidths i rows.
Proof.
  induction rows as [|row rows IH]; intros i; [reflexivity|].
  cbn [map formatRows]. now rewrite formatRow_fullRow, IH.
Qed.

Lemma formatRows_length (m : nat) (columnWidths : list number)
    (rows : list (list jsstring)) :
  rows <> [] -> 2 <= length (formatRows m columnWidths 0 rows).
Proof.
  destruct rows as [|row rows]; [intros H; exfalso; now apply H|].
  intros _. cbn [formatRows Nat.eqb app length]. lia.
Qed.

(** The rows read from the rendered lines of a region. *)
Lemma rows_of_rendered (m : nat) (columnWidths : list number)
    (rows : list (list jsstring)) :
  0 < m -> columnWidths <> [] ->
  Forall (fun row =>
            Forall stableCell row /\ length row <= m /\
            rowHasText row = true /\
            forallb (fun col => leb (ofNat (length (cellAt row col)))
                                    (nth col columnWidths 0%Q))
                    (seq 0 m) = true) rows ->
  forall i,
    flat_map rowOf (map cleanTableLine (formatRows m columnWidths i rows))
    = map (fullRow m) rows.
Proof.
  intros Hm Hw Hrows. induction Hrows as [|row rows Hrow _ IH]; intros i;
    [reflexivity|].
  destruct Hrow as (Hst & Hlen & Htext & Hfit).
  cbn [formatRows map flat_map].
  destruct (formatRow_padded m columnWidths row Hfit) as (xs & -> & Hpad).
  rewrite (rowOf_rendered xs (fullRow m row)).
  - cbn [app]. f_equal. rewrite map_app, flat_map_app, IH.
    destruct (i =? 0); cbn [map flat_map].
    + now rewrite rowOf_separatorLine.
    + reflexivity.
  - exact Hpad.
  - now apply fullRow_stable.
  - now apply fullRow_not_nil.
  - now apply rowHasText_fullRow.
Qed.

Lemma maxColumnsOf_pos (rows : list (list jsstring)) :
  rows <> [] -> Forall (fun row => row <> []) rows -> 0 < maxColumnsOf rows.
Proof.
  intros Hne Hrows. destruct rows as [|row rows]; [exfalso; now apply Hne|].
  inversion Hrows as [|? ? Hrow _]; subst.
  pose proof (row_length_le (row :: rows) row (or_introl eq_refl)) as H.
  destruct row; [exfalso; now apply Hrow|]. cbn [length] in H. lia.
Qed.

(** A region without [<], without a truncated cell and without a row of
    dashes only is read back, from its rendered lines, as the same rows
    filled up with empty cells; the plan and the rendered lines are the
    same. *)
Lemma second_pass_region (raw : list jsstring) :
  Forall (fun l => ~ In lt_sign l) raw ->
  let tableLines := map cleanTableLine raw in
  let rows := parseRows tableLines in
  2 <= length tableLines -> rows <> [] ->
  noTruncation rows = true -> forallb rowHasText rows = true ->
  let rendered := formatTableRegion tableLines in
  rendered = formatRows (maxColumnsOf rows) (columnWidthsOf rows) 0 rows /\
  parseRows (map cleanTableLine rendered)
  = map (fullRow (maxColumnsOf rows)) rows /\
  planOf (map cleanTableLine rendered) = planOf tableLines /\
  formatTableRegion (map cleanTableLine rendered) = rendered.
Proof.
  intros Hraw tableLines rows Hlen Hne Hfit Htext rendered.
  pose proof (parseRows_stable raw Hraw) as Hst. fold tableLines rows in Hst.
  assert (rendered = formatRows (maxColumnsOf rows) (columnWidthsOf rows) 0 rows)
    as Hrendered.
  { subst rendered. unfold formatTableRegion. fold rows.
    assert ((length tableLines <? 2) = false) as -> by (apply Nat.ltb_ge; lia).
    destruct rows; [exfalso; now apply Hne|reflexivity]. }
  assert (0 < maxColumnsOf rows) as Hm.
  { apply maxColumnsOf_pos; [exact Hne|].
    eapply Forall_impl; [|exact Hst]. now intros row [H _]. }
  assert (columnWidthsOf rows <> []) as Hw.
  { intros E. apply (f_equal (@length number)) in E.
    rewrite columnWidthsOf_length in E. cbn in E. lia. }
  assert (parseRows (map cleanTableLine rendered)
          = map (fullRow (maxColumnsOf rows)) rows) as Hrows2.
  { rewrite parseRows_flat_map, Hrendered. apply rows_of_rendered; try assumption.
    apply Forall_forall. intros row Hrow.
    rewrite Forall_forall in Hst. destruct (Hst row Hrow) as [_ Hcells].
    unfold noTruncation in Hfit. rewrite forallb_forall in Hfit, Htext.
    repeat split; auto using row_length_le. }
  assert (2 <= length rendered) as Hlen2
    by (rewrite Hrendered; now apply formatRows_length).
  assert (map (fullRow (maxColumnsOf rows)) rows <> []) as Hne2.
  { intros E. apply map_eq_nil in E. contradiction. }
  repeat split.
  - exact Hrendered.
  - exact Hrows2.
  - unfold planOf. rewrite length_map, Hrows2.
    assert ((length rendered <? 2) = false) as -> by (apply Nat.ltb_ge; lia).
    assert ((length tableLines <? 2) = false) as -> by (apply Nat.ltb_ge; lia).
    fold rows. rewrite columnWidthsOf_fullRows by exact Hne.
    destruct rows; [exfalso; now apply Hne|reflexivity].
  - unfold formatTableRegion at 1. rewrite length_map, Hrows2.
    assert ((length rendered <? 2) = false) as -> by (apply Nat.ltb_ge; lia).
    rewrite columnWidthsOf_fullRows, maxColumnsOf_fullRows by exact Hne.
    rewrite formatRows_fullRows, <- Hrendered.
    destruct rows; [exfalso; now apply Hne|reflexivity].
Qed.

End SecondPassFacts.

(* ================================================================== *)
(** ** Replacements that leave a code unit alone *)

Section WithinFacts.

Variable P : ascii -> Prop.

Lemma firstn_consumed (u a : jsstring) :
  firstn (length (u ++ a) - length a) (u ++ a) = u.
Proof.
  rewrite length_app.
  replace (length u + length a - length a) with (length u) by lia.
  rewrite firstn_app, Nat.sub_diag, firstn_all. cbn [firstn]. apply app_nil_r.
Qed.

Lemma star_loop_within
    (step : mstate -> (mstate -> option mstate) -> option mstate) :
  (forall st k x, groupsIn P (groups st) -> step st k = Some x ->
     exists st' u, after st = u ++ after st' /\ Forall P u /\
                   groupsIn P (groups st') /\ k st' = Some x) ->
  forall fuel st k x,
    groupsIn P (groups st) ->
    star_loop step fuel st k = Some x ->
    exists st' u, after st = u ++ after st' /\ Forall P u /\
                  groupsIn P (groups st') /\ k st' = Some x.
Proof.
  intros Hstep. induction fuel as [|fuel IH]; intros st k x Hg H;
    cbn [star_loop] in H.
  - exists st, []. auto.
  - unfold orElse in H.
    destruct (step st _) as [y|] eqn:E.
    + injection H as ->.
      apply Hstep in E; [|exact Hg].
      destruct E as (st1 & u1 & Ha & Hb & Hg1 & Hk).
      destruct (length (after st1) <? length (after st)); [|discriminate].
      apply IH in Hk; [|exact Hg1].
      destruct Hk as (st2 & u2 & Ha2 & Hb2 & Hg2 & Hk2).
      exists st2, (u1 ++ u2). repeat split.
      * now rewrite Ha, Ha2, app_assoc.
      * apply Forall_app. auto.
      * exact Hg2.
      * exact Hk2.
    + exists st, []. auto.
Qed.

(** A match of a pattern that only consumes code units of [P] captures
    texts of such code units. *)
Lemma rmatch_within (r : regex) :
  only P r ->
  forall st k x,
    groupsIn P (groups st) ->
    rmatch r st k = Some x ->
    exists st' u, after st = u ++ after st' /\ Forall P u /\
                  groupsIn P (groups st') /\ k st' = Some x.
Proof.
  induction r as [|a|p|r1 IH1 r2 IH2|r1 IH1|r1 IH1|r1 IH1|n r1 IH1|m|m|p|r1 IH1];
    intros Ho st k x Hg H; cbn [rmatch] in H; cbn [only] in Ho.
  - exists st, []. auto.
  - destruct (after st) as [|y s'] eqn:E; [discriminate|].
    destruct (chr_eqb y a) eqn:Ey; [|discriminate].
    apply Ascii.eqb_eq in Ey. subst y.
    exists (MState (a :: before st) s' (groups st)), [a]. cbn. auto.
  - destruct (after st) as [|y s'] eqn:E; [discriminate|].
    destruct (p y) eqn:Ey; [|discriminate].
    exists (MState (y :: before st) s' (groups st)), [y]. cbn. auto.
  - destruct Ho as [Ho1 Ho2].
    apply (IH1 Ho1) in H; [|exact Hg].
    destruct H as (st1 & u1 & Ha1 & Hb1 & Hg1 & H).
    apply (IH2 Ho2) in H; [|exact Hg1].
    destruct H as (st2 & u2 & Ha2 & Hb2 & Hg2 & H).
    exists st2, (u1 ++ u2). repeat split.
    + now rewrite Ha1, Ha2, app_assoc.
    + apply Forall_app. auto.
    + exact Hg2.
    + exact H.
  - unfold orElse in H. destruct (rmatch r1 st k) as [y|] eqn:E.
    + injection H as ->. now apply (IH1 Ho) in E.
    + exists st, []. auto.
  - apply star_loop_within in H; [exact H| |exact Hg].
    intros st0 k0 x0 Hg0 H0. now apply (IH1 Ho) in H0.
  - apply (IH1 Ho) in H; [|exact Hg].
    destruct H as (st1 & u1 & Ha1 & Hb1 & Hg1 & H).
    apply star_loop_within in H; [| |exact Hg1].
    + destruct H as (st2 & u2 & Ha2 & Hb2 & Hg2 & H).
      exists st2, (u1 ++ u2). repeat split.
      * now rewrite Ha1, Ha2, app_assoc.
      * apply Forall_app. auto.
      * exact Hg2.
      * exact H.
    + intros st0 k0 x0 Hg0 H0. now apply (IH1 Ho) in H0.
  - apply (IH1 Ho) in H; [|exact Hg].
    destruct H as (st1 & u1 & Ha1 & Hb1 & Hg1 & H).
    eexists (MState (before st1) (after st1) _), u1. cbn [after groups].
    repeat split; [exact Ha1|exact Hb1| |exact H].
    constructor; [|exact Hg1]. cbn [snd].
    rewrite Ha1, firstn_consumed. exact Hb1.
  - exists st, []. destruct (before st) as [|y b'].
    + auto.
    + destruct (m && isLineTerminator y); [auto|discriminate].
  - exists st, []. destruct (after st) as [|y b'].
    + auto.
    + destruct (m && isLineTerminator y); [auto|discriminate].
  - exists st, []. destruct (before st) as [|y b']; [discriminate|].
    destruct (p y); [auto|discriminate].
  - exists st, []. destruct (rmatch r1 st Some); [auto|discriminate].
Qed.

Lemma group_text_within (n : nat) (gs : list (nat * jsstring)) :
  groupsIn P gs -> Forall P (group_text n gs).
Proof.
  intros H. induction H as [|[m t] gs Ht _ IH]; cbn [group_text]; [constructor|].
  destruct (n =? m); assumption.
Qed.

Lemma expand_within (tpl : template) (gs : list (nat * jsstring)) :
  templateIn P tpl -> groupsIn P gs -> Forall P (expand tpl gs).
Proof.
  intros Ht Hg. unfold expand.
  induction Ht as [|it tpl Hit _ IH]; cbn [flat_map]; [constructor|].
  apply Forall_app. split; [|exact IH].
  destruct it; [exact Hit|now apply group_text_within].
Qed.

Lemma count_within (c : ascii) (u : jsstring) :
  ~ P c -> Forall P u -> count_occ ascii_dec u c = 0.
Proof.
  intros Hc Hu. apply count_occ_not_In. intros Hin.
  rewrite Forall_forall in Hu. apply Hc. now apply Hu.
Qed.

(** A global replacement whose matches and literals are made of code units
    of [P] keeps the number of occurrences of any other code unit. *)
Lemma replace_from_keeps (r : regex) (tpl : template) (c : ascii) :
  only P r -> templateIn P tpl -> ~ P c ->
  forall fuel st,
    count_occ ascii_dec (replace_from r tpl fuel st) c
    = count_occ ascii_dec (after st) c.
Proof.
  intros Ho Ht Hc. induction fuel as [|fuel IH]; intros st; [reflexivity|].
  cbn [replace_from].
  assert (Hadv : count_occ ascii_dec
                   match advance st with
                   | Some (c0, st1) => c0 :: replace_from r tpl fuel st1
                   | None => []
                   end c
                 = count_occ ascii_dec (after st) c).
  { unfold advance. destruct (after st) as [|c0 s']; [reflexivity|].
    cbn [count_occ]. rewrite IH. reflexivity. }
  destruct (match_here r st) as [st'|] eqn:E; [|exact Hadv].
  unfold match_here in E.
  apply (rmatch_within r Ho) in E; [|constructor].
  destruct E as (st1 & u & Ha & Hu & Hg & Hk). injection Hk as ->.
  cbn [after] in Ha.
  pose proof (expand_within tpl (groups st') Ht Hg) as He.
  destruct (length (after st') <? length (after st)).
  - rewrite count_occ_app, IH, (count_within c _ Hc He). cbn [after].
    now rewrite Ha, count_occ_app, (count_within c _ Hc Hu).
  - rewrite count_occ_app, Hadv, (count_within c _ Hc He). reflexivity.
Qed.

Lemma replace_all_keeps (r : regex) (tpl : template) (c : ascii) (s : jsstring) :
  only P r -> templateIn P tpl -> ~ P c ->
  count_occ ascii_dec (replace_all r tpl s) c = count_occ ascii_dec s c.
Proof.
  intros Ho Ht Hc. unfold replace_all.
  now rewrite (replace_from_keeps r tpl c Ho Ht Hc).
Qed.

End WithinFacts.

(* ================================================================== *)
(** ** Replacements that put back what they take *)

Section BalancedFacts.

(** A global replacement keeps the number of occurrences of [c] when every
    match is replaced by a text with as many [c] as the match has. *)
Lemma replace_from_balanced (r : regex) (tpl : template) (c : ascii) :
  (forall st st', match_here r st = Some st' ->
     exists u, after st = u ++ after st' /\
               count_occ ascii_dec (expand tpl (groups st')) c
               = count_occ ascii_dec u c) ->
  forall fuel st,
    count_occ ascii_dec (replace_from r tpl fuel st) c
    = count_occ ascii_dec (after st) c.
Proof.
  intros Hm. induction fuel as [|fuel IH]; intros st; [reflexivity|].
  cbn [replace_from].
  assert (Hadv : count_occ ascii_dec
                   match advance st with
                   | Some (c0, st1) => c0 :: replace_from r tpl fuel st1
                   | None => []
                   end c
                 = count_occ ascii_dec (after st) c).
  { unfold advance. destruct (after st) as [|c0 s']; [reflexivity|].
    cbn [count_occ]. rewrite IH. reflexivity. }
  destruct (match_here r st) as [st'|] eqn:E; [|exact Hadv].
  destruct (Hm st st' E) as (u & Ha & Hc).
  destruct (length (after st') <? length (after st)) eqn:El.
  - rewrite count_occ_app, IH, Hc. cbn [after].
    now rewrite Ha, count_occ_app.
  - apply Nat.ltb_ge in El.
    assert (u = []) as Hu.
    { destruct u as [|y u]; [reflexivity|].
      apply (f_equal (@length ascii)) in Ha. rewrite length_app in Ha.
      cbn [length] in Ha. lia. }
    subst u. rewrite count_occ_app, Hadv, Hc. reflexivity.
Qed.

(** A literal word takes its code units and nothing else. *)
Lemma rmatch_word (w : jsstring) :
  forall st k x,
    rmatch (word w) st k = Some x ->
    exists rest,
      after st = w ++ rest /\
      k (MState (rev w ++ before st) rest (groups st)) = Some x.
Proof.
  induction w as [|c w IH]; intros st k x H.
  - exists (after st). split; [reflexivity|]. cbn [word rmatch] in H.
    destruct st. exact H.
  - cbn [word] in H. rewrite rmatch_Seq in H. cbn [rmatch] in H.
    destruct (after st) as [|y s'] eqn:E; [discriminate|].
    destruct (chr_eqb y c) eqn:Ey; [|discriminate].
    apply chr_eqb_eq in Ey. subst y.
    apply IH in H. destruct H as (rest & Ha & Hk). cbn [after before groups] in *.
    exists rest. split; [now rewrite Ha|].
    cbn [rev]. now rewrite <- app_assoc.
Qed.

Lemma rmatch_Grp (n : nat) (r : regex) (st : mstate)
    (k : mstate -> option mstate) :
  rmatch (Grp n r) st k
  = rmatch r st (fun st' =>
      k (MState (before st') (after st')
           ((n, firstn (length (after st) - length (after st')) (after st))
              :: groups st'))).
Proof. reflexivity. Qed.

Lemma group_text_head (n : nat) (t : jsstring) (gs : list (nat * jsstring)) :
  group_text n ((n, t) :: gs) = t.
Proof. cbn [group_text]. now rewrite Nat.eqb_refl. Qed.

(** A match of the underline pattern is an opening tag, the text of its
    group, and a closing tag. *)
Lemma match_here_u (st st' : mstate) :
  match_here re_u st = Some st' ->
  exists t,
    after st = str "<u>" ++ t ++ str "</u>" ++ after st' /\
    group_text 1 (groups st') = t.
Proof.
  unfold match_here, re_u. cbn [seqs]. intros H.
  rewrite rmatch_Seq in H. apply rmatch_word in H.
  destruct H as (rest1 & Ha1 & H). cbn [after before groups] in *.
  rewrite rmatch_Seq, rmatch_Grp in H.
  apply (rmatch_consumes pipe) in H.
  destruct H as (st2 & t & Ha2 & _ & H & _). cbn [after before groups] in *.
  apply rmatch_word in H. destruct H as (rest2 & Ha3 & H).
  cbn [after before groups rmatch] in *. injection H as <-.
  cbn [after groups]. exists t. split.
  - rewrite Ha1, Ha2, Ha3. reflexivity.
  - rewrite Ha2, firstn_consumed. apply group_text_head.
Qed.

Lemma replace_u_count (c : ascii) (s : jsstring) :
  ~ In c (str "<u>/") ->
  count_occ ascii_dec (replace_all re_u [Ref 1] s) c = count_occ ascii_dec s c.
Proof.
  intros Hc. unfold replace_all. rewrite replace_from_balanced; [reflexivity|].
  intros st st' H. apply match_here_u in H. destruct H as (t & Ha & Hg).
  exists (str "<u>" ++ t ++ str "</u>"). split.
  - rewrite Ha. now rewrite <- !app_assoc.
  - unfold expand. cbn [flat_map]. rewrite app_nil_r, Hg, !count_occ_app.
    rewrite (proj1 (count_occ_not_In ascii_dec (str "<u>") c)).
    + rewrite (proj1 (count_occ_not_In ascii_dec (str "</u>") c)); [lia|].
      intros Hin. apply Hc. cbn in Hin |- *. intuition.
    + intros Hin. apply Hc. cbn in Hin |- *. intuition.
Qed.

End BalancedFacts.

(* ================================================================== *)
(** ** The lines outside tables after cleaning *)

Section ProseFacts.

Lemma count_blank (c : ascii) (s : jsstring) :
  isSpace c = false -> blank s = true -> count_occ ascii_dec s c = 0.
Proof.
  intros Hc Hb. apply count_occ_not_In. intros Hin.
  unfold blank in Hb. rewrite forallb_forall in Hb.
  apply Hb in Hin. congruence.
Qed.

Lemma count_trimStart (c : ascii) (s : jsstring) :
  isSpace c = false ->
  count_occ ascii_dec (trimStart s) c = count_occ ascii_dec s c.
Proof.
  intros Hc. induction s as [|x s IH]; [reflexivity|].
  cbn [trimStart]. destruct (isSpace x) eqn:E; [|reflexivity].
  rewrite IH. cbn [count_occ].
  destruct (ascii_dec x c) as [->|_]; [congruence|reflexivity].
Qed.

Lemma count_trimEnd (c : ascii) (s : jsstring) :
  isSpace c = false ->
  count_occ ascii_dec (trimEnd s) c = count_occ ascii_dec s c.
Proof.
  intros Hc. induction s as [|x s IH]; [reflexivity|].
  rewrite trimEnd_cons. destruct (blank (x :: s)) eqn:E.
  - symmetry. now apply count_blank.
  - cbn [count_occ]. now rewrite IH.
Qed.

Lemma count_trim (c : ascii) (s : jsstring) :
  isSpace c = false ->
  count_occ ascii_dec (trim s) c = count_occ ascii_dec s c.
Proof.
  intros Hc. unfold trim. now rewrite count_trimEnd, count_trimStart.
Qed.

Lemma count_collapse (c : ascii) (s : jsstring) :
  isSpace c = false ->
  count_occ ascii_dec (collapse s) c = count_occ ascii_dec s c.
Proof.
  intros Hc. rewrite <- replace_spaces_collapse.
  apply (replace_all_keeps (fun x => isSpace x = true)).
  - unfold re_spaces, ws. cbn [only]. auto.
  - repeat constructor.
  - congruence.
Qed.

Lemma count_space_pipe (c : ascii) (s : jsstring) (r : regex) (tpl : template) :
  only (fun x => x <> c) r -> templateIn (fun x => x <> c) tpl ->
  count_occ ascii_dec (replace_all r tpl s) c = count_occ ascii_dec s c.
Proof.
  intros Ho Ht. apply (replace_all_keeps (fun x => x <> c)); auto.
Qed.

(** Cleaning a line outside tables keeps its pipes. *)
Lemma cleanRegularLine_pipes (line : jsstring) :
  countPipes (cleanRegularLine line) = countPipes line.
Proof.
  unfold cleanRegularLine, countPipes.
  rewrite count_trim by reflexivity.
  rewrite replace_spaces_collapse, count_collapse by reflexivity.
  rewrite (count_space_pipe pipe _ re_footnote).
  2: { cbn. repeat split; try discriminate;
       intros x Hx ->; vm_compute in Hx; discriminate. }
  2: { constructor. }
  rewrite (count_space_pipe pipe _ re_location).
  2: { cbn. repeat split; try discriminate;
       intros x Hx ->; vm_compute in Hx; discriminate. }
  2: { repeat constructor; discriminate. }
  rewrite (count_space_pipe pipe _ re_strong).
  2: { cbn. repeat split; discriminate. }
  2: { constructor. }
  rewrite (count_space_pipe pipe _ re_em).
  2: { cbn. repeat split; discriminate. }
  2: { constructor. }
  rewrite replace_u_count.
  2: { cbn. intuition discriminate. }
  rewrite (count_space_pipe pipe _ re_br).
  2: { cbn. repeat split; try discriminate;
       intros x Hx ->; vm_compute in Hx; discriminate. }
  2: { repeat constructor; discriminate. }
  reflexivity.
Qed.

Lemma cleanRegularLine_verdict (line : jsstring) :
  isTableLine (cleanRegularLine line) = isTableLine line.
Proof. now rewrite !isTableLine_countPipes, cleanRegularLine_pipes. Qed.

Lemma tidy_free (c : ascii) (s : jsstring) :
  tidy s = true -> isSpace c = true -> c <> space -> ~ In c s.
Proof.
  intros Ht Hc Hn. induction s as [|x s IH]; [auto|].
  cbn [tidy] in Ht. apply andb_prop in Ht. destruct Ht as [Hx Ht].
  intros [->|Hin]; [|now apply IH].
  rewrite Hc in Hx. apply andb_prop in Hx. destruct Hx as [Hx _].
  apply chr_eqb_eq in Hx. now apply Hn.
Qed.

Lemma tidy_neat (s : jsstring) : tidy s = true -> neat (trim s).
Proof.
  intros Ht. repeat split.
  - apply trim_idem.
  - apply tidy_free; [now apply tidy_trim|reflexivity|discriminate].
  - apply tidy_free; [now apply tidy_trim|reflexivity|discriminate].
Qed.

Lemma cleanRegularLine_neat (line : jsstring) : neat (cleanRegularLine line).
Proof.
  unfold cleanRegularLine. rewrite replace_spaces_collapse.
  apply tidy_neat, tidy_collapse.
Qed.

End ProseFacts.

(* ================================================================== *)
(** ** The lines of a table region after cleaning and rendering *)

Section TableLineFacts.

Lemma split_length (sep : ascii) (s : jsstring) :
  length (split sep s) = S (count_occ ascii_dec s sep).
Proof.
  induction s as [|c s IH]; [reflexivity|].
  cbn [split count_occ]. destruct (chr_eqb c sep) eqn:E.
  - apply chr_eqb_eq in E. subst c.
    destruct (ascii_dec sep sep); [|congruence]. cbn [length]. now rewrite IH.
  - apply chr_eqb_neq in E. destruct (ascii_dec c sep); [congruence|].
    destruct (split sep s) as [|p ps]; [discriminate IH|exact IH].
Qed.

Lemma join_free (c : ascii) (sep : jsstring) (cs : list jsstring) :
  ~ In c sep -> Forall (fun x => ~ In c x) cs -> ~ In c (join sep cs).
Proof.
  intros Hs Hcs. induction Hcs as [|x xs Hx Hrest IH]; [auto|].
  destruct xs as [|x' xs'].
  - exact Hx.
  - rewrite join_cons2. intros Hin.
    apply in_app_or in Hin. destruct Hin as [Hin|Hin]; [auto|].
    apply in_app_or in Hin. destruct Hin; auto.
Qed.

Lemma join_count (cs : list jsstring) :
  Forall (fun x => ~ In pipe x) cs ->
  count_occ ascii_dec (join cellSep cs) pipe = length cs - 1.
Proof.
  intros H. induction H as [|x xs Hx Hrest IH]; [reflexivity|].
  destruct xs as [|x' xs'].
  - cbn [join length]. now apply count_occ_not_In.
  - rewrite join_cons2, !count_occ_app, IH.
    rewrite (proj1 (count_occ_not_In ascii_dec x pipe) Hx).
    change (count_occ ascii_dec cellSep pipe) with 1.
    cbn [length]. lia.
Qed.

(** Cleaning a table line keeps its pipes. *)
Lemma cleanTableLine_pipes (line : jsstring) :
  ~ In lt_sign line -> countPipes (cleanTableLine line) = countPipes line.
Proof.
  intros Hlt. rewrite cleanTableLine_normal by exact Hlt.
  unfold countPipes, normalLine. rewrite count_trim by reflexivity.
  rewrite join_count.
  - unfold rawCells. rewrite length_map, split_length. lia.
  - eapply Forall_impl; [|apply rawCells_fine]. now intros c [H _].
Qed.

Lemma cleanTableLine_verdict (line : jsstring) :
  ~ In lt_sign line -> isTableLine (cleanTableLine line) = isTableLine line.
Proof.
  intros Hlt. now rewrite !isTableLine_countPipes, cleanTableLine_pipes.
Qed.

Lemma normalLine_free (c : ascii) (cs : list jsstring) :
  c <> space -> c <> pipe -> Forall (fun x => ~ In c x) cs ->
  ~ In c (normalLine cs).
Proof.
  intros Hs Hp Hcs Hin. unfold normalLine in Hin. apply trim_incl in Hin.
  revert Hin. apply join_free; [|exact Hcs].
  intros [E|[E|[E|[]]]]; congruence.
Qed.

Lemma stableCell_free (c : ascii) (cell : jsstring) :
  stableCell cell -> isSpace c = true -> c <> space -> ~ In c cell.
Proof. intros (_ & _ & _ & Ht). now apply tidy_free. Qed.

Lemma cleanTableLine_free (line : jsstring) :
  ~ In lt_sign line -> ~ In lt_sign (cleanTableLine line).
Proof.
  intros Hlt. rewrite cleanTableLine_normal by exact Hlt.
  apply normalLine_free; [discriminate|discriminate|].
  eapply Forall_impl; [|apply (rawCells_stable line Hlt)].
  now intros c (_ & H & _).
Qed.

Lemma cleanTableLine_neat (line : jsstring) :
  ~ In lt_sign line -> neat (cleanTableLine line).
Proof.
  intros Hlt. rewrite cleanTableLine_normal by exact Hlt.
  pose proof (rawCells_stable line Hlt) as Hst.
  repeat split.
  - apply trim_idem.
  - apply normalLine_free; [discriminate|discriminate|].
    eapply Forall_impl; [|exact Hst].
    intros c Hc. apply (stableCell_free newline c Hc); [reflexivity|discriminate].
  - apply normalLine_free; [discriminate|discriminate|].
    eapply Forall_impl; [|exact Hst].
    intros c Hc. apply (stableCell_free cr c Hc); [reflexivity|discriminate].
Qed.

Lemma cleanTableLine_like (line : jsstring) :
  ~ In lt_sign line -> isTableLine line = true -> tableLike (cleanTableLine line).
Proof.
  intros Hlt Ht. repeat split; try apply cleanTableLine_neat; auto.
  - now rewrite cleanTableLine_verdict.
  - now apply cleanTableLine_free.
Qed.

(** Cleaning a cleaned table line changes nothing. *)
Lemma cleanTableLine_idem (line : jsstring) :
  ~ In lt_sign line ->
  cleanTableLine (cleanTableLine line) = cleanTableLine line.
Proof.
  intros Hlt.
  rewrite (cleanTableLine_normal (cleanTableLine line))
    by now apply cleanTableLine_free.
  rewrite (cleanTableLine_normal line) by exact Hlt.
  f_equal. unfold rawCells at 1.
  rewrite (map_ext _ (fun p => collapse (trim p)))
    by (intros p; now rewrite collapse_trim).
  rewrite <- (map_map trim collapse).
  rewrite map_trim_split_normalLine
    by (apply rawCells_fine || apply rawCells_not_nil).
  pose proof (rawCells_stable line Hlt) as Hst.
  induction Hst as [|c cs Hc _ IH]; [reflexivity|].
  cbn [map]. rewrite IH. f_equal.
  destruct Hc as (_ & _ & _ & Ht). now apply collapse_tidy.
Qed.

Lemma tableLine_pipes (xs : list jsstring) : 2 <= countPipes (tableLine xs).
Proof.
  rewrite tableLine_eq. unfold countPipes.
  change (pipe :: space :: join cellSep xs ++ [space; pipe])
    with ([pipe; space] ++ join cellSep xs ++ [space; pipe]).
  rewrite !count_occ_app.
  change (count_occ ascii_dec [pipe; space] pipe) with 1.
  change (count_occ ascii_dec [space; pipe] pipe) with 1. lia.
Qed.

Lemma tableLine_like (xs : list jsstring) :
  Forall (fun x => ~ In newline x /\ ~ In cr x /\ ~ In lt_sign x) xs ->
  tableLike (tableLine xs).
Proof.
  intros Hxs. repeat split.
  - apply trim_tableLine.
  - apply tableLine_free; [discriminate|discriminate|].
    eapply Forall_impl; [|exact Hxs]. now intros x (H & _).
  - apply tableLine_free; [discriminate|discriminate|].
    eapply Forall_impl; [|exact Hxs]. now intros x (_ & H & _).
  - rewrite isTableLine_countPipes. apply Nat.leb_le, tableLine_pipes.
  - apply tableLine_free; [discriminate|discriminate|].
    eapply Forall_impl; [|exact Hxs]. now intros x (_ & _ & H).
Qed.

Lemma separatorLine_like (columnWidths : list number) :
  tableLike (separatorLine columnWidths).
Proof.
  unfold separatorLine. apply tableLine_like.
  apply Forall_forall. intros x Hx. apply in_map_iff in Hx.
  destruct Hx as (w & <- & _). unfold repeat1.
  repeat split; intros Hin; apply repeat_spec in Hin; discriminate.
Qed.


(** The plan is the list of widths that [formatTableRegion] renders
    with. *)
Lemma formatTableRegion_planOf (tableLines : list jsstring) :
  formatTableRegion tableLines
  = match planOf tableLines with
    | Some columnWidths =>
        formatRows (maxColumnsOf (parseRows tableLines)) columnWidths 0
                   (parseRows tableLines)
    | None => tableLines
    end.
Proof.
  unfold planOf, formatTableRegion.
  destruct (length tableLines <? 2); [reflexivity|].
  destruct (length (parseRows tableLines) =? 0); reflexivity.
Qed.

Lemma planOf_none (tableLines : list jsstring) :
  planOf tableLines = None -> formatTableRegion tableLines = tableLines.
Proof.
  unfold planOf, formatTableRegion.
  destruct (length tableLines <? 2); [reflexivity|].
  destruct (length (parseRows tableLines) =? 0); [reflexivity|discriminate].
Qed.

Lemma planOf_some (tableLines : list jsstring) (w : list number) :
  planOf tableLines = Some w ->
  2 <= length tableLines /\ parseRows tableLines <> [].
Proof.
  unfold planOf.
  destruct (length tableLines <? 2) eqn:E1; [discriminate|].
  destruct (length (parseRows tableLines) =? 0) eqn:E2; [discriminate|].
  intros _. apply Nat.ltb_ge in E1. apply Nat.eqb_neq in E2. split; [exact E1|].
  intros E. rewrite E in E2. now apply E2.
Qed.


(** *** Lines with tags that the cleaning takes away *)

Lemma cleanTableLine_stripped (line : jsstring) :
  cleanTableLine line = trim (pipeSpace (collapse (stripTableTags line))).
Proof.
  unfold cleanTableLine, stripTableTags.
  now rewrite replace_spaces_collapse, replace_pipe_spacing.
Qed.

Lemma count_pipeSpace (c : ascii) (s : jsstring) :
  isSpace c = false -> c <> pipe ->
  count_occ ascii_dec (pipeSpace s) c = count_occ ascii_dec s c.
Proof.
  intros Hs Hp. rewrite <- replace_pipe_spacing.
  apply (replace_all_keeps (fun x => isSpace x = true \/ x = pipe)).
  - unfold re_pipe_spacing, ws. cbn [seqs only]. repeat split; auto.
  - apply Forall_cons; [|apply Forall_nil].
    repeat (apply Forall_cons || apply Forall_nil);
      ((left; reflexivity) || (right; reflexivity)).
  - intros [H|H]; congruence.
Qed.

(** A cleaned table line without [<] comes from a line without [<]: the
    line that the tag replacements leave. *)
Lemma stripped_free (line : jsstring) :
  ~ In lt_sign (cleanTableLine line) -> ~ In lt_sign (stripTableTags line).
Proof.
  intros H. apply (count_occ_not_In ascii_dec).
  apply (count_occ_not_In ascii_dec) in H.
  rewrite cleanTableLine_stripped in H.
  rewrite count_trim, count_pipeSpace, count_collapse in H;
    [exact H|reflexivity|reflexivity|discriminate|reflexivity].
Qed.

Lemma cleanTableLine_of_stripped (line : jsstring) :
  ~ In lt_sign (cleanTableLine line) ->
  cleanTableLine (stripTableTags line) = cleanTableLine line.
Proof.
  intros H. rewrite (cleanTableLine_plain (stripTableTags line))
    by now apply stripped_free.
  symmetry. apply cleanTableLine_stripped.
Qed.

Lemma stripTableTags_pipes (line : jsstring) :
  countPipes (stripTableTags line) = countPipes line.
Proof.
  unfold stripTableTags, countPipes.
  rewrite (count_space_pipe pipe _ re_strong).
  2: { cbn. repeat split; discriminate. }
  2: { constructor. }
  rewrite (count_space_pipe pipe _ re_em).
  2: { cbn. repeat split; discriminate. }
  2: { constructor. }
  rewrite replace_u_count.
  2: { cbn. intuition discriminate. }
  rewrite (count_space_pipe pipe _ re_br).
  2: { cbn. repeat split; try discriminate;
       intros x Hx ->; vm_compute in Hx; discriminate. }
  2: { repeat constructor; discriminate. }
  rewrite (count_space_pipe pipe _ re_location_br).
  2: { cbn. repeat split; try discriminate;
       intros x Hx ->; vm_compute in Hx; discriminate. }
  2: { repeat constructor; discriminate. }
  reflexivity.
Qed.

Lemma stripTableTags_verdict (line : jsstring) :
  isTableLine (stripTableTags line) = isTableLine line.
Proof. now rewrite !isTableLine_countPipes, stripTableTags_pipes. Qed.


End TableLineFacts.

(* ================================================================== *)
(** ** The runs of table lines before and after the first pass *)

Section RunFacts.



Lemma map_clean_pending (pending : list (nat * jsstring)) :
  map (fun il => cleanTableLine (snd il)) (rev pending)
  = map cleanTableLine (rev (map snd pending)).
Proof. now rewrite <- map_rev, map_map. Qed.





Lemma tableRuns_table_lines (ts : list jsstring) :
  Forall (fun t => isTableLine t = true) ts ->
  forall rest pending,
    tableRuns (ts ++ rest) pending = tableRuns rest (rev ts ++ pending).
Proof.
  intros H. induction H as [|t ts Ht _ IH]; intros rest pending; [reflexivity|].
  cbn [app tableRuns rev]. rewrite Ht, IH, <- app_assoc. reflexivity.
Qed.

Lemma flushRun_rev (ts : list jsstring) :
  flushRun (rev ts) = match ts with [] => [] | _ :: _ => [ts] end.
Proof.
  destruct ts as [|t ts]; [reflexivity|].
  destruct (rev (t :: ts)) as [|x xs] eqn:E.
  - apply (f_equal (@length jsstring)) in E. rewrite length_rev in E. discriminate.
  - cbn [flushRun]. now rewrite <- E, rev_involutive.
Qed.

Lemma tableRuns_block (ts : list jsstring) :
  Forall (fun t => isTableLine t = true) ts ->
  tableRuns ts [] = match ts with [] => [] | _ :: _ => [ts] end.
Proof.
  intros H. rewrite <- (app_nil_r ts) at 1.
  rewrite (tableRuns_table_lines ts H), app_nil_r. cbn [tableRuns].
  apply flushRun_rev.
Qed.

Lemma tableRuns_block_then (ts : list jsstring) (p : jsstring)
    (rest : list jsstring) :
  Forall (fun t => isTableLine t = true) ts -> isTableLine p = false ->
  tableRuns (ts ++ p :: rest) []
  = match ts with [] => [] | _ :: _ => [ts] end ++ tableRuns rest [].
Proof.
  intros H Hp. rewrite (tableRuns_table_lines ts H), app_nil_r.
  cbn [tableRuns]. now rewrite Hp, flushRun_rev.
Qed.

Lemma cleanRegularLine_like (line : jsstring) :
  ~ In lt_sign (cleanRegularLine line) -> isTableLine line = false ->
  proseLike (cleanRegularLine line).
Proof.
  intros Hlt Hp. split; [apply cleanRegularLine_neat|]. split.
  - now rewrite cleanRegularLine_verdict.
  - exact Hlt.
Qed.



End RunFacts.

(* ================================================================== *)
(** ** Documents laid out line by line *)

Section LayoutFacts.

Lemma neat_stops (l : jsstring) : neat l -> stopsAt isSpace l.
Proof.
  intros (Ht & _). rewrite <- Ht. unfold trim. rewrite <- trim_commute.
  apply trimStart_stops.
Qed.

Lemma neat_ends (l : jsstring) : neat l -> endsNonSpace l.
Proof. intros (Ht & _). rewrite <- Ht. apply trimEnd_ends. Qed.

Lemma layout_stops (items : list (jsstring * nat)) :
  laidOut items -> stopsAt isSpace (layout items).
Proof.
  destruct items as [|[l k] items]; [constructor|].
  intros (Hne & Hneat & _). cbn [layout].
  apply neat_stops in Hneat. destruct l as [|c l]; [contradiction|exact Hneat].
Qed.

Lemma split_join (sep : ascii) (ls : list jsstring) :
  Forall (fun l => ~ In sep l) ls -> ls <> [] ->
  split sep (join [sep] ls) = ls.
Proof.
  intros H. induction H as [|l ls Hl _ IH]; intros Hne; [contradiction|].
  destruct ls as [|l' ls'].
  - cbn [join]. now apply split_free.
  - rewrite join_cons2. cbn [app]. rewrite split_app_sep by exact Hl.
    f_equal. apply IH. discriminate.
Qed.

(** Every document with neat lines has a layout. *)
Lemma layout_exists (ls : list jsstring) :
  Forall (fun l => neat l /\ ~ In lt_sign l) ls -> ls <> [] ->
  exists k0 items,
    laidOut items /\ join [newline] ls = repeat newline k0 ++ layout items.
Proof.
  intros H. induction H as [|l ls [Hl Hlt] _ IH]; intros Hne; [contradiction|].
  destruct ls as [|l' ls'].
  - cbn [join]. destruct l as [|c l].
    + exists 0, []. split; [exact I|reflexivity].
    + exists 0, [(c :: l, 0)]. split.
      * cbn [laidOut]. repeat split; try apply Hl; auto. discriminate.
      * cbn [layout repeat app]. now rewrite app_nil_r.
  - destruct IH as (k0 & items & Hitems & E); [discriminate|].
    rewrite join_cons2, E. destruct l as [|c l].
    + exists (S k0), items. split; [exact Hitems|reflexivity].
    + exists 0, ((c :: l, S k0) :: items). split.
      * cbn [laidOut]. repeat split; try apply Hl; auto; try discriminate.
        right. lia.
      * reflexivity.
Qed.

Lemma split_newlines (k : nat) (s : jsstring) :
  split newline (repeat newline k ++ s) = repeat [] k ++ split newline s.
Proof.
  induction k as [|k IH]; [reflexivity|].
  cbn [repeat app]. now rewrite split_sep_cons, IH.
Qed.

Lemma tableRuns_empties (k : nat) (rest : list jsstring) :
  tableRuns (repeat [] k ++ rest) [] = tableRuns rest [].
Proof. induction k as [|k IH]; [reflexivity|exact IH]. Qed.

(** The runs of table lines of a laid out document. *)
Lemma tableRuns_layout (items : list (jsstring * nat)) :
  laidOut items ->
  forall pending,
    tableRuns (split newline (layout items)) pending = runsOf items pending.
Proof.
  induction items as [|[l k] items IH]; intros Hl pending.
  - cbn. apply app_nil_r.
  - destruct Hl as (Hne & (_ & Hnl & _) & _ & Hk & Hrest).
    cbn [layout runsOf]. destruct k as [|k].
    + destruct Hk as [->|Hk]; [|lia].
      cbn [repeat layout app]. rewrite app_nil_r, split_free by exact Hnl.
      cbn [tableRuns runsOf]. destruct (isTableLine l); [|reflexivity].
      cbn [Nat.eqb]. now rewrite app_nil_r.
    + cbn [repeat app]. rewrite split_app_sep by exact Hnl.
      rewrite split_newlines. cbn [tableRuns].
      destruct (isTableLine l).
      * destruct k as [|k].
        -- cbn [repeat app Nat.eqb]. now apply IH.
        -- cbn [repeat app Nat.eqb tableRuns].
           change (isTableLine []) with false. cbv iota.
           now rewrite tableRuns_empties, IH.
      * now rewrite tableRuns_empties, IH.
Qed.

Lemma tableRuns_document (k0 : nat) (items : list (jsstring * nat)) :
  laidOut items ->
  tableRuns (split newline (repeat newline k0 ++ layout items)) []
  = runsOf items [].
Proof.
  intros Hl. rewrite split_newlines, tableRuns_empties. now apply tableRuns_layout.
Qed.

Lemma layout_free (k0 : nat) (items : list (jsstring * nat)) :
  laidOut items -> ~ In lt_sign (repeat newline k0 ++ layout items).
Proof.
  intros Hl Hin. apply in_app_or in Hin. destruct Hin as [Hin|Hin].
  - apply repeat_spec in Hin. discriminate.
  - induction items as [|[l k] items IH]; [destruct Hin|].
    destruct Hl as (_ & _ & Hlt & _ & Hrest). cbn [layout] in Hin.
    apply in_app_or in Hin. destruct Hin as [Hin|Hin]; [auto|].
    apply in_app_or in Hin. destruct Hin as [Hin|Hin]; [|auto].
    apply repeat_spec in Hin. discriminate.
Qed.

(** *** The paragraph pattern on a layout *)

Lemma squeeze_free (s : jsstring) : ~ In newline s -> squeeze s = s.
Proof.
  induction s as [|c s IH]; intros Hnl; rewrite squeeze_step.
  - reflexivity.
  - cbn [paragraphBreak].
    destruct (chr_eqb c newline) eqn:E.
    + apply chr_eqb_eq in E. subst c. exfalso. apply Hnl. now left.
    + f_equal. apply IH. intros Hin. apply Hnl. now right.
Qed.

Lemma squeezedNewlines_count (n : nat) :
  squeezedNewlines n = repeat newline (squeezedCount n).
Proof. unfold squeezedNewlines, squeezedCount. now destruct (3 <=? n). Qed.

Lemma squeeze_layout (items : list (jsstring * nat)) :
  laidOut items ->
  squeeze (layout items) = layout (map squeezeItem items).
Proof.
  induction items as [|[l k] items IH]; intros Hl; [reflexivity|].
  destruct Hl as (Hne & Hneat & _ & Hk & Hrest).
  cbn [layout map squeezeItem fst snd].
  rewrite squeeze_app by now apply neat_ends.
  rewrite squeeze_free by apply Hneat.
  rewrite squeeze_newlines by now apply layout_stops.
  now rewrite squeezedNewlines_count, IH.
Qed.

Lemma squeeze_document (k0 : nat) (items : list (jsstring * nat)) :
  laidOut items ->
  squeeze (repeat newline k0 ++ layout items)
  = repeat newline (squeezedCount k0) ++ layout (map squeezeItem items).
Proof.
  intros Hl. rewrite squeeze_newlines by now apply layout_stops.
  now rewrite squeezedNewlines_count, squeeze_layout.
Qed.

Lemma squeezedCount_pos (k : nat) : 1 <= k -> 1 <= squeezedCount k.
Proof. unfold squeezedCount. destruct (3 <=? k); lia. Qed.

Lemma squeezedCount_one (k : nat) : (squeezedCount k =? 1) = (k =? 1).
Proof.
  unfold squeezedCount. destruct (3 <=? k) eqn:E; [|reflexivity].
  apply Nat.leb_le in E. symmetry. apply Nat.eqb_neq. lia.
Qed.

Lemma laidOut_squeeze (items : list (jsstring * nat)) :
  laidOut items -> laidOut (map squeezeItem items).
Proof.
  induction items as [|[l k] items IH]; intros Hl; [exact I|].
  destruct Hl as (Hne & Hneat & Hlt & Hk & Hrest).
  cbn [map squeezeItem fst snd laidOut]. repeat split; try apply Hneat; auto.
  destruct Hk as [->|Hk]; [now left|right; now apply squeezedCount_pos].
Qed.

Lemma runsOf_squeeze (items : list (jsstring * nat)) :
  forall pending, runsOf (map squeezeItem items) pending = runsOf items pending.
Proof.
  induction items as [|[l k] items IH]; intros pending; [reflexivity|].
  cbn [map squeezeItem fst snd runsOf]. rewrite squeezedCount_one.
  now rewrite !IH.
Qed.

(** *** The final trim on a layout *)

Lemma blank_newlines (k : nat) : blank (repeat newline k) = true.
Proof. induction k as [|k IH]; [reflexivity|exact IH]. Qed.

Lemma layout_not_nil (items : list (jsstring * nat)) :
  laidOut items -> items <> [] -> layout items <> [].
Proof.
  destruct items as [|[l k] items]; [contradiction|].
  intros (Hne & _) _. cbn [layout]. destruct l; [contradiction|discriminate].
Qed.

Lemma laidOut_unpad (items : list (jsstring * nat)) :
  laidOut items -> laidOut (unpad items).
Proof.
  induction items as [|[l k] items IH]; intros Hl; [exact I|].
  destruct Hl as (Hne & Hneat & Hlt & Hk & Hrest).
  cbn [unpad]. destruct items as [|it items'].
  - cbn [laidOut]. repeat split; try apply Hneat; auto.
  - change (laidOut ((l, k) :: unpad (it :: items'))).
    cbn [laidOut]. repeat split; try apply Hneat; auto.
    right. destruct Hk as [Hk|Hk]; [discriminate|exact Hk].
Qed.

Lemma unpad_not_nil (items : list (jsstring * nat)) :
  items <> [] -> unpad items <> [].
Proof.
  destruct items as [|[l k] [|it items']]; [contradiction|discriminate|discriminate].
Qed.

Lemma trimEnd_layout (items : list (jsstring * nat)) :
  laidOut items -> trimEnd (layout items) = layout (unpad items).
Proof.
  induction items as [|[l k] items IH]; intros Hl; [reflexivity|].
  pose proof Hl as (Hne & Hneat & Hlt & Hk & Hrest).
  cbn [layout unpad]. destruct items as [|it items'].
  - cbn [layout repeat app]. rewrite !app_nil_r, trimEnd_app.
    rewrite (trimEnd_blank _ (blank_newlines k)).
    now apply trimEnd_fixed, neat_ends.
  - change (layout ((l, k) :: unpad (it :: items')))
      with (l ++ repeat newline k ++ layout (unpad (it :: items'))).
    rewrite <- IH by exact Hrest.
    assert (Hnn : trimEnd (layout (it :: items')) <> []).
    { rewrite IH by exact Hrest. apply layout_not_nil.
      - now apply laidOut_unpad.
      - now apply unpad_not_nil. }
    rewrite trimEnd_app.
    rewrite (trimEnd_app (repeat newline k)).
    destruct (trimEnd (layout (it :: items'))) as [|x t] eqn:E; [contradiction|].
    destruct (repeat newline k ++ x :: t) eqn:E2; [|reflexivity].
    apply app_eq_nil in E2. destruct E2 as [_ E2]. discriminate.
Qed.

Lemma trim_document (k0 : nat) (items : list (jsstring * nat)) :
  laidOut items ->
  trim (repeat newline k0 ++ layout items) = layout (unpad items).
Proof.
  intros Hl. unfold trim. rewrite trimStart_dropWhile.
  rewrite dropWhile_blank by apply blank_newlines.
  rewrite dropWhile_fixed by now apply layout_stops.
  now apply trimEnd_layout.
Qed.

Lemma runsOf_unpad (items : list (jsstring * nat)) :
  forall pending, runsOf (unpad items) pending = runsOf items pending.
Proof.
  induction items as [|[l k] items IH]; intros pending; [reflexivity|].
  cbn [unpad]. destruct items as [|it items'].
  - cbn [runsOf]. destruct (isTableLine l); [|reflexivity].
    cbn [Nat.eqb]. destruct (k =? 1); [|reflexivity].
    apply app_nil_r.
  - change (runsOf ((l, k) :: unpad (it :: items')) pending
            = runsOf ((l, k) :: it :: items') pending).
    cbn [runsOf]. now rewrite !IH.
Qed.

End LayoutFacts.

(* ================================================================== *)
(** ** The header pattern *)

Section HeaderFacts.

Lemma replace_from_fuel (r : regex) (tpl : template) (n : nat) :
  forall st fuel1 fuel2,
    length (after st) < n -> n <= fuel1 -> n <= fuel2 ->
    replace_from r tpl fuel1 st = replace_from r tpl fuel2 st.
Proof.
  induction n as [|n IH]; intros st fuel1 fuel2 Hn H1 H2; [lia|].
  destruct fuel1 as [|fuel1]; [lia|]. destruct fuel2 as [|fuel2]; [lia|].
  cbn [replace_from].
  assert (Hadv : match advance st with
                 | Some (c, st1) => c :: replace_from r tpl fuel1 st1
                 | None => []
                 end
                 = match advance st with
                   | Some (c, st1) => c :: replace_from r tpl fuel2 st1
                   | None => []
                   end).
  { unfold advance. destruct (after st) as [|c s']; [reflexivity|].
    f_equal. apply IH; cbn [after length] in *; lia. }
  destruct (match_here r st) as [st'|]; [|exact Hadv].
  destruct (length (after st') <? length (after st)) eqn:E.
  - f_equal. apply Nat.ltb_lt in E. apply IH; cbn [after]; lia.
  - now rewrite Hadv.
Qed.

Lemma headersAt_skip (b : jsstring) (c : ascii) (t : jsstring) :
  match_here re_empty_header (MState b (c :: t) []) = None ->
  headersAt b (c :: t) = c :: headersAt (c :: b) t.
Proof.
  intros H. unfold headersAt at 1. cbn [replace_from length]. rewrite H.
  cbn [advance after before]. reflexivity.
Qed.

Lemma headersAt_match (b text b' rest' : jsstring) (g' : list (nat * jsstring)) :
  match_here re_empty_header (MState b text []) = Some (MState b' rest' g') ->
  length rest' < length text ->
  headersAt b text = headersAt b' rest'.
Proof.
  intros H Hlen. unfold headersAt at 1. cbn [replace_from]. rewrite H.
  cbn [after before]. apply Nat.ltb_lt in Hlen as Hlt. rewrite Hlt.
  cbn [expand flat_map app]. unfold headersAt.
  apply (replace_from_fuel _ _ (S (length rest'))); cbn [after]; lia.
Qed.

(** *** Line terminators *)

Lemma terminator_cases (x : ascii) :
  isLineTerminator x = true -> x = newline \/ x = cr.
Proof.
  unfold isLineTerminator, code. intros H. apply orb_prop in H.
  destruct H as [H|H]; apply Nat.eqb_eq in H; [left|right];
    rewrite <- (ascii_nat_embedding x), H; reflexivity.
Qed.

Lemma terminator_space (x : ascii) :
  isLineTerminator x = true -> isSpace x = true.
Proof. intros H. now destruct (terminator_cases x H) as [->| ->]. Qed.

Lemma nonspace_not_terminator (x : ascii) :
  isSpace x = false -> isLineTerminator x = false.
Proof.
  intros H. destruct (isLineTerminator x) eqn:E; [|reflexivity].
  apply terminator_space in E. congruence.
Qed.

Lemma neat_no_terminator (l : jsstring) (x : ascii) :
  neat l -> In x l -> isLineTerminator x = false.
Proof.
  intros (_ & Hnl & Hcr) Hin. destruct (isLineTerminator x) eqn:E; [|reflexivity].
  destruct (terminator_cases x E) as [->| ->]; contradiction.
Qed.

(** *** The end of the pattern *)

Lemma atLineEnd_eq (b t : jsstring) (g : list (nat * jsstring)) :
  atLineEnd (MState b t g)
  = match t with
    | [] => Some (MState b [] g)
    | x :: _ => if isLineTerminator x then Some (MState b t g) else None
    end.
Proof.
  unfold atLineEnd. rewrite rmatch_Seq, rmatch_Eol. cbn [after andb].
  destruct t as [|x t]; [reflexivity|].
  destruct (isLineTerminator x); reflexivity.
Qed.

Lemma spacesToLineEnd_eq (b w rest : jsstring) (g : list (nat * jsstring)) :
  Forall (fun c => isSpace c = true) w -> stopsAt isSpace rest ->
  spacesToLineEnd (MState b (w ++ rest) g) = backtrack atLineEnd b w rest g.
Proof.
  intros Hw Hrest. unfold spacesToLineEnd. rewrite rmatch_Seq, rmatch_Star.
  cbn [after]. unfold ws. rewrite star_cls; [reflexivity|exact Hw|exact Hrest|].
  rewrite length_app. lia.
Qed.

Lemma backtrack_full (k : mstate -> option mstate) (w : jsstring) :
  forall b rest g,
    (forall u v, w = u ++ v -> v <> [] -> k (splitAt b u v rest g) = None) ->
    backtrack k b w rest g = k (splitAt b w [] rest g).
Proof.
  intros b rest g H. destruct (k (splitAt b w [] rest g)) as [x|] eqn:E.
  - apply (backtrack_last k w b rest g w [] x); [now rewrite app_nil_r|exact E|].
    intros u' v' Eq Hlen. apply (f_equal (@length ascii)) in Eq.
    rewrite length_app in Eq. lia.
  - apply backtrack_none. intros u v Eq. destruct v as [|y v].
    + rewrite app_nil_r in Eq. now subst u.
    + apply H; [exact Eq|discriminate].
Qed.

(** At the end of the text the white space is taken whole. *)
Lemma line_end_reached (b w : jsstring) (g : list (nat * jsstring)) :
  Forall (fun c => isSpace c = true) w ->
  spacesToLineEnd (MState b w g) = Some (MState (rev w ++ b) [] g).
Proof.
  intros Hw. rewrite <- (app_nil_r w) at 1.
  rewrite spacesToLineEnd_eq; [|exact Hw|exact I].
  apply (backtrack_last atLineEnd w b [] g w []).
  - now rewrite app_nil_r.
  - unfold splitAt. cbn [app]. now rewrite atLineEnd_eq.
  - intros u' v' Eq Hlen. apply (f_equal (@length ascii)) in Eq.
    rewrite length_app in Eq. lia.
Qed.

(** Before other text the white space is taken up to its last code unit,
    when that is a line terminator. *)
Lemma line_end_before (b w rest : jsstring) (x : ascii)
    (g : list (nat * jsstring)) :
  Forall (fun c => isSpace c = true) w -> isLineTerminator x = true ->
  rest <> [] -> stopsAt isSpace rest ->
  spacesToLineEnd (MState b (w ++ x :: rest) g)
  = Some (MState (rev w ++ b) (x :: rest) g).
Proof.
  intros Hw Hx Hne Hrest.
  change (w ++ x :: rest) with (w ++ [x] ++ rest). rewrite app_assoc.
  rewrite spacesToLineEnd_eq; [| |exact Hrest].
  - apply (backtrack_last atLineEnd (w ++ [x]) b rest g w [x]).
    + reflexivity.
    + unfold splitAt. cbn [app]. rewrite atLineEnd_eq. now rewrite Hx.
    + intros u' v' Eq Hlen. unfold splitAt. rewrite atLineEnd_eq.
      assert (v' = []) as ->.
      { apply (f_equal (@length ascii)) in Eq. rewrite !length_app in Eq.
        cbn [length] in Eq. destruct v'; [reflexivity|cbn [length] in Eq; lia]. }
      cbn [app]. destruct rest as [|c rest]; [contradiction|].
      cbn [stopsAt] in Hrest. now rewrite (nonspace_not_terminator c Hrest).
  - apply Forall_app. split; [exact Hw|].
    constructor; [now apply terminator_space|constructor].
Qed.

(** Inside a line no end of line is found. *)
Lemma line_end_missed (b l more : jsstring) (g : list (nat * jsstring)) :
  l <> [] -> endsNonSpace l ->
  (forall x, In x l -> isLineTerminator x = false) ->
  spacesToLineEnd (MState b (l ++ more) g) = None.
Proof.
  intros Hne Hends Hl.
  pose proof (endsNonSpace_dropWhile l Hends Hne) as Hd.
  pose proof (takeWhile_dropWhile isSpace l) as El.
  pose proof (dropWhile_stops isSpace l) as Hstop.
  remember (takeWhile isSpace l) as w eqn:Ew.
  remember (dropWhile isSpace l) as r eqn:Er.
  destruct r as [|c r]; [contradiction|]. cbn [stopsAt] in Hstop.
  rewrite El, <- app_assoc.
  rewrite spacesToLineEnd_eq.
  - apply backtrack_none. intros u v Eq. unfold splitAt. rewrite atLineEnd_eq.
    destruct v as [|y v]; cbn [app].
    + now rewrite (nonspace_not_terminator c Hstop).
    + rewrite Hl; [reflexivity|]. rewrite El, Eq.
      apply in_or_app. left. apply in_or_app. right. now left.
  - subst w. apply takeWhile_all.
  - exact Hstop.
Qed.

Lemma spaces_not_at_hash (b t : jsstring) (g : list (nat * jsstring)) :
  spacesToLineEnd (MState b (hash :: t) g) = None.
Proof.
  change (hash :: t) with ([] ++ hash :: t).
  rewrite spacesToLineEnd_eq; [|constructor|reflexivity].
  cbn [backtrack]. now rewrite atLineEnd_eq.
Qed.

(** *** The start of the pattern *)

Lemma match_header_inside (x : ascii) (b text : jsstring) :
  isLineTerminator x = false ->
  match_here re_empty_header (MState (x :: b) text []) = None.
Proof.
  intros H. unfold match_here, re_empty_header. cbn [seqs before after].
  rewrite rmatch_Seq, rmatch_Bol. cbn [before andb]. now rewrite H.
Qed.

Lemma match_header_other (b text : jsstring) :
  stopsAt isHash text ->
  match_here re_empty_header (MState b text []) = None.
Proof.
  intros H. unfold match_here, re_empty_header. cbn [seqs before after].
  rewrite rmatch_Seq, rmatch_Bol. cbn [before andb].
  assert (rmatch (Seq (Plus (Chr "#")) (Seq (Star ws) (Seq (Eol true) Emp)))
            (MState b text []) Some = None) as E.
  { rewrite rmatch_Seq, rmatch_Plus. destruct text as [|c t].
    - apply rmatch_Chr_nil.
    - rewrite rmatch_Chr_cons. cbn [stopsAt] in H. unfold isHash, hash in H.
      now rewrite H. }
  rewrite E. destruct b as [|x b]; [reflexivity|].
  destruct (isLineTerminator x); reflexivity.
Qed.

Lemma repeat_shift (c : ascii) (j : nat) (b : jsstring) :
  repeat c j ++ c :: b = c :: repeat c j ++ b.
Proof. induction j as [|j IH]; [reflexivity|]. cbn [repeat app]. now rewrite IH. Qed.

Lemma rev_repeat_same (c : ascii) (j : nat) : rev (repeat c j) = repeat c j.
Proof.
  induction j as [|j IH]; [reflexivity|].
  cbn [repeat rev]. rewrite IH.
  change [c] with (repeat c 1). rewrite <- repeat_app.
  now rewrite Nat.add_comm.
Qed.

(** After the hashes of a line start, the pattern goes on with the white
    space up to the end of the line. *)
Lemma match_header_hashes (b x : jsstring) (j : nat) :
  lineStart b -> stopsAt isHash x ->
  match_here re_empty_header (MState b (repeat hash (S j) ++ x) [])
  = spacesToLineEnd (MState (repeat hash (S j) ++ b) x []).
Proof.
  intros Hb Hx. unfold match_here, re_empty_header. cbn [seqs before after].
  rewrite rmatch_Seq, rmatch_Bol. cbn [before andb].
  assert (forall K : option mstate,
            match b with
            | [] => K
            | y :: _ => if isLineTerminator y then K else None
            end = K) as ->.
  { intros K. destruct b as [|y b]; [reflexivity|]. cbn [lineStart] in Hb.
    now rewrite Hb. }
  rewrite rmatch_Seq, rmatch_Plus. cbn [repeat app]. rewrite rmatch_Chr_cons.
  change (chr_eqb hash "#") with true. cbv iota. cbn [after].
  change (rmatch (Chr "#")) with (rmatch (Cls isHash)).
  rewrite star_cls.
  - rewrite backtrack_full.
    + unfold splitAt. cbn [app]. rewrite rev_repeat_same, repeat_shift.
      reflexivity.
    + intros u v Eq Hv. unfold splitAt.
      destruct v as [|y v]; [contradiction|].
      assert (y = hash) as ->.
      { apply (repeat_spec j hash y). rewrite Eq.
        apply in_or_app. right. now left. }
      apply (spaces_not_at_hash (rev u ++ hash :: b) (v ++ x) []).
  - apply Forall_forall. intros y Hy. apply repeat_spec in Hy. now subst y.
  - exact Hx.
  - rewrite length_app. lia.
Qed.

(** *** A line at a time *)

Lemma all_hash_repeat (hs : jsstring) :
  Forall (fun c => isHash c = true) hs -> hs = repeat hash (length hs).
Proof.
  induction 1 as [|c hs Hc _ IH]; [reflexivity|].
  cbn [length repeat]. unfold isHash in Hc. apply chr_eqb_eq in Hc.
  subst c. now f_equal.
Qed.

Lemma header_repeat (l : jsstring) :
  isHeader l = true -> l = repeat hash (length l).
Proof.
  intros H. apply all_hash_repeat. unfold isHeader in H.
  rewrite forallb_forall in H. now apply Forall_forall.
Qed.

Lemma dropWhile_nil_all (p : ascii -> bool) (l : jsstring) :
  dropWhile p l = [] -> forallb p l = true.
Proof.
  induction l as [|c l IH]; [reflexivity|]. cbn [dropWhile forallb].
  destruct (p c); [exact IH|discriminate].
Qed.

(** No match starts at the head of a line that is not made of hashes. *)
Lemma line_no_match (b l more : jsstring) :
  l <> [] -> neat l -> isHeader l = false ->
  match_here re_empty_header (MState b (l ++ more) []) = None.
Proof.
  intros Hne Hneat Hh.
  assert (Hb : lineStart b \/ exists x b0, b = x :: b0 /\ isLineTerminator x = false).
  { destruct b as [|x b0]; [now left|].
    destruct (isLineTerminator x) eqn:E; [now left|right; eauto]. }
  destruct Hb as [Hb|(x & b0 & -> & Hx)]; [|now apply match_header_inside].
  pose proof (takeWhile_dropWhile isHash l) as El.
  pose proof (dropWhile_stops isHash l) as Hstop.
  pose proof (all_hash_repeat _ (takeWhile_all isHash l)) as Ehs.
  assert (Hd : dropWhile isHash l <> []).
  { intros E. apply dropWhile_nil_all in E. unfold isHeader in Hh. congruence. }
  remember (takeWhile isHash l) as hs eqn:Ew.
  remember (dropWhile isHash l) as l' eqn:Er.
  assert (Hstop' : stopsAt isHash (l' ++ more)).
  { destruct l' as [|c l']; [contradiction|exact Hstop]. }
  rewrite El, <- app_assoc.
  destruct (length hs) as [|j] eqn:Elen.
  - rewrite Ehs. cbn [repeat app]. now apply match_header_other.
  - rewrite Ehs, match_header_hashes by assumption.
    apply line_end_missed.
    + exact Hd.
    + apply (endsNonSpace_suffix hs l'); [|exact Hd]. rewrite <- El.
      now apply neat_ends.
    + intros x Hx. apply (neat_no_terminator l x Hneat). rewrite El.
      apply in_or_app. now right.
Qed.

Lemma headersAt_nil (b : jsstring) : headersAt b [] = [].
Proof.
  unfold headersAt. cbn [replace_from length].
  rewrite match_header_other by exact I. reflexivity.
Qed.

Lemma headersAt_inside (u : jsstring) :
  forall x b rest,
    isLineTerminator x = false ->
    (forall y, In y u -> isLineTerminator y = false) ->
    headersAt (x :: b) (u ++ rest) = u ++ headersAt (rev u ++ x :: b) rest.
Proof.
  induction u as [|c u IH]; intros x b rest Hx Hu; [reflexivity|].
  cbn [app]. rewrite headersAt_skip by now apply match_header_inside.
  f_equal. rewrite IH.
  - cbn [rev]. now rewrite <- app_assoc.
  - apply Hu. now left.
  - intros y Hy. apply Hu. now right.
Qed.

(** A line that is not made of hashes is left as it is. *)
Lemma headersAt_line (b l rest : jsstring) :
  l <> [] -> neat l -> isHeader l = false ->
  headersAt b (l ++ rest) = l ++ headersAt (rev l ++ b) rest.
Proof.
  intros Hne Hneat Hh. pose proof (line_no_match b l rest Hne Hneat Hh) as Hm.
  destruct l as [|c l]; [contradiction|]. cbn [app] in *.
  rewrite headersAt_skip by exact Hm. f_equal.
  rewrite headersAt_inside.
  - cbn [rev]. now rewrite <- app_assoc.
  - apply (neat_no_terminator _ _ Hneat). now left.
  - intros y Hy. apply (neat_no_terminator _ _ Hneat). now right.
Qed.

Lemma headersAt_newlines (k : nat) :
  forall b rest,
    exists b',
      headersAt b (repeat newline k ++ rest)
      = repeat newline k ++ headersAt b' rest /\
      (lineStart b \/ 1 <= k -> lineStart b').
Proof.
  induction k as [|k IH]; intros b rest.
  - exists b. split; [reflexivity|]. intros [H|H]; [exact H|lia].
  - destruct (IH (newline :: b) rest) as (b' & E & Hb').
    exists b'. split.
    + cbn [repeat app].
      rewrite headersAt_skip by (apply match_header_other; reflexivity).
      now rewrite E.
    + intros _. apply Hb'. left. reflexivity.
Qed.

Lemma header_length (l : jsstring) :
  l <> [] -> isHeader l = true -> exists j, l = repeat hash (S j).
Proof.
  intros Hne Hh. pose proof (header_repeat l Hh) as E.
  destruct l as [|c l]; [contradiction|]. exists (length l). exact E.
Qed.

(** A line of hashes at the end of the text goes with all that follows. *)
Lemma headersAt_header_last (b l : jsstring) (k : nat) :
  lineStart b -> l <> [] -> isHeader l = true ->
  headersAt b (l ++ repeat newline k) = [].
Proof.
  intros Hb Hne Hh. destruct (header_length l Hne Hh) as (j & ->).
  rewrite (headersAt_match b _ (rev (repeat newline k) ++ repeat hash (S j) ++ b) [] []).
  - apply headersAt_nil.
  - rewrite match_header_hashes; [|exact Hb|destruct k; [exact I|reflexivity]].
    apply line_end_reached.
    apply Forall_forall. intros y Hy. apply repeat_spec in Hy. now subst y.
  - rewrite length_app. cbn [length repeat]. lia.
Qed.

(** A line of hashes before other lines goes with the newlines after it
    but the last one. *)
Lemma headersAt_header_mid (b l rest : jsstring) (k : nat) :
  lineStart b -> l <> [] -> isHeader l = true ->
  rest <> [] -> stopsAt isSpace rest ->
  exists b',
    headersAt b (l ++ repeat newline (S k) ++ rest) = newline :: headersAt b' rest /\
    lineStart b'.
Proof.
  intros Hb Hne Hh Hrest Hstop. destruct (header_length l Hne Hh) as (j & ->).
  exists (newline :: rev (repeat newline k) ++ repeat hash (S j) ++ b).
  split; [|reflexivity].
  rewrite (headersAt_match b _ (rev (repeat newline k) ++ repeat hash (S j) ++ b)
             (newline :: rest) []).
  - apply headersAt_skip. apply match_header_other. reflexivity.
  - rewrite match_header_hashes; [|exact Hb|reflexivity].
    rewrite (repeat_snoc newline k), <- app_assoc.
    change ([newline] ++ rest) with (newline :: rest).
    apply line_end_before; [|reflexivity|exact Hrest|exact Hstop].
    apply Forall_forall. intros y Hy. apply repeat_spec in Hy. now subst y.
  - rewrite !length_app. cbn [length repeat]. lia.
Qed.

(** The header pattern on a layout. *)
Lemma headersAt_layout (items : list (jsstring * nat)) :
  laidOut items ->
  forall b, lineStart b -> headersAt b (layout items) = headerless items.
Proof.
  induction items as [|[l k] items IH]; intros Hl b Hb.
  - apply headersAt_nil.
  - destruct Hl as (Hne & Hneat & _ & Hk & Hrest). cbn [layout headerless].
    destruct (isHeader l) eqn:Hh.
    + destruct items as [|it items'].
      * cbn [layout]. rewrite app_nil_r. now apply headersAt_header_last.
      * destruct Hk as [Hk|Hk]; [discriminate|]. destruct k as [|k]; [lia|].
        destruct (headersAt_header_mid b l (layout (it :: items')) k Hb Hne Hh)
          as (b' & E & Hb').
        -- apply layout_not_nil; [exact Hrest|discriminate].
        -- now apply layout_stops.
        -- rewrite E. f_equal. now apply IH.
    + rewrite headersAt_line by assumption. f_equal.
      destruct (headersAt_newlines k (rev l ++ b) (layout items)) as (b' & E & Hb').
      rewrite E. f_equal.
      destruct items as [|it items'].
      * cbn [layout headerless]. apply headersAt_nil.
      * apply IH; [exact Hrest|]. apply Hb'. right.
        destruct Hk as [Hk|Hk]; [discriminate|exact Hk].
Qed.

Lemma removeEmptyHeaders_document (k0 : nat) (items : list (jsstring * nat)) :
  laidOut items ->
  removeEmptyHeaders (repeat newline k0 ++ layout items)
  = repeat newline k0 ++ headerless items.
Proof.
  intros Hl.
  assert (E : forall t, removeEmptyHeaders t = headersAt [] t) by reflexivity.
  rewrite E.
  destruct (headersAt_newlines k0 [] (layout items)) as (b' & -> & Hb').
  f_equal. apply headersAt_layout; [exact Hl|]. apply Hb'. now left.
Qed.

(** *** The layout of what is left *)

Lemma headerless_layout (items : list (jsstring * nat)) :
  headerless items
  = repeat newline (fst (hdrItems items)) ++ layout (snd (hdrItems items)).
Proof.
  induction items as [|[l k] items IH]; [reflexivity|].
  cbn [headerless hdrItems]. destruct (isHeader l).
  - destruct items as [|it items']; [reflexivity|].
    rewrite IH. reflexivity.
  - cbn [fst snd repeat app layout].
    now rewrite IH, repeat_app, <- app_assoc.
Qed.

Lemma laidOut_hdr (items : list (jsstring * nat)) :
  laidOut items -> laidOut (snd (hdrItems items)).
Proof.
  induction items as [|[l k] items IH]; intros Hl; [exact I|].
  destruct Hl as (Hne & Hneat & Hlt & Hk & Hrest).
  cbn [hdrItems]. destruct (isHeader l).
  - destruct items as [|it items']; [exact I|]. cbn [snd]. now apply IH.
  - cbn [snd laidOut]. repeat split; try apply Hneat; auto.
    destruct Hk as [->|Hk]; [now left|right; lia].
Qed.

Lemma header_not_table (l : jsstring) :
  isHeader l = true -> isTableLine l = false.
Proof.
  intros H. rewrite isTableLine_countPipes. unfold countPipes.
  rewrite (proj1 (count_occ_not_In ascii_dec l pipe)); [reflexivity|].
  intros Hin. unfold isHeader in H. rewrite forallb_forall in H.
  apply H in Hin. vm_compute in Hin. discriminate.
Qed.

Lemma hdrItems_count (items : list (jsstring * nat)) :
  1 <= fst (hdrItems items) -> items <> [].
Proof. destruct items; [cbn; lia|discriminate]. Qed.

(** Removing the lines of hashes keeps the runs of table lines. *)
Lemma runsOf_hdr (items : list (jsstring * nat)) :
  laidOut items ->
  forall pending,
    runsOf items pending
    = if fst (hdrItems items) =? 0 then runsOf (snd (hdrItems items)) pending
      else flushRun pending ++ runsOf (snd (hdrItems items)) [].
Proof.
  induction items as [|[l k] items IH]; intros Hl pending; [reflexivity|].
  destruct Hl as (Hne & Hneat & Hlt & Hk & Hrest).
  specialize (IH Hrest).
  assert (IH0 : runsOf items [] = runsOf (snd (hdrItems items)) []).
  { rewrite IH. now destruct (fst (hdrItems items) =? 0). }
  cbn [hdrItems runsOf]. destruct (isHeader l) eqn:Hh.
  - rewrite (header_not_table l Hh).
    destruct items as [|it items'].
    + cbn [fst snd Nat.eqb runsOf]. apply app_nil_r.
    + cbn [fst snd Nat.eqb]. now rewrite IH0.
  - cbn [fst snd Nat.eqb runsOf].
    destruct (isTableLine l); [|now rewrite IH0].
    destruct (fst (hdrItems items)) as [|e] eqn:Ee.
    + rewrite Nat.add_0_r. rewrite !IH. cbn [Nat.eqb]. reflexivity.
    + assert (Hk1 : 1 <= k).
      { destruct Hk as [->|Hk]; [cbn in Ee; discriminate|exact Hk]. }
      replace (k + S e =? 1) with false by (symmetry; apply Nat.eqb_neq; lia).
      destruct (k =? 1).
      * rewrite IH. cbn [Nat.eqb]. reflexivity.
      * now rewrite IH0.
Qed.

End HeaderFacts.

(* ================================================================== *)
(** ** The second pass over the output of the first *)

Section SecondPass.



Lemma repairBrokenUrls_plain (text : jsstring) :
  ~ In lt_sign text -> repairBrokenUrls text = text.
Proof.
  intros H. unfold repairBrokenUrls.
  apply (replace_all_requires lt_sign); [reflexivity|exact H].
Qed.

(** The global cleanups and the final trim keep the runs of table lines of
    a document whose lines are neat. *)
Lemma cleanups_keep_runs (cleaned : list jsstring) :
  Forall (fun l => neat l /\ ~ In lt_sign l) cleaned -> cleaned <> [] ->
  tableRuns (split newline (trim (applyGlobalCleanups (join [newline] cleaned)))) []
  = tableRuns cleaned [].
Proof.
  intros Hall Hne.
  destruct (layout_exists cleaned Hall Hne) as (k0 & items & Hitems & E).
  assert (Hsplit : split newline (join [newline] cleaned) = cleaned).
  { apply split_join; [|exact Hne].
    eapply Forall_impl; [|exact Hall]. now intros l ((_ & H & _) & _). }
  rewrite <- Hsplit at 2. rewrite E.
  rewrite (tableRuns_document k0 items Hitems).
  unfold applyGlobalCleanups.
  rewrite fixParagraphSpacing_squeeze, (squeeze_document k0 items Hitems).
  pose proof (laidOut_squeeze items Hitems) as H1.
  rewrite (removeEmptyHeaders_document _ _ H1), headerless_layout.
  pose proof (laidOut_hdr _ H1) as H2.
  rewrite app_assoc, <- repeat_app.
  rewrite repairBrokenUrls_plain by now apply layout_free.
  rewrite (trim_document _ _ H2).
  rewrite (tableRuns_layout _ (laidOut_unpad _ H2)).
  rewrite runsOf_unpad, <- (runsOf_squeeze items), (runsOf_hdr _ H1).
  now destruct (fst (hdrItems (map squeezeItem items)) =? 0).
Qed.

End SecondPass.




(* ================================================================== *)
(** * Further properties of the cleaning pipeline *)

(** ** The two line cleaners *)

Section CleanerFacts.

(** After the tag replacements, [cleanTableLine] is the normal form of the
    pieces between the pipes, whatever the line. *)
Lemma spaced_normal (s : jsstring) :
  trim (pipeSpace (collapse s)) = normalLine (rawCells s).
Proof.
  rewrite <- (join_split pipe (collapse s)), split_collapse.
  rewrite trim_pipeSpace_pieces.
  - unfold rawCells. now rewrite map_map.
  - apply Forall_forall. intros q Hq. apply in_map_iff in Hq.
    destruct Hq as (p & <- & Hp).
    apply collapse_free; [apply pipe_neq_space|].
    pose proof (split_pieces_free pipe s) as Hf.
    rewrite Forall_forall in Hf. now apply Hf.
  - intros E. apply map_eq_nil in E. now apply (split_not_nil pipe s).
Qed.

Lemma cleanTableLine_normal_any (line : jsstring) :
  cleanTableLine line = normalLine (rawCells (stripTableTags line)).
Proof. rewrite cleanTableLine_stripped. apply spaced_normal. Qed.

Lemma normalLine_pipes (s : jsstring) :
  countPipes (normalLine (rawCells s)) = countPipes s.
Proof.
  unfold countPipes, normalLine. rewrite count_trim by reflexivity.
  rewrite join_count.
  - unfold rawCells. rewrite length_map, split_length. lia.
  - eapply Forall_impl; [|apply rawCells_fine]. now intros c [H _].
Qed.

Lemma split_pipe_length (s : jsstring) :
  length (split pipe s) = S (countPipes s).
Proof. apply split_length. Qed.

Lemma cleanTableLine_pipes_any (line : jsstring) :
  countPipes (cleanTableLine line) = countPipes line.
Proof.
  now rewrite cleanTableLine_normal_any, normalLine_pipes, stripTableTags_pipes.
Qed.

Lemma cleanTableLine_again (line : jsstring) :
  ~ In lt_sign (cleanTableLine line) ->
  cleanTableLine (cleanTableLine line) = cleanTableLine line.
Proof.
  intros H. rewrite <- (cleanTableLine_of_stripped line H).
  apply cleanTableLine_idem. now apply stripped_free.
Qed.

End CleanerFacts.

(** X3. Neither line cleaner adds or removes a pipe, so the cleaned line
    has the table verdict of the line it comes from. *)
Theorem cleaning_keeps_pipes (line : jsstring) :
  countPipes (cleanTableLine line) = countPipes line /\
  countPipes (cleanRegularLine line) = countPipes line /\
  isTableLine (cleanTableLine line) = isTableLine line /\
  isTableLine (cleanRegularLine line) = isTableLine line.
Proof.
  split; [apply cleanTableLine_pipes_any|].
  split; [apply cleanRegularLine_pipes|].
  split.
  - now rewrite !isTableLine_countPipes, cleanTableLine_pipes_any.
  - apply cleanRegularLine_verdict.
Qed.

(** X4. What [cleanTableLine] returns is made of the pieces that the pipes
    cut the line into, once the tags are replaced: each piece with its
    runs of white space turned into one space and trimmed, the pieces
    joined by a pipe between two spaces, and the whole trimmed.  No cell
    has a pipe, and none starts or ends with white space. *)
Theorem cleanTableLine_cells (line : jsstring) :
  let cells :=
    map (fun piece => trim (replace_all re_spaces [Lit (str " ")] piece))
        (split pipe (stripTableTags line)) in
  cleanTableLine line = trim (join (str " | ") cells) /\
  length cells = S (countPipes line) /\
  Forall (fun cell => ~ In pipe cell /\ trim cell = cell /\ tidy cell = true) cells.
Proof.
  cbv zeta. split; [|split].
  - rewrite cleanTableLine_normal_any. unfold normalLine, rawCells.
    rewrite str_cellSep. f_equal. f_equal. apply map_ext. intros p.
    now rewrite replace_spaces_collapse.
  - now rewrite length_map, split_pipe_length, stripTableTags_pipes.
  - apply Forall_forall. intros c Hc. apply in_map_iff in Hc.
    destruct Hc as (p & <- & Hp). rewrite replace_spaces_collapse.
    repeat split.
    + intros Hin. apply trim_incl in Hin. revert Hin.
      apply collapse_free; [apply pipe_neq_space|].
      pose proof (split_pieces_free pipe (stripTableTags line)) as Hf.
      rewrite Forall_forall in Hf. now apply Hf.
    + apply trim_idem.
    + apply tidy_trim, tidy_collapse.
Qed.

(** X5. When [cleanTableLine] leaves no [<] in a line, cleaning the result
    again changes nothing. *)
Theorem cleanTableLine_twice (line : jsstring) :
  ~ In lt_sign (cleanTableLine line) ->
  cleanTableLine (cleanTableLine line) = cleanTableLine line.
Proof. apply cleanTableLine_again. Qed.

Lemma cleanTableLine_twice_witness :
  cleanTableLine (cleanTableLine (str "|a<br>b  |<em>c</em>|"))
  = cleanTableLine (str "|a<br>b  |<em>c</em>|").
Proof.
  apply (cleanTableLine_twice (str "|a<br>b  |<em>c</em>|")).
  vm_compute. intuition discriminate.
Defined.

(** X6. Whatever the line, [cleanRegularLine] returns a text without white
    space at its ends in which every white space is a single space between
    two other code units; it holds no line terminator. *)
Theorem cleanRegularLine_single_spaces (line : jsstring) :
  tidy (cleanRegularLine line) = true /\
  trim (cleanRegularLine line) = cleanRegularLine line /\
  ~ In newline (cleanRegularLine line) /\ ~ In cr (cleanRegularLine line).
Proof.
  split.
  - unfold cleanRegularLine. rewrite replace_spaces_collapse.
    apply tidy_trim, tidy_collapse.
  - apply cleanRegularLine_neat.
Qed.

(** ** Documents of white space *)

Section BlankFacts.

(** A replacement by nothing changes no text in which no code unit can be
    part of a match. *)
Lemma replace_from_untouched (P : ascii -> Prop) (r : regex) :
  only P r ->
  forall fuel st,
    (forall c, In c (after st) -> ~ P c) ->
    replace_from r [] fuel st = after st.
Proof.
  intros Ho. induction fuel as [|fuel IH]; intros st Hst; [reflexivity|].
  cbn [replace_from].
  assert (Hadv : match advance st with
                 | Some (c0, st1) => c0 :: replace_from r [] fuel st1
                 | None => []
                 end = after st).
  { unfold advance. destruct (after st) as [|c0 s'] eqn:E; [reflexivity|].
    f_equal. apply IH. cbn [after]. intros c Hc. apply Hst. now right. }
  destruct (match_here r st) as [st'|] eqn:E; [|exact Hadv].
  unfold match_here in E.
  apply (rmatch_within P r Ho) in E; [|constructor].
  destruct E as (st1 & u & Ha & Hu & _ & Hk). injection Hk as ->.
  cbn [after] in Ha.
  assert (u = []) as ->.
  { destruct u as [|y u]; [reflexivity|]. exfalso.
    inversion Hu as [|? ? Hy _]; subst. apply (Hst y); [|exact Hy].
    rewrite Ha. now left. }
  cbn [app] in Ha. rewrite <- Ha, Nat.ltb_irrefl.
  cbn [expand flat_map app]. exact Hadv.
Qed.

Lemma blank_free (c : ascii) (s : jsstring) :
  isSpace c = false -> blank s = true -> ~ In c s.
Proof.
  intros Hc Hb Hin. unfold blank in Hb. rewrite forallb_forall in Hb.
  apply Hb in Hin. congruence.
Qed.

(** A line of white space is cleaned to the empty line. *)
Lemma cleanRegularLine_blank (line : jsstring) :
  blank line = true -> cleanRegularLine line = [].
Proof.
  intros Hb. unfold cleanRegularLine.
  rewrite (replace_all_requires lt_sign re_br)
    by (reflexivity || now apply blank_free).
  rewrite (replace_all_requires lt_sign re_u)
    by (reflexivity || now apply blank_free).
  rewrite (replace_all_requires lt_sign re_em)
    by (reflexivity || now apply blank_free).
  rewrite (replace_all_requires lt_sign re_strong)
    by (reflexivity || now apply blank_free).
  rewrite (replace_all_requires ","%char re_location)
    by (reflexivity || now apply blank_free).
  assert (E : replace_all re_footnote [] line = line).
  { unfold replace_all.
    apply (replace_from_untouched (fun x => isDigit x = true)).
    - cbn. repeat split; auto.
    - cbn [after start_state]. intros c Hc Hd.
      unfold blank in Hb. rewrite forallb_forall in Hb. apply Hb in Hc.
      revert Hc Hd. unfold isSpace, isDigit. generalize (code c). intros n.
      destruct (Nat.leb_spec 48 n), (Nat.leb_spec n 57);
        cbn [andb]; try discriminate.
      intros Hsp _.
      destruct (Nat.leb_spec 9 n), (Nat.leb_spec n 13),
        (Nat.eqb_spec n 32), (Nat.eqb_spec n 160);
        cbn in Hsp; try discriminate; lia. }
  rewrite E, replace_spaces_collapse.
  apply trim_blank, collapse_blank, Hb.
Qed.

Lemma blank_not_table (line : jsstring) :
  blank line = true -> isTableLine line = false.
Proof.
  intros Hb. rewrite isTableLine_countPipes. unfold countPipes.
  rewrite (proj1 (count_occ_not_In ascii_dec line pipe)); [reflexivity|].
  now apply blank_free.
Qed.

Lemma blocks_blank (lines : list jsstring) :
  Forall (fun l => blank l = true) lines ->
  forall i,
    blocks proseBranch tableBranch i lines [] = repeat [] (length lines).
Proof.
  intros H. induction H as [|l lines Hl _ IH]; intros i; [reflexivity|].
  cbn [blocks length repeat]. rewrite (blank_not_table l Hl).
  cbn [flush app]. unfold proseBranch at 1.
  now rewrite (cleanRegularLine_blank l Hl), IH.
Qed.

Lemma join_empties (n : nat) :
  join [newline] (repeat [] (S n)) = repeat newline n.
Proof.
  induction n as [|n IH]; [reflexivity|].
  change (repeat [] (S (S n))) with ([] :: [] :: repeat (@nil ascii) n).
  rewrite join_cons2. cbn [app repeat]. f_equal. exact IH.
Qed.

Lemma applyGlobalCleanups_newlines (n : nat) :
  blank (applyGlobalCleanups (repeat newline n)) = true.
Proof.
  unfold applyGlobalCleanups. rewrite fixParagraphSpacing_squeeze.
  rewrite <- (app_nil_r (repeat newline n)).
  rewrite squeeze_newlines by exact I.
  rewrite squeezedNewlines_count.
  replace (squeeze []) with (@nil ascii) by reflexivity. rewrite app_nil_r.
  assert (Hf : forall c k, c <> newline -> ~ In c (repeat newline k)).
  { intros c k Hc Hin. apply repeat_spec in Hin. congruence. }
  unfold removeEmptyHeaders.
  rewrite (replace_all_requires "#"%char re_empty_header)
    by (reflexivity || (apply Hf; discriminate)).
  unfold repairBrokenUrls.
  rewrite (replace_all_requires lt_sign re_broken_url)
    by (reflexivity || (apply Hf; discriminate)).
  apply blank_newlines.
Qed.

Lemma split_blank (text : jsstring) :
  blank text = true -> Forall (fun l => blank l = true) (split newline text).
Proof.
  intros Hb. apply Forall_forall. intros p Hp.
  unfold blank in *. rewrite forallb_forall in Hb |- *. intros c Hc.
  apply Hb. rewrite <- (join_split newline text).
  now apply (in_join [newline] p c).
Qed.

End BlankFacts.

(** X2. A text of white space only (spaces, tabs, empty lines) is cleaned
    to the empty string; so is the empty string, which [cleanMarkerOutput]
    returns as it is. *)
Theorem blank_text_gives_empty (text : jsstring) :
  blank text = true ->
  cleanMarkerOutput (JString text) = Returned (JString []).
Proof.
  intros Hb. destruct text as [|c text]; [reflexivity|].
  unfold cleanMarkerOutput. cbn [falsy notString truthy negb orb].
  unfold improvedCleanMarkerOutput. rewrite assemble_blocks.
  rewrite blocks_blank by now apply split_blank.
  destruct (length (split newline (c :: text))) as [|n] eqn:E.
  - exfalso. destruct (split newline (c :: text)) eqn:E2; [|discriminate].
    now apply (split_not_nil newline (c :: text)).
  - rewrite join_empties.
    now rewrite (trim_blank _ (applyGlobalCleanups_newlines n)).
Qed.

Lemma blank_text_gives_empty_witness :
  cleanMarkerOutput (JString (str "   " ++ [newline] ++ str "  ")) = Returned (JString []).
Proof.
  apply (blank_text_gives_empty (str "   " ++ [newline] ++ str "  ")).
  reflexivity.
Defined.

(** X21. A line without [<] is only spaced anew.  As a table line, its
    runs of white space become one space, its pipes are set between two
    spaces and its ends are trimmed.  As a line outside tables, when it
    has no comma and no digit either, its runs of white space become one
    space and its ends are trimmed; nothing else is changed. *)
Theorem ordinary_line_respaced (line : jsstring) :
  ~ In lt_sign line ->
  cleanTableLine line
  = trim (replace_all re_pipe_spacing [Lit (str " | ")]
            (replace_all re_spaces [Lit (str " ")] line)) /\
  (~ In ","%char line -> Forall (fun c => isDigit c = false) line ->
   cleanRegularLine line = trim (replace_all re_spaces [Lit (str " ")] line)).
Proof.
  intros Hlt. split.
  - unfold cleanTableLine.
    rewrite (replace_all_requires lt_sign re_location_br) by (reflexivity || assumption).
    rewrite (replace_all_requires lt_sign re_br) by (reflexivity || assumption).
    rewrite (replace_all_requires lt_sign re_u) by (reflexivity || assumption).
    rewrite (replace_all_requires lt_sign re_em) by (reflexivity || assumption).
    rewrite (replace_all_requires lt_sign re_strong) by (reflexivity || assumption).
    reflexivity.
  - intros Hcomma Hdigit. unfold cleanRegularLine.
    rewrite (replace_all_requires lt_sign re_br) by (reflexivity || assumption).
    rewrite (replace_all_requires lt_sign re_u) by (reflexivity || assumption).
    rewrite (replace_all_requires lt_sign re_em) by (reflexivity || assumption).
    rewrite (replace_all_requires lt_sign re_strong) by (reflexivity || assumption).
    rewrite (replace_all_requires ","%char re_location)
      by (reflexivity || assumption).
    assert (E : replace_all re_footnote [] line = line).
    { unfold replace_all.
      apply (replace_from_untouched (fun x => isDigit x = true)).
      - cbn. repeat split; auto.
      - cbn [after start_state]. intros c Hc Hd.
        rewrite Forall_forall in Hdigit. apply Hdigit in Hc. congruence. }
    now rewrite E.
Qed.

Lemma ordinary_line_respaced_witness :
  cleanTableLine (str "  a|b   c |  ")
  = trim (replace_all re_pipe_spacing [Lit (str " | ")]
            (replace_all re_spaces [Lit (str " ")] (str "  a|b   c |  "))).
Proof.
  apply (ordinary_line_respaced (str "  a|b   c |  ")).
  vm_compute. intuition discriminate.
Defined.

(** ** Column widths and formatted cells *)

Section WidthFacts.

Lemma ofNat_le (m n : nat) : m <= n -> (ofNat m <= ofNat n)%Q.
Proof. intros H. unfold ofNat. rewrite <- Zle_Qle. lia. Qed.

Lemma ofNat_lt (m n : nat) : m < n -> (ofNat m < ofNat n)%Q.
Proof. intros H. unfold ofNat. rewrite <- Zlt_Qlt. lia. Qed.

Lemma tierWidth_bounds (lens : list nat) :
  (8 <= tierWidth lens)%Q /\ (tierWidth lens <= 50)%Q.
Proof.
  unfold tierWidth. destruct lens as [|n lens]; [split; discriminate|].
  set (m := list_max (n :: lens)).
  set (avg := (ofNat (list_sum (n :: lens)) / ofNat (length (n :: lens)))%Q).
  destruct (Nat.leb_spec m 25) as [H1|H1].
  - split; [apply Q.le_max_r|]. apply Q.max_lub; [|discriminate].
    apply Qle_trans with (ofNat 25); [now apply ofNat_le|discriminate].
  - destruct (Nat.leb_spec m 60) as [H2|H2].
    + split.
      * apply Qle_trans with 15%Q; [discriminate|apply Q.le_max_r].
      * apply Q.max_lub; [|discriminate].
        eapply Qle_trans; [apply Q.le_min_l|].
        change 50%Q with (inject_Z 50). rewrite <- Zle_Qle.
        apply Z.div_le_upper_bound; lia.
    + split; [|apply Q.le_min_l].
      apply Q.min_glb; [discriminate|].
      apply Qle_trans with 30%Q; [discriminate|apply Q.le_max_l].
Qed.

Lemma leb_toLength (n : nat) (w : number) :
  leb (ofNat n) w = true -> n <= toLength w.
Proof.
  unfold leb, toLength, ofNat. intros H. apply Qle_bool_iff in H.
  apply Qfloor_resp_le in H. rewrite Qfloor_Z in H. lia.
Qed.

Lemma toLength_leb (n : nat) (w : number) :
  (0 <= w)%Q -> n <= toLength w -> leb (ofNat n) w = true.
Proof.
  unfold leb, toLength, ofNat. intros H0 H. apply Qle_bool_iff.
  apply Qle_trans with (inject_Z (Qfloor w)); [|apply Qfloor_le].
  rewrite <- Zle_Qle.
  assert (0 <= Qfloor w)%Z
    by (change 0%Z with (Qfloor 0); now apply Qfloor_resp_le).
  lia.
Qed.

Lemma Qfloor_minus3 (w : number) : Qfloor (w - 3) = (Qfloor w - 3)%Z.
Proof.
  destruct w as [a b]. unfold Qminus, Qplus, Qopp, Qfloor.
  cbn [Qnum Qden]. rewrite Pos.mul_1_r, Z.mul_1_r.
  rewrite Z.div_add by discriminate. lia.
Qed.

Lemma toLength_minus3 (w : number) :
  (3 <= w)%Q -> toLength (w - 3) + 3 = toLength w.
Proof.
  intros H. unfold toLength. rewrite Qfloor_minus3.
  assert (3 <= Qfloor w)%Z
    by (change 3%Z with (Qfloor 3); now apply Qfloor_resp_le).
  lia.
Qed.

(** The word loop stops at most one code unit after [width - 3]: the test
    leaves out the space that joins two words. *)
Lemma takeWords_length (width : number) (words : list jsstring) :
  forall result,
    length result <= S (toLength (width - 3)) ->
    length (takeWords width words result) <= S (toLength (width - 3)).
Proof.
  induction words as [|word words IH]; intros result Hr; [exact Hr|].
  cbn [takeWords].
  destruct (leb (ofNat (length (result ++ word))) (width - 3)) eqn:E;
    [|exact Hr].
  apply IH. apply leb_toLength in E. rewrite length_app in E.
  rewrite !length_app. destruct (truthy result); cbn [length]; lia.
Qed.

Lemma length_padEnd (s : jsstring) (n : nat) :
  length (padEnd s n) = Nat.max (length s) n.
Proof. unfold padEnd, repeat1. rewrite length_app, repeat_length. lia. Qed.

(** A cell that does not fit is cut to a text that leaves at most one
    code unit less than the three of the ellipsis. *)
Lemma formatCell_cut (cell : jsstring) (width : number) :
  (3 <= width)%Q ->
  leb (ofNat (length cell)) width = false ->
  exists kept,
    formatCell cell width = padEnd (kept ++ str "...") (toLength width) /\
    length kept + 2 <= toLength width.
Proof.
  intros H3 Hfit. unfold formatCell, gtb, leb in *. rewrite Hfit.
  cbn [negb]. eexists. split; [reflexivity|].
  pose proof (toLength_minus3 width H3) as E.
  destruct (length (takeWords width (split space cell) []) =? 0) eqn:E0.
  - unfold substring0. rewrite length_firstn. lia.
  - pose proof (takeWords_length width (split space cell) []) as Hk.
    cbn [length] in Hk. specialize (Hk ltac:(lia)). lia.
Qed.

Lemma list_max_In (l : list nat) : l <> [] -> In (list_max l) l.
Proof.
  induction l as [|n l IH]; [intros H; now contradiction H|]. intros _.
  destruct l as [|n' l']; [left; cbn; lia|].
  change (list_max (n :: n' :: l')) with (Nat.max n (list_max (n' :: l'))).
  destruct (Nat.max_spec n (list_max (n' :: l'))) as [[_ ->]|[_ ->]].
  - right. apply IH. discriminate.
  - now left.
Qed.

Lemma in_cellLengths (rows : list (list jsstring)) (col n : nat) :
  In n (cellLengths rows col) ->
  exists row cell,
    In row rows /\ nth_error row col = Some cell /\ cell <> [] /\
    length cell = n.
Proof.
  unfold cellLengths. intros H. apply in_flat_map in H.
  destruct H as (row & Hrow & Hn). exists row.
  destruct (nth_error row col) as [cell|]; [|destruct Hn].
  exists cell. destruct cell as [|c cell]; [destruct Hn|].
  destruct Hn as [<-|[]]. repeat split; [exact Hrow|discriminate].
Qed.

Lemma cellAt_length_le (rows : list (list jsstring)) (col : nat)
    (row : list jsstring) :
  In row rows -> length (cellAt row col) <= list_max (cellLengths rows col).
Proof.
  intros Hrow. unfold cellAt.
  destruct (nth_error row col) as [cell|] eqn:E; [|cbn; lia].
  destruct cell as [|c cell]; [cbn; lia|]. cbn [truthy].
  assert (H : Forall (fun k => k <= list_max (cellLengths rows col))
                     (cellLengths rows col)) by (apply list_max_le; lia).
  rewrite Forall_forall in H. apply H.
  unfold cellLengths. apply in_flat_map. exists row. split; [exact Hrow|].
  rewrite E. now left.
Qed.

Lemma Qmax_ofNat (m : nat) : (Qmax (ofNat m) 8 == ofNat (Nat.max m 8))%Q.
Proof.
  destruct (Q.max_spec (ofNat m) 8) as [[Hlt ->]|[Hle ->]].
  - change 8%Q with (ofNat 8) in *. unfold ofNat in *.
    rewrite <- Zlt_Qlt in Hlt. rewrite inject_Z_injective. lia.
  - change 8%Q with (ofNat 8) in *. unfold ofNat in *.
    rewrite <- Zle_Qle in Hle. rewrite inject_Z_injective. lia.
Qed.

Lemma toLength_ofNat (n : nat) : toLength (ofNat n) = n.
Proof. unfold toLength, ofNat. rewrite Qfloor_Z. lia. Qed.

End WidthFacts.

(** X7. Whatever the rows of a table are, every planned column width lies
    between 8 and 50, and so does the number of dashes and of padded
    characters made from it. *)
Theorem columnWidth_bounds (rows : list (list jsstring)) :
  Forall (fun width =>
            (8 <= width)%Q /\ (width <= 50)%Q /\
            8 <= toLength width <= 50)
         (columnWidthsOf rows).
Proof.
  unfold columnWidthsOf. apply Forall_forall. intros width Hin.
  apply in_map_iff in Hin. destruct Hin as (col & <- & _).
  rewrite columnWidth_tierWidth.
  destruct (tierWidth_bounds (cellLengths rows col)) as [H8 H50].
  split; [exact H8|]. split; [exact H50|]. unfold toLength.
  apply Qfloor_resp_le in H8, H50.
  change (Qfloor 8) with 8%Z in H8. change (Qfloor 50) with 50%Z in H50. lia.
Qed.

(** X8. In a column whose longest cell has at most 25 characters no cell is
    cut: each cell of the column, an absent one as the empty cell, is
    padded with spaces to the length of the longest cell, and to 8 when
    that is shorter. *)
Theorem short_column_padded (rows : list (list jsstring)) (col : nat)
    (row : list jsstring) :
  In row rows ->
  list_max (cellLengths rows col) <= 25 ->
  let longest := list_max (cellLengths rows col) in
  formatCell (cellAt row col) (columnWidth rows col)
  = padEnd (cellAt row col) (Nat.max longest 8) /\
  length (formatCell (cellAt row col) (columnWidth rows col))
  = Nat.max longest 8.
Proof.
  intros Hrow Hmax longest.
  pose proof (cellAt_length_le rows col row Hrow) as Hlen. fold longest in Hlen.
  assert (Hw : (columnWidth rows col == ofNat (Nat.max longest 8))%Q).
  { rewrite columnWidth_tierWidth. unfold tierWidth. subst longest.
    destruct (cellLengths rows col) as [|n lens] eqn:E; [reflexivity|].
    apply Nat.leb_le in Hmax. rewrite Hmax. apply Qmax_ofNat. }
  assert (Hto : toLength (columnWidth rows col) = Nat.max longest 8).
  { unfold toLength. rewrite Hw. apply toLength_ofNat. }
  assert (Hfit : leb (ofNat (length (cellAt row col))) (columnWidth rows col)
                 = true).
  { unfold leb. apply Qle_bool_iff. rewrite Hw. apply ofNat_le. lia. }
  assert (E : formatCell (cellAt row col) (columnWidth rows col)
              = padEnd (cellAt row col) (Nat.max longest 8)).
  { unfold formatCell. now rewrite Hfit, Hto. }
  split; [exact E|]. rewrite E, length_padEnd. lia.
Qed.

Lemma short_column_padded_witness :
  formatCell (str "ab") (columnWidth [[str "ab"; str "c"]; [str "abcdefghij"]] 0)
  = str "ab        " /\
  length (formatCell (str "ab")
            (columnWidth [[str "ab"; str "c"]; [str "abcdefghij"]] 0)) = 10.
Proof.
  apply (short_column_padded [[str "ab"; str "c"]; [str "abcdefghij"]] 0
           [str "ab"; str "c"]).
  - now left.
  - cbn. lia.
Defined.

(** X9. In a column whose longest cell has more than 25 characters the
    planned width is smaller than that cell, so the longest cell of the
    column is always cut: it is shown as a shorter text, the ellipsis and
    padding. *)
Theorem long_column_truncated (rows : list (list jsstring)) (col : nat) :
  25 < list_max (cellLengths rows col) ->
  let longest := list_max (cellLengths rows col) in
  let width := columnWidth rows col in
  (width < ofNat longest)%Q /\
  exists row cell kept,
    In row rows /\ nth_error row col = Some cell /\ length cell = longest /\
    formatCell cell width = padEnd (kept ++ str "...") (toLength width) /\
    length kept < length cell.
Proof.
  intros Hmax longest width.
  assert (Hne : cellLengths rows col <> []).
  { intros E. rewrite E in Hmax. cbn in Hmax. lia. }
  assert (Hlt : (width < ofNat longest)%Q).
  { subst width. rewrite columnWidth_tierWidth. unfold tierWidth.
    fold longest in Hmax.
    destruct (cellLengths rows col) as [|n lens] eqn:E; [congruence|].
    cbv zeta. fold longest.
    assert ((longest <=? 25) = false) as -> by (apply Nat.leb_gt; lia).
    destruct (Nat.leb_spec longest 60) as [H2|H2].
    - apply Q.max_lub_lt.
      + eapply Qle_lt_trans; [apply Q.le_min_l|].
        unfold ofNat. rewrite <- Zlt_Qlt.
        apply Z.div_lt_upper_bound; lia.
      + change 15%Q with (ofNat 15). apply ofNat_lt. lia.
    - eapply Qle_lt_trans; [apply Q.le_min_l|].
      change 50%Q with (ofNat 50). apply ofNat_lt. lia. }
  split; [exact Hlt|].
  destruct (in_cellLengths rows col longest (list_max_In _ Hne))
    as (row & cell & Hrow & Hnth & _ & Hlen).
  assert (H8 : (8 <= width)%Q).
  { subst width. rewrite columnWidth_tierWidth. apply tierWidth_bounds. }
  assert (Hfit : leb (ofNat (length cell)) width = false).
  { unfold leb. apply not_true_is_false. intros H. apply Qle_bool_iff in H.
    rewrite Hlen in H. apply (Qlt_irrefl width).
    now apply Qlt_le_trans with (ofNat longest). }
  destruct (formatCell_cut cell width) as (kept & Hk & Hklen);
    [eapply Qle_trans; [|exact H8]; discriminate|exact Hfit|].
  exists row, cell, kept. repeat split; try assumption.
  assert (toLength width <= longest).
  { apply Qlt_le_weak, Qfloor_resp_le in Hlt. unfold toLength, ofNat in *.
    rewrite Qfloor_Z in Hlt. lia. }
  lia.
Qed.

Lemma long_column_truncated_witness :
  (columnWidth [[repeat1 "a" 30]; [str "b"]] 0 < ofNat 30)%Q.
Proof.
  apply (long_column_truncated [[repeat1 "a" 30]; [str "b"]] 0).
  cbn. lia.
Defined.

(** X10. A formatted cell is never shorter than the integer part of the
    width, and at most one character longer. A cell that fits has exactly
    that length and is the cell followed by spaces. *)
Theorem formatCell_length (cell : jsstring) (width : number) :
  (3 <= width)%Q ->
  toLength width <= length (formatCell cell width) <= S (toLength width) /\
  (length cell <= toLength width ->
   formatCell cell width = padEnd cell (toLength width) /\
   length (formatCell cell width) = toLength width).
Proof.
  intros H3.
  assert (H0 : (0 <= width)%Q) by (eapply Qle_trans; [|exact H3]; discriminate).
  assert (Hfits : leb (ofNat (length cell)) width = true ->
                  formatCell cell width = padEnd cell (toLength width) /\
                  length (formatCell cell width) = toLength width).
  { intros Hfit. pose proof (leb_toLength _ _ Hfit) as Hle.
    unfold formatCell. rewrite Hfit. split; [reflexivity|].
    rewrite length_padEnd. lia. }
  split.
  - destruct (leb (ofNat (length cell)) width) eqn:Hfit.
    + destruct (Hfits eq_refl) as [_ ->]. lia.
    + destruct (formatCell_cut cell width H3 Hfit) as (kept & -> & Hk).
      rewrite length_padEnd, length_app.
      change (length (str "...")) with 3. lia.
  - intros Hle. apply Hfits. now apply toLength_leb.
Qed.

Lemma formatCell_length_witness :
  toLength 24 <= length (formatCell (str "aaaaaaaaaa bbbbbbbbbbb ccccccc") 24)
  <= S (toLength 24).
Proof.
  apply (formatCell_length (str "aaaaaaaaaa bbbbbbbbbbb ccccccc") 24).
  discriminate.
Defined.

(** ** Reformatted table regions *)

Section RegionShape.

Lemma split_incl (sep : ascii) (s p : jsstring) :
  In p (split sep s) -> incl p s.
Proof.
  intros Hp c Hc. rewrite <- (join_split sep s).
  now apply (in_join [sep] p c).
Qed.

Lemma takeWords_incl (c : ascii) (width : number) (words : list jsstring) :
  forall result,
    In c (takeWords width words result) ->
    In c result \/ c = space \/ exists word, In word words /\ In c word.
Proof.
  induction words as [|word words IH]; intros result H; [now left|].
  cbn [takeWords] in H.
  destruct (leb (ofNat (length (result ++ word))) (width - 3)); [|now left].
  apply IH in H. destruct H as [H|[H|(w & Hw & Hc)]].
  - apply in_app_or in H. destruct H as [H|H]; [now left|].
    apply in_app_or in H. destruct H as [H|H].
    + destruct (truthy result); [|destruct H].
      destruct H as [<-|[]]. right. now left.
    + right. right. exists word. split; [now left|exact H].
  - right. now left.
  - right. right. exists w. split; [now right|exact Hc].
Qed.

(** A formatted cell is made of code units of the cell, spaces and full
    stops. *)
Lemma formatCell_incl (c : ascii) (cell : jsstring) (width : number) :
  In c (formatCell cell width) -> In c cell \/ c = space \/ c = "."%char.
Proof.
  assert (Hpad : forall s n, In c (padEnd s n) -> In c s \/ c = space).
  { intros s n H. unfold padEnd, repeat1 in H. apply in_app_or in H.
    destruct H as [H|H]; [now left|]. apply repeat_spec in H. now right. }
  unfold formatCell.
  destruct (leb (ofNat (length cell)) width);
    [intros H; apply Hpad in H; tauto|].
  destruct (gtb (ofNat (length cell)) width);
    [|intros H; apply Hpad in H; tauto].
  intros H. apply Hpad in H. destruct H as [H|H]; [|tauto].
  apply in_app_or in H. destruct H as [H|H].
  - destruct (length (takeWords width (split space cell) []) =? 0).
    + left. unfold substring0 in H.
      rewrite <- (firstn_skipn (toLength (width - 3)) cell).
      apply in_or_app. now left.
    + apply takeWords_incl in H. destruct H as [[]|[H|(w & Hw & Hc)]];
        [tauto|]. left. now apply (split_incl space cell w).
  - right. right. destruct H as [<-|[<-|[<-|[]]]]; reflexivity.
Qed.

Lemma parseCells_free (line cell : jsstring) :
  In cell (parseCells line) -> ~ In pipe cell.
Proof.
  unfold parseCells. intros H. apply filter_index_incl in H.
  apply in_map_iff in H. destruct H as (p & <- & Hp) . intros Hin.
  apply trim_incl in Hin. revert Hin.
  pose proof (split_pieces_free pipe line) as Hf.
  rewrite Forall_forall in Hf. now apply Hf.
Qed.

Lemma parseRows_free (tableLines : list jsstring) :
  Forall (fun row => row <> [] /\ Forall (fun cell => ~ In pipe cell) row)
         (parseRows tableLines).
Proof.
  rewrite parseRows_flat_map. apply Forall_forall. intros row H.
  apply in_flat_map in H. destruct H as (line & _ & H). unfold rowOf in H.
  destruct (truthy (trim line) && negb (test re_separator line));
    [|destruct H].
  destruct (0 <? length (parseCells line)) eqn:E; [|destruct H].
  destruct H as [<-|[]]. split.
  - intros E0. rewrite E0 in E. discriminate.
  - apply Forall_forall. intros cell. apply parseCells_free.
Qed.

Lemma tableLine_count (xs : list jsstring) :
  Forall (fun x => ~ In pipe x) xs -> xs <> [] ->
  countPipes (tableLine xs) = S (length xs).
Proof.
  intros Hxs Hne. rewrite tableLine_eq. unfold countPipes.
  change (pipe :: space :: join cellSep xs ++ [space; pipe])
    with ([pipe; space] ++ join cellSep xs ++ [space; pipe]).
  rewrite !count_occ_app, join_count by exact Hxs.
  change (count_occ ascii_dec [pipe; space] pipe) with 1.
  change (count_occ ascii_dec [space; pipe] pipe) with 1.
  destruct xs; [contradiction|]. cbn [length]. lia.
Qed.

Lemma formatRow_count (m : nat) (columnWidths : list number)
    (row : list jsstring) :
  1 <= m -> Forall (fun cell => ~ In pipe cell) row ->
  countPipes (formatRow m columnWidths row) = S m.
Proof.
  intros Hm Hrow. unfold formatRow. rewrite tableLine_count.
  - now rewrite length_map, length_seq.
  - apply Forall_forall. intros x Hx. apply in_map_iff in Hx.
    destruct Hx as (col & <- & _). intros Hin.
    apply formatCell_incl in Hin. destruct Hin as [Hin|[E|E]];
      [|discriminate E|discriminate E].
    unfold cellAt in Hin.
    destruct (nth_error row col) as [cell|] eqn:E; [|destruct Hin].
    destruct (truthy cell); [|destruct Hin].
    apply nth_error_In in E. rewrite Forall_forall in Hrow.
    now apply (Hrow cell).
  - destruct m; [lia|]. rewrite <- cons_seq. discriminate.
Qed.

Lemma separatorLine_count (columnWidths : list number) :
  columnWidths <> [] ->
  countPipes (separatorLine columnWidths) = S (length columnWidths).
Proof.
  intros Hne. unfold separatorLine. rewrite tableLine_count.
  - now rewrite length_map.
  - apply Forall_forall. intros x Hx. apply in_map_iff in Hx.
    destruct Hx as (w & <- & _). unfold repeat1. intros Hin.
    apply repeat_spec in Hin. discriminate.
  - destruct columnWidths; [contradiction|discriminate].
Qed.

Lemma formatRows_later (m : nat) (columnWidths : list number)
    (rows : list (list jsstring)) :
  forall i,
    formatRows m columnWidths (S i) rows = map (formatRow m columnWidths) rows.
Proof.
  induction rows as [|row rows IH]; intros i; [reflexivity|].
  cbn [formatRows map Nat.eqb app]. now rewrite IH.
Qed.

End RegionShape.

(** X11. A region of at least two lines in which a row is found is
    replaced by one line for each row, with the separator line after the
    first.  Every line of it holds one pipe more than the table has
    columns, each column gives one cell, and no white space stands at its
    ends. *)
Theorem reformatted_region_shape (tableLines : list jsstring) :
  2 <= length tableLines -> parseRows tableLines <> [] ->
  let rows := parseRows tableLines in
  let columns := maxColumnsOf rows in
  let widths := columnWidthsOf rows in
  1 <= columns /\
  formatTableRegion tableLines
  = map (formatRow columns widths) (firstn 1 rows) ++
    [separatorLine widths] ++
    map (formatRow columns widths) (skipn 1 rows) /\
  length (formatTableRegion tableLines) = S (length rows) /\
  Forall (fun line =>
            countPipes line = S columns /\ isTableLine line = true /\
            trim line = line)
         (formatTableRegion tableLines).
Proof.
  intros Hlen Hne rows columns widths.
  pose proof (parseRows_free tableLines) as Hfree. fold rows in Hfree.
  assert (Hm : 1 <= columns).
  { apply maxColumnsOf_pos; [exact Hne|].
    eapply Forall_impl; [|exact Hfree]. now intros row [H _]. }
  assert (E : formatTableRegion tableLines
              = map (formatRow columns widths) (firstn 1 rows) ++
                [separatorLine widths] ++
                map (formatRow columns widths) (skipn 1 rows)).
  { unfold formatTableRegion. fold rows.
    assert ((length tableLines <? 2) = false) as -> by (apply Nat.ltb_ge; lia).
    destruct rows as [|row rest] eqn:Er; [contradiction|].
    cbn [length Nat.eqb formatRows firstn skipn map app].
    now rewrite formatRows_later. }
  split; [exact Hm|]. split; [exact E|]. split.
  - rewrite E, !length_app, !length_map. cbn [length].
    rewrite <- (firstn_skipn 1 rows) at 3. rewrite length_app. lia.
  - assert (Hrow : forall row, In row rows ->
                     countPipes (formatRow columns widths row) = S columns /\
                     isTableLine (formatRow columns widths row) = true /\
                     trim (formatRow columns widths row)
                     = formatRow columns widths row).
    { intros row Hin. rewrite Forall_forall in Hfree.
      destruct (Hfree row Hin) as [_ Hcells].
      rewrite isTableLine_countPipes.
      rewrite (formatRow_count columns widths row Hm Hcells).
      split; [reflexivity|]. split; [apply Nat.leb_le; lia|].
      apply trim_tableLine. }
    rewrite E. apply Forall_app. split; [|apply Forall_app; split].
    + apply Forall_forall. intros l Hl. apply in_map_iff in Hl.
      destruct Hl as (row & <- & Hin). apply Hrow.
      rewrite <- (firstn_skipn 1 rows). apply in_or_app. now left.
    + constructor; [|constructor].
      assert (Hw : widths <> []).
      { intros E0. apply (f_equal (@length number)) in E0. subst widths.
        rewrite columnWidthsOf_length in E0. cbn in E0. fold rows columns in E0.
        lia. }
      rewrite isTableLine_countPipes, (separatorLine_count widths Hw).
      subst widths. rewrite columnWidthsOf_length. fold columns.
      split; [reflexivity|]. split; [apply Nat.leb_le; lia|].
      apply trim_tableLine.
    + apply Forall_forall. intros l Hl. apply in_map_iff in Hl.
      destruct Hl as (row & <- & Hin). apply Hrow.
      rewrite <- (firstn_skipn 1 rows). apply in_or_app. now right.
Qed.

Lemma reformatted_region_shape_witness :
  length (formatTableRegion [str "a | b | c"; str "1 | 2"]) = 3.
Proof.
  apply (reformatted_region_shape [str "a | b | c"; str "1 | 2"]).
  - cbn. lia.
  - vm_compute. discriminate.
Defined.

(** X12. A table region is reformatted to a fixed point: when its cleaned
    lines have no [<], no cell of it is cut, and each row has a character
    other than white space, dashes and pipes, then cleaning and
    reformatting the lines it was replaced by gives these lines again. *)
Theorem region_rendered_once (raw : list jsstring) :
  Forall (fun l => ~ In lt_sign (cleanTableLine l)) raw ->
  regionSteady (map cleanTableLine raw) = true ->
  let rendered := formatTableRegion (map cleanTableLine raw) in
  formatTableRegion (map cleanTableLine rendered) = rendered.
Proof.
  intros Hlt Hsteady rendered. subst rendered.
  assert (E : map cleanTableLine (map stripTableTags raw)
              = map cleanTableLine raw).
  { rewrite map_map. apply map_ext_in. intros l Hl.
    rewrite Forall_forall in Hlt. now apply cleanTableLine_of_stripped, Hlt. }
  assert (Hraw : Forall (fun l => ~ In lt_sign l) (map stripTableTags raw)).
  { rewrite Forall_map. eapply Forall_impl; [|exact Hlt].
    intros l. apply stripped_free. }
  unfold regionSteady in Hsteady.
  destruct (planOf (map cleanTableLine raw)) as [w|] eqn:Hw.
  - apply andb_prop in Hsteady. destruct Hsteady as [Hfit Htext].
    destruct (planOf_some _ _ Hw) as [Hlen Hrows].
    rewrite <- E in Hlen, Hrows, Hfit, Htext |- *.
    now destruct (second_pass_region _ Hraw Hlen Hrows Hfit Htext)
      as (_ & _ & _ & H).
  - rewrite (planOf_none _ Hw).
    assert (E2 : map cleanTableLine (map cleanTableLine raw)
                 = map cleanTableLine raw).
    { rewrite map_map. apply map_ext_in. intros l Hl.
      rewrite Forall_forall in Hlt. now apply cleanTableLine_again, Hlt. }
    rewrite E2. now apply planOf_none.
Qed.

Lemma region_rendered_once_witness :
  formatTableRegion
    (map cleanTableLine
       (formatTableRegion
          (map cleanTableLine
             [str "| item<br>name | <em>price</em> |"; str "| tea | 2 |"])))
  = formatTableRegion
      (map cleanTableLine
         [str "| item<br>name | <em>price</em> |"; str "| tea | 2 |"]).
Proof.
  apply (region_rendered_once
           [str "| item<br>name | <em>price</em> |"; str "| tea | 2 |"]).
  - repeat constructor; vm_compute; intuition discriminate.
  - vm_compute. reflexivity.
Defined.

Section RunsKept.

Lemma formatRows_like_any (m : nat) (columnWidths : list number)
    (rows : list (list jsstring)) :
  Forall (Forall stableCell) rows ->
  forall i, Forall tableLike (formatRows m columnWidths i rows).
Proof.
  intros Hrows. induction Hrows as [|row rows Hst _ IH]; intros i;
    [constructor|].
  cbn [formatRows]. constructor.
  - unfold formatRow. apply tableLine_like.
    apply Forall_forall. intros x Hx. apply in_map_iff in Hx.
    destruct Hx as (col & <- & _).
    pose proof (cellAt_stable row col Hst) as Hcell.
    repeat split; intros Hin; apply formatCell_incl in Hin;
      destruct Hin as [Hin|[E|E]]; try discriminate E.
    + revert Hin.
      apply (stableCell_free newline _ Hcell); [reflexivity|discriminate].
    + revert Hin.
      apply (stableCell_free cr _ Hcell); [reflexivity|discriminate].
    + now destruct Hcell as (_ & H & _).
  - apply Forall_app. split; [|apply IH].
    destruct (i =? 0); [|constructor].
    constructor; [apply separatorLine_like|constructor].
Qed.

(** The lines that a run of table lines is replaced by, cut cells or not. *)
Lemma rendered_like_any (raw : list jsstring) :
  Forall (fun l => ~ In lt_sign (cleanTableLine l)) raw ->
  Forall (fun l => isTableLine l = true) raw -> raw <> [] ->
  Forall tableLike (renderRun raw) /\ renderRun raw <> [].
Proof.
  intros Hlt Htab Hne. unfold renderRun.
  assert (E : map cleanTableLine (map stripTableTags raw)
              = map cleanTableLine raw).
  { rewrite map_map. apply map_ext_in. intros l Hl.
    rewrite Forall_forall in Hlt. now apply cleanTableLine_of_stripped, Hlt. }
  assert (Hraw : Forall (fun l => ~ In lt_sign l) (map stripTableTags raw)).
  { rewrite Forall_map. eapply Forall_impl; [|exact Hlt].
    intros l. apply stripped_free. }
  rewrite formatTableRegion_planOf.
  destruct (planOf (map cleanTableLine raw)) as [w|] eqn:Hw.
  - destruct (planOf_some _ _ Hw) as [_ Hrows]. split.
    + apply formatRows_like_any. rewrite <- E.
      eapply Forall_impl; [|apply (parseRows_stable _ Hraw)].
      now intros row [_ H].
    + intros E0.
      pose proof (formatRows_length (maxColumnsOf (parseRows (map cleanTableLine raw)))
                    w (parseRows (map cleanTableLine raw)) Hrows) as H2.
      rewrite E0 in H2. cbn in H2. lia.
  - split.
    + apply Forall_forall. intros t Ht. apply in_map_iff in Ht.
      destruct Ht as (l & <- & Hl). rewrite Forall_forall in Hlt, Htab.
      rewrite <- (cleanTableLine_of_stripped l (Hlt l Hl)).
      apply cleanTableLine_like.
      * apply stripped_free, Hlt, Hl.
      * rewrite stripTableTags_verdict. now apply Htab.
    + intros E0. apply map_eq_nil in E0. contradiction.
Qed.

Lemma flush_rendered_any (pending : list (nat * jsstring)) :
  Forall (fun il => isTableLine (snd il) = true /\
                    ~ In lt_sign (cleanTableLine (snd il))) pending ->
  let emitted := flush tableBranch pending in
  Forall tableLike emitted /\
  match emitted with [] => [] | _ :: _ => [emitted] end
  = map renderRun (flushRun (map snd pending)).
Proof.
  intros Hpend emitted. subst emitted.
  destruct pending as [|p ps]; [repeat split; constructor|].
  cbn [flush]. unfold tableBranch. rewrite map_clean_pending.
  change (flushRun (map snd (p :: ps))) with [rev (map snd (p :: ps))] in *.
  assert (Hraw : Forall (fun l => isTableLine l = true /\
                                 ~ In lt_sign (cleanTableLine l))
                        (rev (map snd (p :: ps)))).
  { apply Forall_rev. rewrite Forall_map. exact Hpend. }
  assert (Hne : rev (map snd (p :: ps)) <> []).
  { intros E. apply (f_equal (@length jsstring)) in E.
    rewrite length_rev in E. discriminate. }
  remember (rev (map snd (p :: ps))) as raw eqn:Eraw. clear Eraw Hpend.
  destruct (rendered_like_any raw) as (Hlike & Hne').
  - eapply Forall_impl; [|exact Hraw]. now intros l [_ H].
  - eapply Forall_impl; [|exact Hraw]. now intros l [H _].
  - exact Hne.
  - cbn [map]. unfold renderRun in *. split; [exact Hlike|].
    destruct (formatTableRegion (map cleanTableLine raw));
      [contradiction|reflexivity].
Qed.

(** The first pass turns every run of table lines into a run of table
    lines, and every other line into a line outside tables. *)
Lemma cleaned_runs_any (lines : list jsstring) :
  Forall (fun l => ~ In lt_sign (cleanedLine l)) lines ->
  forall i pending,
    Forall (fun il => isTableLine (snd il) = true /\
                    ~ In lt_sign (cleanTableLine (snd il))) pending ->
    let cleaned := blocks proseBranch tableBranch i lines pending in
    Forall (fun l => tableLike l \/ proseLike l) cleaned /\
    tableRuns cleaned [] = map renderRun (tableRuns lines (map snd pending)).
Proof.
  intros Hlt. induction Hlt as [|line lines Hline _ IH]; intros i pending Hpend;
    cbn [blocks tableRuns] in *.
  - destruct (flush_rendered_any pending Hpend) as (Hlike & Hruns).
    split.
    + eapply Forall_impl; [|exact Hlike]. auto.
    + rewrite <- Hruns. apply tableRuns_block.
      eapply Forall_impl; [|exact Hlike]. now intros t (_ & H & _).
  - destruct (isTableLine line) eqn:Ht.
    + apply (IH (S i) ((i, line) :: pending)).
      constructor; [|exact Hpend]. cbn [snd].
      unfold cleanedLine in Hline. rewrite Ht in Hline. auto.
    + destruct (flush_rendered_any pending Hpend) as (Hlike & Hruns).
      destruct (IH (S i) [] (Forall_nil _)) as (Hall & Hr).
      unfold cleanedLine in Hline. rewrite Ht in Hline.
      pose proof (cleanRegularLine_like line Hline Ht) as Hprose.
      split.
      * apply Forall_app. split.
        -- eapply Forall_impl; [|exact Hlike]. auto.
        -- constructor; [now right|exact Hall].
      * unfold proseBranch at 1. rewrite tableRuns_block_then.
        -- now rewrite map_app, <- Hruns, Hr.
        -- eapply Forall_impl; [|exact Hlike]. now intros t (_ & H & _).
        -- now destruct Hprose as (_ & H & _).
Qed.

End RunsKept.

(** X13. The global cleanups keep the tables.  For a document whose lines
    have no [<] left once they are cleaned, the maximal runs of table
    lines of the output are, in document order, the reformatted runs of
    table lines of the input: the squeezing of blank lines, the removal of
    empty headers and the final trim join, split and change none of
    them. *)
Theorem table_regions_survive (text : jsstring) :
  tagsGone text = true ->
  exists out,
    improvedCleanMarkerOutput text = Some out /\
    tableRuns (split newline out) []
    = map renderRun (tableRuns (split newline text) []).
Proof.
  intros Hlt. unfold improvedCleanMarkerOutput.
  rewrite assemble_blocks. eexists. split; [reflexivity|].
  assert (Hlines : Forall (fun l => ~ In lt_sign (cleanedLine l))
                          (split newline text)).
  { unfold tagsGone in Hlt. rewrite forallb_forall in Hlt.
    apply Forall_forall. intros p Hp Hin. apply Hlt in Hp.
    apply negb_true_iff in Hp. unfold hasLt in Hp.
    apply (existsb_chr lt_sign) in Hin. congruence. }
  destruct (cleaned_runs_any (split newline text) Hlines 0 [] (Forall_nil _))
    as (Hall & Hruns).
  cbn [map] in Hruns.
  remember (blocks proseBranch tableBranch 0 (split newline text) []) as cleaned
    eqn:Ecleaned.
  rewrite <- Hruns.
  destruct cleaned as [|l cleaned']; [reflexivity|].
  apply cleanups_keep_runs; [|discriminate].
  eapply Forall_impl; [|exact Hall].
  intros x [(Hn & _ & Hx)|(Hn & _ & Hx)]; now split.
Qed.

Lemma table_regions_survive_witness :
  exists out,
    improvedCleanMarkerOutput
      (document [str "| a | b |"; str "| 1 | 2 |"; []; []; []; str "#"; [];
                 str "x | y | z"]) = Some out /\
    tableRuns (split newline out) []
    = map renderRun
        (tableRuns
           (split newline
              (document [str "| a | b |"; str "| 1 | 2 |"; []; []; []; str "#";
                         []; str "x | y | z"])) []).
Proof.
  apply (table_regions_survive
           (document [str "| a | b |"; str "| 1 | 2 |"; []; []; []; str "#"; [];
                      str "x | y | z"])).
  vm_compute. reflexivity.
Defined.

(** X14. On a document whose lines are not blank, carry no white space at
    their ends and hold no [<], the removal of empty headers deletes each
    line made of [#] only together with the newlines after it but the
    last one, and with all of them at the end of the document; every other
    line stays, with the newlines after it. *)
Theorem empty_headers_removed (k0 : nat) (items : list (jsstring * nat)) :
  laidOut items ->
  removeEmptyHeaders (repeat newline k0 ++ layout items)
  = repeat newline k0 ++ headerless items.
Proof. apply removeEmptyHeaders_document. Qed.

Lemma empty_headers_removed_witness :
  removeEmptyHeaders
    (str "# Title" ++ [newline; newline] ++ str "##" ++ [newline; newline]
     ++ str "text" ++ [newline] ++ str "#" ++ [newline])
  = str "# Title" ++ [newline; newline] ++ [newline] ++ str "text" ++ [newline].
Proof.
  apply (empty_headers_removed 0
           [(str "# Title", 2); (str "##", 2); (str "text", 1); (str "#", 1)]).
  cbn [laidOut]. unfold neat.
  repeat split; try discriminate; try (vm_compute; intuition discriminate);
    try (right; lia); try (now left).
Defined.

(** ** White space in the output *)

Section SubjectFacts.

Variable P : ascii -> Prop.







End SubjectFacts.

Section PlainFacts.















End PlainFacts.


(** ** The categories of [analyzeMarkdownContent] *)

Section AnalysisFacts.

Lemma startsWith_spec (prefix : jsstring) :
  forall s, startsWith s prefix = true <-> exists b, s = prefix ++ b.
Proof.
  induction prefix as [|p prefix IH]; intros s; cbn [startsWith].
  - split; [intros _; now exists s|reflexivity].
  - destruct s as [|c s].
    + split; [discriminate|intros (b & E); discriminate E].
    + rewrite andb_true_iff, IH. unfold chr_eqb. rewrite Ascii.eqb_eq.
      split.
      * intros [-> (b & ->)]. now exists b.
      * intros (b & E). injection E as -> ->. split; [reflexivity|now exists b].
Qed.

Lemma includes_spec (sub s : jsstring) :
  includes s sub = true <-> exists a b, s = a ++ sub ++ b.
Proof.
  induction s as [|c s IH].
  - cbn [includes]. rewrite orb_false_r, startsWith_spec. split.
    + intros (b & E). now exists [], b.
    + intros (a & b & E). destruct a as [|x a]; [now exists b|discriminate E].
  - cbn [includes]. rewrite orb_true_iff, startsWith_spec, IH. split.
    + intros [(b & E)|(a & b & E)].
      * now exists [], b.
      * exists (c :: a), b. now rewrite E.
    + intros (a & b & E). destruct a as [|x a].
      * left. now exists b.
      * right. injection E as -> ->. now exists a, b.
Qed.

Lemma scoreKeywords_hits (firstPart : jsstring) (keywordList : list jsstring) :
  forall score found,
    scoreKeywords firstPart keywordList score found
    = (score + length (hits firstPart keywordList),
       found ++ hits firstPart keywordList).
Proof.
  unfold hits.
  induction keywordList as [|k ks IH]; intros score found; cbn [scoreKeywords filter].
  - now rewrite Nat.add_0_r, app_nil_r.
  - destruct (includes firstPart k).
    + rewrite IH, <- app_assoc. cbn [length app]. f_equal. lia.
    + apply IH.
Qed.

Lemma scanCategories_found (firstPart : jsstring)
    (entries : list (jsstring * list jsstring)) :
  forall best score found,
    snd (scanCategories firstPart entries best score found)
    = found ++ flat_map (fun entry => hits firstPart (snd entry)) entries.
Proof.
  induction entries as [|[name ks] entries IH]; intros best score found;
    cbn [scanCategories flat_map].
  - now rewrite app_nil_r.
  - rewrite scoreKeywords_hits. cbn [snd].
    destruct (score <? 0 + length (hits firstPart ks));
      now rewrite IH, app_assoc.
Qed.

(** The category kept by the loop: the one it started with when no score
    is greater than the starting score, and otherwise the first entry with
    the greatest score. *)
Lemma scanCategories_best (firstPart : jsstring)
    (entries : list (jsstring * list jsstring)) :
  forall best score found,
    let result := scanCategories firstPart entries best score found in
    (fst (fst result) = best /\ snd (fst result) = score /\
     Forall (fun entry => scoreOf firstPart entry <= score) entries) \/
    (exists pre entry post,
       entries = pre ++ entry :: post /\
       fst (fst result) = fst entry /\
       snd (fst result) = scoreOf firstPart entry /\
       score < scoreOf firstPart entry /\
       Forall (fun e => scoreOf firstPart e < scoreOf firstPart entry) pre /\
       Forall (fun e => scoreOf firstPart e <= scoreOf firstPart entry) post).
Proof.
  induction entries as [|[name ks] entries IH]; intros best score found;
    cbn [scanCategories].
  - left. repeat split. constructor.
  - rewrite scoreKeywords_hits. cbn zeta.
    change (0 + length (hits firstPart ks)) with (scoreOf firstPart (name, ks)).
    destruct (Nat.ltb_spec score (scoreOf firstPart (name, ks))) as [Hlt|Hge].
    + destruct (IH name (scoreOf firstPart (name, ks))
                  (found ++ hits firstPart ks))
        as [(Hb & Hs & Hall)|(pre & entry & post & E & Hb & Hs & Hgt & Hpre & Hpost)].
      * right. exists [], (name, ks), entries. repeat split; auto.
      * right. exists ((name, ks) :: pre), entry, post.
        split; [now rewrite E|]. repeat split; auto; lia.
    + destruct (IH best score (found ++ hits firstPart ks))
        as [(Hb & Hs & Hall)|(pre & entry & post & E & Hb & Hs & Hgt & Hpre & Hpost)].
      * left. repeat split; auto.
      * right. exists ((name, ks) :: pre), entry, post.
        split; [now rewrite E|]. repeat split; auto.
        constructor; [lia|assumption].
Qed.

Lemma analysis_category (content : jsstring) :
  category (analyzeMarkdownContent (Some content))
  = fst (fst (scanCategories (toLowerCase (slice0 content 2000)) categories
                (str "General") 0 [])).
Proof.
  unfold analyzeMarkdownContent.
  now destruct (scanCategories _ categories (str "General") 0 [])
    as [[best score] found].
Qed.

Lemma analysis_confidence (content : jsstring) :
  confidence (analyzeMarkdownContent (Some content))
  = Qmin (ofNat (snd (fst (scanCategories (toLowerCase (slice0 content 2000))
                             categories (str "General") 0 []))) / 3) 1.
Proof.
  unfold analyzeMarkdownContent.
  now destruct (scanCategories _ categories (str "General") 0 [])
    as [[best score] found].
Qed.

Lemma analysis_found (content : jsstring) :
  keywords (analyzeMarkdownContent (Some content))
  = snd (scanCategories (toLowerCase (slice0 content 2000)) categories
           (str "General") 0 []).
Proof.
  unfold analyzeMarkdownContent.
  now destruct (scanCategories _ categories (str "General") 0 [])
    as [[best score] found].
Qed.


Lemma hits_nil_score (firstPart : jsstring)
    (entries : list (jsstring * list jsstring)) :
  flat_map (fun entry => hits firstPart (snd entry)) entries = [] <->
  Forall (fun entry => scoreOf firstPart entry <= 0) entries.
Proof.
  induction entries as [|e entries IH]; cbn [flat_map].
  - split; [constructor|reflexivity].
  - split.
    + intros E. apply app_eq_nil in E. destruct E as [E1 E2].
      constructor; [unfold scoreOf; now rewrite E1|now apply IH].
    + intros H. inversion H as [|? ? He Hrest]; subst.
      unfold scoreOf in He. destruct (hits firstPart (snd e)); [|cbn in He; lia].
      now apply IH.
Qed.

Lemma confidence_bounds (n : nat) :
  (0 <= Qmin (ofNat n / 3) 1)%Q /\ (Qmin (ofNat n / 3) 1 <= 1)%Q.
Proof.
  split; [|apply Q.le_min_r].
  apply Q.min_glb; [|discriminate].
  unfold Qdiv. apply Qmult_le_0_compat; [|discriminate].
  change 0%Q with (ofNat 0). apply ofNat_le. lia.
Qed.

Lemma confidence_zero (n : nat) :
  (Qmin (ofNat n / 3) 1 == 0)%Q <-> n = 0.
Proof.
  split.
  - intros E. destruct n as [|n]; [reflexivity|exfalso].
    assert (H : (0 < Qmin (ofNat (S n) / 3) 1)%Q).
    { apply Q.min_glb_lt; [|reflexivity].
      unfold Qdiv. apply Qmult_lt_0_compat; [|reflexivity].
      change 0%Q with (ofNat 0). apply ofNat_lt. lia. }
    rewrite E in H. discriminate H.
  - intros ->. reflexivity.
Qed.

Lemma confidence_one (n : nat) :
  (Qmin (ofNat n / 3) 1 == 1)%Q <-> 3 <= n.
Proof.
  assert (Hdiv : forall m, (1 <= ofNat m / 3)%Q <-> 3 <= m).
  { intros m. unfold Qdiv, Qle, ofNat. cbn. lia. }
  split.
  - intros E. apply Hdiv. rewrite <- E at 1. apply Q.le_min_l.
  - intros H. apply Q.min_r. now apply Hdiv.
Qed.



Lemma scan_keywords (firstPart : jsstring)
    (entries : list (jsstring * list jsstring)) :
  let found := snd (scanCategories firstPart entries (str "General") 0 []) in
  found = flat_map (fun entry => hits firstPart (snd entry)) entries /\
  forall keyword,
    In keyword found <->
    In keyword (flat_map snd entries) /\
    exists a b, firstPart = a ++ keyword ++ b.
Proof.
  cbn zeta. rewrite scanCategories_found. cbn [app].
  split; [reflexivity|]. intros keyword. split.
  - intros H. apply in_flat_map in H. destruct H as (entry & Hentry & Hk).
    unfold hits in Hk. apply filter_In in Hk. destruct Hk as [Hk Hinc]. split.
    + apply in_flat_map. now exists entry.
    + now apply includes_spec.
  - intros [H Hinc]. apply in_flat_map in H.
    destruct H as (entry & Hentry & Hk).
    apply in_flat_map. exists entry. split; [exact Hentry|].
    unfold hits. apply filter_In. split; [exact Hk|]. now apply includes_spec.
Qed.

Lemma scan_general (firstPart : jsstring)
    (entries : list (jsstring * list jsstring)) :
  Forall (fun entry => fst entry <> str "General") entries ->
  let result := scanCategories firstPart entries (str "General") 0 [] in
  (0 <= Qmin (ofNat (snd (fst result)) / 3) 1)%Q /\
  (Qmin (ofNat (snd (fst result)) / 3) 1 <= 1)%Q /\
  (fst (fst result) = str "General" <-> snd result = []) /\
  (snd result = [] <-> (Qmin (ofNat (snd (fst result)) / 3) 1 == 0)%Q).
Proof.
  intros Hnames result.
  pose proof (scanCategories_found firstPart entries (str "General") 0 [])
    as Hfound.
  pose proof (scanCategories_best firstPart entries (str "General") 0 [])
    as Hbest.
  cbn zeta in Hbest. cbn [app] in Hfound. fold result in Hfound, Hbest.
  destruct (confidence_bounds (snd (fst result))) as [H0 H1].
  split; [exact H0|]. split; [exact H1|].
  pose proof (hits_nil_score firstPart entries) as Hnil.
  pose proof (confidence_zero (snd (fst result))) as Hzero.
  rewrite Hfound.
  destruct Hbest as [(Hb & Hs & Hall)|(pre & entry & post & E & Hb & Hs & Hgt & Hpre & Hpost)].
  - split; split; intros _.
    + now apply Hnil.
    + exact Hb.
    + now apply Hzero.
    + now apply Hnil.
  - assert (Hin : In entry entries) by (rewrite E; apply in_elt).
    assert (Hname : fst entry <> str "General").
    { rewrite Forall_forall in Hnames. now apply Hnames. }
    assert (Hnot : ~ Forall (fun e => scoreOf firstPart e <= 0) entries).
    { intros H. rewrite Forall_forall in H. specialize (H entry Hin). lia. }
    split; split; intros H.
    + rewrite Hb in H. contradiction.
    + apply Hnil in H. contradiction.
    + apply Hnil in H. contradiction.
    + apply Hzero in H. lia.
Qed.

Lemma scan_best (firstPart : jsstring)
    (entries : list (jsstring * list jsstring)) :
  let result := scanCategories firstPart entries (str "General") 0 [] in
  snd result <> [] ->
  exists pre entry post,
    entries = pre ++ entry :: post /\
    fst (fst result) = fst entry /\
    0 < scoreOf firstPart entry /\
    Forall (fun e => scoreOf firstPart e < scoreOf firstPart entry) pre /\
    Forall (fun e => scoreOf firstPart e <= scoreOf firstPart entry) post /\
    Qmin (ofNat (snd (fst result)) / 3) 1
    = Qmin (ofNat (scoreOf firstPart entry) / 3) 1 /\
    ((Qmin (ofNat (snd (fst result)) / 3) 1 == 1)%Q <->
     3 <= scoreOf firstPart entry).
Proof.
  intros result.
  pose proof (scanCategories_found firstPart entries (str "General") 0 [])
    as Hfound.
  pose proof (scanCategories_best firstPart entries (str "General") 0 [])
    as Hbest.
  cbn zeta in Hbest. cbn [app] in Hfound. fold result in Hfound, Hbest.
  rewrite Hfound. intros Hne.
  destruct Hbest as [(Hb & Hs & Hall)|(pre & entry & post & E & Hb & Hs & Hgt & Hpre & Hpost)].
  - exfalso. apply Hne. now apply hits_nil_score.
  - exists pre, entry, post. rewrite Hs.
    repeat split; auto; now apply confidence_one.
Qed.

Lemma categories_named :
  Forall (fun entry => fst entry <> str "General") categories.
Proof. repeat constructor; discriminate. Qed.

End AnalysisFacts.

(** X15. The keywords returned are the listed keywords that occur in the
    first 2000 code units of the content, lower-cased; they come in the
    order of the categories and of their lists, a keyword of two lists
    twice.  No other text is returned as a keyword. *)
Theorem analysis_keywords (content : jsstring) :
  let firstPart := toLowerCase (slice0 content 2000) in
  let found := keywords (analyzeMarkdownContent (Some content)) in
  found = flat_map (fun entry => hits firstPart (snd entry)) categories /\
  forall keyword,
    In keyword found <->
    In keyword (flat_map snd categories) /\
    exists a b, firstPart = a ++ keyword ++ b.
Proof.
  intros firstPart found. subst found firstPart. rewrite analysis_found.
  apply scan_keywords.
Qed.

(** X16. The confidence lies between 0 and 1.  The category is General
    exactly when no keyword was found, and exactly then the confidence is
    0; this is also the answer when the file cannot be read. *)
Theorem analysis_general (readFile : option jsstring) :
  let result := analyzeMarkdownContent readFile in
  (0 <= confidence result)%Q /\ (confidence result <= 1)%Q /\
  (category result = str "General" <-> keywords result = []) /\
  (keywords result = [] <-> (confidence result == 0)%Q) /\
  analyzeMarkdownContent None = Analysis (str "General") 0 [].
Proof.
  destruct readFile as [content|]; cbn zeta.
  - rewrite analysis_category, analysis_confidence, analysis_found.
    destruct (scan_general (toLowerCase (slice0 content 2000)) categories
                categories_named) as (H0 & H1 & Hc & Hk).
    repeat split; try apply Hc; try apply Hk; assumption.
  - repeat split; intros; try reflexivity; discriminate.
Qed.

(** X17. When a keyword was found, the category returned is the first one,
    in the order Research, Planning, Documentation, Technical, Business,
    among those with the greatest number of keywords found; the confidence
    is a third of that number, and 1 from three keywords on. *)
Theorem analysis_best_category (content : jsstring) :
  let firstPart := toLowerCase (slice0 content 2000) in
  let result := analyzeMarkdownContent (Some content) in
  keywords result <> [] ->
  exists pre entry post,
    categories = pre ++ entry :: post /\
    category result = fst entry /\
    0 < scoreOf firstPart entry /\
    Forall (fun e => scoreOf firstPart e < scoreOf firstPart entry) pre /\
    Forall (fun e => scoreOf firstPart e <= scoreOf firstPart entry) post /\
    confidence result = Qmin (ofNat (scoreOf firstPart entry) / 3) 1 /\
    ((confidence result == 1)%Q <-> 3 <= scoreOf firstPart entry).
Proof.
  intros firstPart result. subst result firstPart.
  rewrite analysis_category, analysis_confidence, analysis_found.
  apply scan_best.
Qed.

Lemma analysis_best_category_witness :
  exists pre entry post,
    categories = pre ++ entry :: post /\
    category (analyzeMarkdownContent
                (Some (str "Our Strategy: a ROADMAP and a plan; market research")))
    = fst entry /\ fst entry = str "Planning".
Proof.
  destruct (analysis_best_category
              (str "Our Strategy: a ROADMAP and a plan; market research"))
    as (pre & entry & post & E & Hc & _).
  - vm_compute. discriminate.
  - exists pre, entry, post. split; [exact E|]. split; [exact Hc|].
    rewrite <- Hc. vm_compute. reflexivity.
Defined.



(** ** The name of the Markdown file of a PDF *)

Section NameFacts.

Lemma match_here_not_alnum (st : mstate) :
  match (match after st with
         | c :: t => if notAlnum c then Some t else None
         | [] => None
         end) with
  | Some rest' =>
      exists b' g', match_here re_not_alnum st = Some (MState b' rest' g') /\
                    expand [Lit (str "_")] g' = [underscore]
  | None => match_here re_not_alnum st = None
  end.
Proof.
  destruct st as [b text g]. unfold match_here, re_not_alnum.
  cbn [after before]. destruct text as [|c t]; [reflexivity|].
  rewrite rmatch_Cls_cons. destruct (notAlnum c); [|reflexivity].
  exists (c :: b), []. split; reflexivity.
Qed.

Lemma safeName_map (base : jsstring) :
  safeName base = map (fun c => if notAlnum c then underscore else c) base.
Proof.
  unfold safeName.
  rewrite (replace_all_rewriteAll
             (fun text => match text with
                          | c :: t => if notAlnum c then Some t else None
                          | [] => None
                          end) [underscore]).
  - unfold rewriteAll. induction base as [|c base IH]; [reflexivity|].
    cbn [length rewriteFrom map]. destruct (notAlnum c); cbn [app];
      now rewrite IH.
  - intros text rest'. destruct text as [|c t]; [discriminate|].
    destruct (notAlnum c); [|discriminate]. intros [= <-]. cbn. lia.
  - apply match_here_not_alnum.
Qed.

Lemma match_here_spaces_underscore (st : mstate) :
  match spacesBreak (after st) with
  | Some rest' =>
      exists b' g', match_here re_spaces st = Some (MState b' rest' g') /\
                    expand [Lit (str "_")] g' = [underscore]
  | None => match_here re_spaces st = None
  end.
Proof.
  destruct st as [b text g]. unfold match_here, spacesBreak, re_spaces, ws.
  cbn [after before]. rewrite rmatch_Plus.
  destruct text as [|c t]; [reflexivity|].
  rewrite rmatch_Cls_cons. destruct (isSpace c); [|reflexivity].
  exists (rev (takeWhile isSpace t) ++ c :: b), []. split; [|reflexivity].
  change (star_loop (rmatch (Cls isSpace)) (S (length (after (MState (c :: b) t []))))
            (MState (c :: b) t []) Some)
    with (rmatch (Star (Cls isSpace)) (MState (c :: b) t []) Some).
  now apply star_cls_longest.
Qed.

Lemma spacedName_rewrite (base : jsstring) :
  spacedName base = rewriteAll spacesBreak [underscore] base.
Proof.
  unfold spacedName. apply replace_all_rewriteAll.
  - apply spacesBreak_shorter.
  - apply match_here_spaces_underscore.
Qed.

Lemma rewriteFrom_spaces_free (fuel : nat) :
  forall text,
    length text <= fuel ->
    Forall (fun c => isSpace c = false)
           (rewriteFrom spacesBreak [underscore] fuel text).
Proof.
  induction fuel as [|fuel IH]; intros text Hlen.
  - destruct text; [constructor|cbn in Hlen; lia].
  - cbn [rewriteFrom]. destruct (spacesBreak text) as [rest'|] eqn:E.
    + constructor; [reflexivity|]. apply IH.
      apply spacesBreak_shorter in E. lia.
    + destruct text as [|c t]; [constructor|].
      unfold spacesBreak in E. destruct (isSpace c) eqn:Ec; [discriminate|].
      constructor; [exact Ec|]. apply IH. cbn in Hlen. lia.
Qed.

Lemma rewriteFrom_spaces_same (fuel : nat) :
  forall text,
    Forall (fun c => isSpace c = false) text ->
    rewriteFrom spacesBreak [underscore] fuel text = text.
Proof.
  induction fuel as [|fuel IH]; intros text H; [reflexivity|].
  cbn [rewriteFrom]. destruct H as [|c t Hc Ht]; [reflexivity|].
  cbn [spacesBreak]. rewrite Hc. now rewrite IH.
Qed.

End NameFacts.

(** X19. The file name that [convertPdfToMd] writes and [checkMdExists]
    looks for last is the base name with every character other than an
    ASCII letter or digit turned into an underscore: it has the length of
    the base name, holds letters, digits and underscores only, and is left
    as it is by the same replacement.  The name with underscores for runs
    of white space holds no white space, and is the base name when that
    has none. *)
Theorem md_names (base : jsstring) :
  safeName base = map (fun c => if notAlnum c then underscore else c) base /\
  length (safeName base) = length base /\
  Forall (fun c => notAlnum c = false \/ c = underscore) (safeName base) /\
  safeName (safeName base) = safeName base /\
  Forall (fun c => isSpace c = false) (spacedName base) /\
  (spacedName base = base <-> Forall (fun c => isSpace c = false) base).
Proof.
  split; [apply safeName_map|]. split; [|split; [|split; [|split]]].
  - now rewrite safeName_map, length_map.
  - rewrite safeName_map. apply Forall_forall. intros c Hc.
    apply in_map_iff in Hc. destruct Hc as (x & <- & _).
    destruct (notAlnum x) eqn:E; [now right|now left].
  - rewrite !safeName_map, map_map. apply map_ext. intros c.
    destruct (notAlnum c) eqn:E; [reflexivity|now rewrite E].
  - rewrite spacedName_rewrite. now apply rewriteFrom_spaces_free.
  - split.
    + intros E. rewrite <- E, spacedName_rewrite.
      now apply rewriteFrom_spaces_free.
    + intros H. rewrite spacedName_rewrite. now apply rewriteFrom_spaces_same.
Qed.

(** X20. A PDF whose Markdown file stands where [convertPdfToMd] has it
    written is taken as converted by [checkMdExists], whatever the
    directory, the base name and the path functions are. *)
Theorem converted_md_found
    (dirname : jsstring -> jsstring) (basename : jsstring -> jsstring -> jsstring)
    (pathJoin : jsstring -> jsstring -> jsstring) (access : jsstring -> bool)
    (pdfPath : jsstring) :
  access (mdPathOf dirname basename pathJoin pdfPath) = true ->
  checkMdExists dirname basename pathJoin access pdfPath = true.
Proof.
  intros H. unfold checkMdExists, possibleMdPaths. cbn [existsb].
  unfold mdPathOf in H. rewrite H. now rewrite !orb_true_r.
Qed.

Lemma converted_md_found_witness :
  checkMdExists (fun _ => str "/docs") (fun _ _ => str "a b-c")
    (fun dir name => dir ++ str "/" ++ name)
    (fun p => forallb (fun c => negb (chr_eqb c space)) p)
    (str "/docs/a b-c.pdf") = true.
Proof.
  apply (converted_md_found (fun _ => str "/docs") (fun _ _ => str "a b-c")
           (fun dir name => dir ++ str "/" ++ name)
           (fun p => forallb (fun c => negb (chr_eqb c space)) p)
           (str "/docs/a b-c.pdf")).
  vm_compute. reflexivity.
Defined.
